(** * flag.h / ini.h: command-line flags and INI configuration files

    A shallow embedding of the parsing engine of the [flag] library
    (flag.h with WITH_INI defined, and ini.h), and the properties of its
    specification checked against it.

    Conventions of the embedding.
    - A C string ([char*] to NUL-terminated text) is a [string]; reading past
      its end yields the terminator, and a NUL character inside it ends
      it, as it would in memory ([strlen], [strncmp], [strcmp] below).
    - C [int] values that can be negative are [Z]; lengths and indices, which
      the code keeps between 0 and a buffer size, are [nat].
    - [long] is 64 bits wide (LP64), [int] is 32 bits wide.
    - Caller-owned destination storage is a store of typed cells indexed
      by address; [char*] values are tagged with the storage they point to.
    - A block of the heap is kept with the size that [malloc] was asked
      for and the bytes that were stored from its first address on; a
      byte stored after the first [size] bytes lies outside the block.
    - The C library functions the code calls and that are not integer
      or string routines (strtof, strtod, strptime, mktime) are the members of
      the class [Libc]. *)

From Stdlib Require Import ZArith Ascii String List Lia Bool DecimalString.
From stdpp Require Import gmap strings list.

Local Open Scope string_scope.
Local Open Scope Z_scope.

(** ** C strings *)

Definition NUL : ascii := "000"%char.

Definition code (c : ascii) : Z := Z.of_N (N_of_ascii c).

(** [*s] and [s + 1] for a C string. *)
Definition str_head (s : string) : ascii :=
  match s with
  | EmptyString => NUL
  | String c _ => c
  end.

Definition str_tail (s : string) : string :=
  match s with
  | EmptyString => EmptyString
  | String _ s' => s'
  end.

(** [s + n] *)
Fixpoint str_drop (n : nat) (s : string) : string :=
  match n with
  | O => s
  | S n' => str_drop n' (str_tail s)
  end.

(** The first [n] characters of a buffer. *)
Fixpoint str_take (n : nat) (s : string) : string :=
  match n, s with
  | S n', String c s' => String c (str_take n' s')
  | _, _ => EmptyString
  end.

(** [s[i]] *)
Definition char_at (s : string) (i : nat) : ascii := str_head (str_drop i s).

Fixpoint strlen (s : string) : nat :=
  match s with
  | EmptyString => O
  | String c s' => if Ascii.eqb c NUL then O else S (strlen s')
  end.

(** The text of a C string: what lies before its terminator. *)
Definition c_str (s : string) : string := str_take (strlen s) s.

Fixpoint strncmp (a b : string) (n : nat) : Z :=
  match n with
  | O => 0
  | S n' =>
      let ca := str_head a in
      let cb := str_head b in
      if negb (Ascii.eqb ca cb) then code ca - code cb
      else if Ascii.eqb ca NUL then 0
      else strncmp (str_tail a) (str_tail b) n'
  end.

Definition strcmp (a b : string) : Z :=
  strncmp a b (S (Nat.max (String.length a) (String.length b))).

(** [strncpy(dst, src, n)] into a buffer of [n] bytes: the characters
    of [src] before its terminator, at most [n] of them. *)
Definition strncpy (src : string) (n : nat) : string := str_take n (c_str src).

(** A string is a well-formed C string when no character of it is NUL. *)
Fixpoint no_nul (s : string) : bool :=
  match s with
  | EmptyString => true
  | String c s' => negb (Ascii.eqb c NUL) && no_nul s'
  end.

(** [isspace] in the C locale. *)
Definition isspace (c : ascii) : bool :=
  let n := code c in (n =? 32) || ((9 <=? n) && (n <=? 13)).

Definition isdigit (c : ascii) : bool :=
  let n := code c in (48 <=? n) && (n <=? 57).

(** ** Flags and the flag set (flag.h) *)

Definition FLAGS_MAX : nat := 256.
Definition FLAGS_FLAG_MAX_LEN : nat := 64.
Definition FLAGS_TIME_FMT : string := "%Y-%m-%dT%H:%M:%S".

Inductive FlagType : Type :=
| FLAG_TYPE_BOOL
| FLAG_TYPE_STRING
| FLAG_TYPE_INT
| FLAG_TYPE_FLOAT
| FLAG_TYPE_DOUBLE
| FLAG_TYPE_TIME.

(** An address of caller-owned storage (the [void* ptr] of a flag). *)
Definition addr := nat.
Bind Scope nat_scope with addr.

(** A [char*] value, tagged with the storage it points to: nothing, the
    [i]-th token of the argument vector, a block allocated by
    [stringDuplicate], or text of the caller (a default value). *)
Inductive CharPtr : Type :=
| NullPtr
| ArgvPtr (i : nat)
| HeapPtr (b : nat)
| CallerPtr (s : string).

(** The union [FlagValue], one constructor per member in use. Floats and
    doubles are carried as their bit patterns. *)
Inductive FlagValue : Type :=
| as_none
| as_string (p : CharPtr)
| as_int (n : Z)
| as_float (bits : Z)
| as_double (bits : Z)
| as_time_t (t : Z).

Record Flag : Type := mkFlag {
  type : FlagType;
  name : string;
  short_name : ascii;
  description : string;
  ptr : addr;
  default_value : FlagValue
}.

Inductive FlagErrorCode : Type :=
| FLAG_ERROR_CODE_NONE
| FLAG_ERROR_CODE_HELP
| FLAG_ERROR_CODE_UNKNOWN
| FLAG_ERROR_CODE_MISSING_VALUE
| FLAG_ERROR_CODE_INVALID_VALUE
| FLAG_ERROR_CODE_OPEN_CONFIG_FILE.

(** [flags_len] is the length of [flags]; a NULL [config_flag_name] is
    [None]. *)
Record FlagSet : Type := mkFlagSet {
  error_code : FlagErrorCode;
  config_flag_name : option string;
  config_flag_desc : string;
  config_flag_short_name : ascii;
  ignore_unknown : bool;
  error_flag_name : string;
  flags : list Flag
}.

Definition flagSetNew : FlagSet :=
  {| error_code := FLAG_ERROR_CODE_NONE;
     config_flag_name := None;
     config_flag_desc := "";
     config_flag_short_name := NUL;
     ignore_unknown := false;
     error_flag_name := "";
     flags := [] |}.

Definition flagSetIgnoreUnknown (fs : FlagSet) (ignore : bool) : FlagSet :=
  {| error_code := error_code fs;
     config_flag_name := config_flag_name fs;
     config_flag_desc := config_flag_desc fs;
     config_flag_short_name := config_flag_short_name fs;
     ignore_unknown := ignore;
     error_flag_name := error_flag_name fs;
     flags := flags fs |}.

Definition setError (fs : FlagSet) (c : FlagErrorCode) (flag_name : string)
  : FlagSet :=
  {| error_code := c;
     config_flag_name := config_flag_name fs;
     config_flag_desc := config_flag_desc fs;
     config_flag_short_name := config_flag_short_name fs;
     ignore_unknown := ignore_unknown fs;
     error_flag_name := strncpy flag_name FLAGS_FLAG_MAX_LEN;
     flags := flags fs |}.

Definition flagSetConfig (fs : FlagSet) (nm : string) (sn : ascii)
    (desc : string) : FlagSet :=
  {| error_code := error_code fs;
     config_flag_name := Some nm;
     config_flag_desc := desc;
     config_flag_short_name := sn;
     ignore_unknown := ignore_unknown fs;
     error_flag_name := error_flag_name fs;
     flags := flags fs |}.

(** The first flag, in declaration order, that satisfies [p]: the loop
    [for (i = 0; i < fs->flags_len; i++) if (p(fs->flags + i)) return]. *)
Fixpoint first_flag (p : Flag -> bool) (l : list Flag) : option Flag :=
  match l with
  | [] => None
  | item :: l' => if p item then Some item else first_flag p l'
  end.

Definition lookupConfigFlag (fs : FlagSet) (flag : string) : option Flag :=
  let len := strlen flag in
  if (len <? 1)%nat then None
  else first_flag (fun item => strncmp (name item) flag len =? 0) (flags fs).

Definition lookupFlag (fs : FlagSet) (flag : string) : option Flag :=
  let len := strlen flag in
  if (len <? 2)%nat || negb (Ascii.eqb (char_at flag 0) "-"%char) then None
  else if Ascii.eqb (char_at flag 1) "-"%char then
    let nm := str_drop 2 flag in
    first_flag (fun item => strncmp (name item) nm (len - 2) =? 0) (flags fs)
  else if (len =? 2)%nat then
    let nm := char_at flag 1 in
    first_flag (fun item => Ascii.eqb nm (short_name item)) (flags fs)
  else None.

Definition isHelpFlag (flag : string) : bool :=
  let len := strlen flag in
  if (len <? 2)%nat || negb (Ascii.eqb (char_at flag 0) "-"%char) then false
  else if Ascii.eqb (char_at flag 1) "-"%char then
    strcmp "help" (str_drop 2 flag) =? 0
  else if (len =? 2)%nat then Ascii.eqb (char_at flag 1) "h"%char
  else false.

Definition isConfigFlag (fs : FlagSet) (flag : string) : bool :=
  match config_flag_name fs with
  | None => false
  | Some cname =>
      let len := strlen flag in
      if (len <? 2)%nat || negb (Ascii.eqb (char_at flag 0) "-"%char)
      then false
      else if Ascii.eqb (char_at flag 1) "-"%char then
        strncmp cname (str_drop 2 flag) (len - 2) =? 0
      else if (len =? 2)%nat then
        negb (Ascii.eqb (config_flag_short_name fs) NUL)
        && Ascii.eqb (char_at flag 1) (config_flag_short_name fs)
      else false
  end.

(** ** The line scanner and the key/value parser (ini.h) *)

Definition INI_MAX_KEY_SIZE : nat := 128.
Definition INI_MAX_LINE_SIZE : nat := 512.

Definition INI_ERROR_CODE_NONE : Z := 0.
Definition INI_ERROR_CODE_OVERFLOW : Z := -1.
Definition INI_ERROR_INVALID_SYNTAX : Z := -2.

Fixpoint stringLength_loop (s : string) (n i : nat) : nat :=
  match n with
  | O => i
  | S n' =>
      if Ascii.eqb (char_at s i) NUL then i else stringLength_loop s n' (S i)
  end.

Definition stringLength (s : string) (maxlen : nat) : nat :=
  stringLength_loop s maxlen 0.

Fixpoint lookupChar_loop (buf : string) (n : nat) (c : ascii) (i : nat) : Z :=
  match n with
  | O => -1
  | S n' =>
      if Ascii.eqb c (char_at buf i) then Z.of_nat i
      else lookupChar_loop buf n' c (S i)
  end.

Definition lookupChar (buf : string) (len : nat) (c : ascii) : Z :=
  lookupChar_loop buf len c 0.

(** The loop runs [i] from [len - 1] down to 0. *)
Fixpoint trimRight (src : string) (len : nat) : nat :=
  match len with
  | O => O
  | S i => if negb (isspace (char_at src i)) then S i else trimRight src i
  end.

Fixpoint trimLeft_loop (src : string) (n i : nat) : nat :=
  match n with
  | O => i
  | S n' =>
      if negb (isspace (char_at src i)) then i else trimLeft_loop src n' (S i)
  end.

Definition trimLeft (src : string) (len : nat) : nat := trimLeft_loop src len 0.

(** [self] is the address of the allocated object (the [IniParser*] value)
    and [file] the handle of its stream (the [FILE*] value). The line
    buffer holds the text before its first NUL. *)
Record IniParser : Type := mkIniParser {
  self : nat;
  file : nat;
  cursor : nat;
  line_len : nat;
  lineno : nat;
  file_owned : bool;
  line : string
}.

Definition newline : ascii := "010"%char.

(** A stream open for reading is the list of the chunks that successive
    calls [fgets(buf, INI_MAX_LINE_SIZE, file)] store: each holds at
    most [INI_MAX_LINE_SIZE - 1] characters and ends after the first
    newline, if there is one in reach. *)
Fixpoint fgets_chunks (cap room : nat) (s : string) : list string :=
  match s with
  | EmptyString => []
  | String c s' =>
      if Ascii.eqb c newline || (room <=? 1)%nat
      then String c EmptyString :: fgets_chunks cap cap s'
      else match fgets_chunks cap (room - 1) s' with
           | [] => [String c EmptyString]
           | chunk :: rest => String c chunk :: rest
           end
  end.

Definition stream_of (content : string) : list string :=
  fgets_chunks (INI_MAX_LINE_SIZE - 1) (INI_MAX_LINE_SIZE - 1) content.

(** [iniParserConsume], given what [fgets] stored ([None] when it
    returned NULL). *)
Definition iniParserConsume (parser : IniParser) (got : option string)
  : bool * IniParser :=
  match got with
  | None =>
      (false,
       {| self := self parser; file := file parser; cursor := 0;
          line_len := 0; lineno := lineno parser;
          file_owned := file_owned parser; line := "" |})
  | Some chunk =>
      let length := stringLength chunk INI_MAX_LINE_SIZE in
      let len := trimRight chunk length in
      (true,
       {| self := self parser; file := file parser; cursor := 0;
          line_len := len; lineno := lineno parser;
          file_owned := file_owned parser; line := str_take len chunk |})
  end.

(** [iniParserLine]: the current line as [(line, len)], where [None] is
    the NULL pointer, and the parser after the call. *)
Definition iniParserLine (parser : IniParser)
  : option string * nat * IniParser :=
  if (line_len parser =? 0)%nat then (None, line_len parser, parser)
  else
    let begin :=
      trimLeft (str_drop (cursor parser) (line parser)) (line_len parser) in
    let parser' :=
      {| self := self parser; file := file parser;
         cursor := cursor parser + begin;
         line_len := line_len parser - begin; lineno := lineno parser;
         file_owned := file_owned parser; line := line parser |} in
    if (line_len parser' =? 0)%nat then (None, line_len parser', parser')
    else (Some (str_drop (cursor parser') (line parser')),
          line_len parser', parser').

Definition advance (parser : IniParser) (n : nat) : IniParser :=
  {| self := self parser; file := file parser;
     cursor := cursor parser + n;
     line_len := line_len parser - n; lineno := lineno parser;
     file_owned := file_owned parser; line := line parser |}.

(** The loop of [iniParseKey] over the unread part of the stream;
    [maxlen] is already decremented. The result is the returned [int],
    the key buffer, the parser and the unread part left. *)
Fixpoint iniParseKey_loop (stream : list string) (parser : IniParser)
    (dst : string) (maxlen : Z) : Z * string * IniParser * list string :=
  match stream with
  | [] =>
      (INI_ERROR_CODE_NONE, dst, snd (iniParserConsume parser None), [])
  | chunk :: rest =>
      let parser1 := snd (iniParserConsume parser (Some chunk)) in
      let '(ln, length, parser2) := iniParserLine parser1 in
      let ln := default "" ln in
      if (length =? 0)%nat || Ascii.eqb (char_at ln 0) ";"%char
         || Ascii.eqb (char_at ln 0) "#"%char
      then iniParseKey_loop rest parser2 dst maxlen
      else
        let separator := lookupChar ln length "="%char in
        if separator <? 2 then (INI_ERROR_INVALID_SYNTAX, dst, parser2, rest)
        else
          let parser3 := advance parser2 (Z.to_nat separator + 1) in
          let key_len := trimRight ln (Z.to_nat separator) in
          if Z.of_nat key_len >? maxlen
          then (INI_ERROR_CODE_OVERFLOW, dst, parser3, rest)
          else (Z.of_nat key_len, strncpy ln key_len, parser3, rest)
  end.

(** One pass through the body of the continuation loop of
    [iniParseValue], up to the test that decides whether another line is
    read: the bytes of [dst] written so far, [cursor], [maxlen], and
    whether to read on ([more && maxlen > 0]). *)
Definition value_pass (ln : string) (length maxlen cursor : Z) (acc : string)
  : string * Z * Z * bool :=
  let more := Ascii.eqb (char_at ln (Z.to_nat (length - 1))) "\"%char in
  let length :=
    if more then Z.of_nat (trimRight ln (Z.to_nat (length - 1)))
    else length in
  let length := if length <? maxlen then length else maxlen in
  let acc := acc ++ strncpy ln (Z.to_nat length) in
  let cursor := cursor + length in
  let maxlen := maxlen - length in
  if maxlen >? 0
  then (acc ++ " ", cursor + 1, maxlen - 1, more && (maxlen - 1 >? 0))
  else (acc, cursor, maxlen, more && (maxlen >? 0)).

(** The continuation loop of [iniParseValue]. Every iteration is entered
    with [more] true; [acc] holds the [cursor] bytes written so far. *)
Fixpoint iniParseValue_loop (stream : list string) (parser : IniParser)
    (ln : string) (length maxlen cursor : Z) (acc : string)
  : Z * string * IniParser * list string :=
  if negb ((length >? 0) && (maxlen >? 0)) then (cursor, acc, parser, stream)
  else
    let '(acc, cursor, maxlen, again) :=
      value_pass ln length maxlen cursor acc in
    if again then
      match stream with
      | [] =>
          (* fgets returns NULL: the next line is empty, the loop ends *)
          let parser1 := snd (iniParserConsume parser None) in
          let '(_, _, parser2) := iniParserLine parser1 in
          (cursor, acc, parser2, [])
      | chunk :: rest =>
          let parser1 := snd (iniParserConsume parser (Some chunk)) in
          let '(ln', length', parser2) := iniParserLine parser1 in
          iniParseValue_loop rest parser2 (default "" ln')
            (Z.of_nat length') maxlen cursor acc
      end
    else (cursor, acc, parser, stream).

(** [iniParseValue] on the unread part of the stream. *)
Definition iniParseValue_on (stream : list string) (parser : IniParser)
    (dst : string) (maxlen : Z) : Z * string * IniParser * list string :=
  let '(ln, length, parser1) := iniParserLine parser in
  let ln := default "" ln in
  if (length =? 0)%nat then (0, dst, parser1, stream)
  else
    let maxlen := maxlen - 1 in
    let length := Z.of_nat length in
    if negb (Ascii.eqb (char_at ln (Z.to_nat (length - 1))) "\"%char) then
      let length := if length <? maxlen then length else maxlen in
      (length, strncpy ln (Z.to_nat length), parser1, stream)
    else iniParseValue_loop stream parser1 ln length maxlen 0 "".

(** ** The C library *)

Definition INT_MIN : Z := - 2 ^ 31.
Definition INT_MAX : Z := 2 ^ 31 - 1.
Definition LONG_MIN : Z := - 2 ^ 63.
Definition LONG_MAX : Z := 2 ^ 63 - 1.

(** The number of leading white-space characters. *)
Fixpoint count_space (s : string) : nat :=
  match s with
  | String c s' => if isspace c then S (count_space s') else O
  | EmptyString => O
  end.

(** The value and the length of the longest prefix of decimal digits. *)
Fixpoint digits (s : string) (acc : Z) : Z * nat :=
  match s with
  | String c s' =>
      if isdigit c then
        let '(v, n) := digits s' (10 * acc + (code c - 48)) in (v, S n)
      else (acc, O)
  | EmptyString => (acc, O)
  end.

Definition clamp_long (v : Z) : Z :=
  if v <? LONG_MIN then LONG_MIN else if LONG_MAX <? v then LONG_MAX else v.

(** [strtol(s, &end, 10)]: the result and [end - s]. White space is
    skipped, a sign is optional, the digits that follow are converted
    and the result saturates at the bounds of [long]; without a digit
    nothing is converted and [end] is [s]. *)
Definition strtol (s : string) : Z * nat :=
  let ws := count_space s in
  let s1 := str_drop ws s in
  let c := str_head s1 in
  let sg := if Ascii.eqb c "-"%char || Ascii.eqb c "+"%char then 1%nat else 0%nat in
  let '(v, n) := digits (str_drop sg s1) 0 in
  if (n =? 0)%nat then (0, 0%nat)
  else (clamp_long (if Ascii.eqb c "-"%char then - v else v), (ws + sg + n)%nat).

Record tm : Type := mk_tm {
  tm_sec : Z;
  tm_min : Z;
  tm_hour : Z;
  tm_mday : Z;
  tm_mon : Z;
  tm_year : Z;
  tm_wday : Z;
  tm_yday : Z;
  tm_isdst : Z
}.

(** [struct tm result = { 0 }] *)
Definition tm_zero : tm := mk_tm 0 0 0 0 0 0 0 0 0.

(** The C library functions taken as given. A pointer into the text
    that was passed is the offset from its start, and NULL is [None].
    - [strtof s], [strtod s]: the bit pattern of the result and [end - s];
    - [double_to_float], [float_to_double]: the conversions between
      the two types;
    - [strptime s fmt t]: the returned pointer and the structure
      after the call;
    - [mktime t]: the returned [time_t]. *)
Class Libc : Type := {
  strtof : string -> Z * nat;
  strtod : string -> Z * nat;
  double_to_float : Z -> Z;
  float_to_double : Z -> Z;
  strptime : string -> string -> tm -> option nat * tm;
  mktime : tm -> Z
}.

(** ** The world outside the flag set *)

(** A cell of caller-owned storage, typed by what was last stored. *)
Inductive Cell : Type :=
| CBool (b : bool)
| CString (p : CharPtr)
| CInt (n : Z)
| CFloat (bits : Z)
| CDouble (bits : Z)
| CTime (t : Z).

(** What happens to streams and to parser objects, in order. *)
Inductive Event : Type :=
| EvOpen (path : string) (h : nat)
| EvClose (h : nat)
| EvAlloc (p : nat)
| EvFree (p : nat).

(** A block of the heap: the number of bytes that [malloc] was asked
    for, and the bytes that were stored from its first address on, in
    order. The bytes after the first [block_size] lie outside the
    block. *)
Record Block : Type := mkBlock {
  block_size : nat;
  block_bytes : string
}.

(** [mem]: caller-owned destinations; [blocks]: the blocks allocated
    by [stringDuplicate], [HeapPtr b] being the [b]-th; [files]: the
    files that [fopen] can open, with their contents; [streams]: the
    open streams and what is unread of each; [events]: the trace,
    oldest first. *)
Record World : Type := mkWorld {
  mem : gmap addr Cell;
  blocks : list Block;
  files : gmap string string;
  streams : gmap nat (list string);
  events : list Event
}.

Definition store (w : World) (a : addr) (c : Cell) : World :=
  {| mem := <[a := c]> (mem w); blocks := blocks w; files := files w;
     streams := streams w; events := events w |}.

Definition with_streams (w : World) (s : gmap nat (list string)) : World :=
  {| mem := mem w; blocks := blocks w; files := files w;
     streams := s; events := events w |}.

Definition emit (w : World) (e : Event) : World :=
  {| mem := mem w; blocks := blocks w; files := files w;
     streams := streams w; events := events w ++ [e] |}.

(** A handle or an address not used before. *)
Definition fresh (w : World) : nat := List.length (events w).

(** ** Parser objects and their streams (ini.h) *)

(** [fopen(filename, "r")]: NULL for a file that [files] does not hold.
    No bound is put on the number of streams that are open at once. *)
Definition fopen (w : World) (filename : string) : option nat * World :=
  match files w !! filename with
  | None => (None, w)
  | Some content =>
      let h := fresh w in
      (Some h,
       emit (with_streams w (<[h := stream_of content]> (streams w)))
            (EvOpen filename h))
  end.

Definition fclose (w : World) (h : nat) : World :=
  emit (with_streams w (delete h (streams w))) (EvClose h).

(** [iniParserNew] on a stream of the caller, which is not NULL. *)
Definition iniParserNew (w : World) (h : nat) : IniParser * World :=
  let p := fresh w in
  ({| self := p; file := h; cursor := 0; line_len := 0; lineno := 0;
      file_owned := false; line := "" |},
   emit w (EvAlloc p)).

Definition iniParserOpen (w : World) (filename : string)
  : option IniParser * World :=
  match fopen w filename with
  | (None, w1) => (None, w1)
  | (Some h, w1) =>
      let p := fresh w1 in
      (Some {| self := p; file := h; cursor := 0; line_len := 0; lineno := 0;
               file_owned := true; line := "" |},
       emit w1 (EvAlloc p))
  end.

Definition iniParserFree (w : World) (parser : option IniParser) : World :=
  match parser with
  | None => w
  | Some parser =>
      let w1 := if file_owned parser then fclose w (file parser) else w in
      emit w1 (EvFree (self parser))
  end.

(** What is unread of the stream of a parser, and its replacement. *)
Definition unread (w : World) (parser : IniParser) : list string :=
  default [] (streams w !! file parser).

Definition set_unread (w : World) (parser : IniParser) (rest : list string)
  : World :=
  with_streams w (alter (fun _ => rest) (file parser) (streams w)).

Definition iniParseKey (w : World) (parser : IniParser) (dst : string)
    (maxlen : Z) : Z * string * IniParser * World :=
  let maxlen := maxlen - 1 in
  let '(n, dst, parser, rest) :=
    iniParseKey_loop (unread w parser) parser dst maxlen in
  (n, dst, parser, set_unread w parser rest).

Definition iniParseValue (w : World) (parser : IniParser) (dst : string)
    (maxlen : Z) : Z * string * IniParser * World :=
  let '(n, dst, parser, rest) :=
    iniParseValue_on (unread w parser) parser dst maxlen in
  (n, dst, parser, set_unread w parser rest).

(** ** Parsing arguments and configuration files (flag.h) *)

(** How a call ends: it returns, an [assert] fails, a NULL pointer is
    read, or the fuel that bounds the model is used up. *)
Inductive Outcome : Type :=
| Ret (b : bool)
| Abort
| Fault
| OutOfFuel.

Definition Res : Type := Outcome * FlagSet * World.

(** [flagMake], with the default value that the caller stores into the
    new flag; [None] when the [assert] on the number of flags fails. *)
Definition flagMake (fs : FlagSet) (dst : addr) (ty : FlagType) (nm : string)
    (sn : ascii) (desc : string) (dv : FlagValue) : option FlagSet :=
  if (List.length (flags fs) <? FLAGS_MAX)%nat then
    Some {| error_code := error_code fs;
            config_flag_name := config_flag_name fs;
            config_flag_desc := config_flag_desc fs;
            config_flag_short_name := config_flag_short_name fs;
            ignore_unknown := ignore_unknown fs;
            error_flag_name := error_flag_name fs;
            flags := flags fs ++ [mkFlag ty nm sn desc dst dv] |}
  else None.

Definition flagSetBoolVar (st : FlagSet * World) (dst : addr) (nm : string)
    (sn : ascii) (desc : string) : option (FlagSet * World) :=
  fs ← flagMake st.1 dst FLAG_TYPE_BOOL nm sn desc as_none;
  Some (fs, store st.2 dst (CBool false)).

Definition flagSetStringVar (st : FlagSet * World) (dst : addr) (nm : string)
    (sn : ascii) (dv : CharPtr) (desc : string) : option (FlagSet * World) :=
  fs ← flagMake st.1 dst FLAG_TYPE_STRING nm sn desc (as_string dv);
  Some (fs, store st.2 dst (CString dv)).

Definition flagSetIntVar (st : FlagSet * World) (dst : addr) (nm : string)
    (sn : ascii) (dv : Z) (desc : string) : option (FlagSet * World) :=
  fs ← flagMake st.1 dst FLAG_TYPE_INT nm sn desc (as_int dv);
  Some (fs, store st.2 dst (CInt dv)).

Definition flagSetFloatVar (st : FlagSet * World) (dst : addr) (nm : string)
    (sn : ascii) (dv : Z) (desc : string) : option (FlagSet * World) :=
  fs ← flagMake st.1 dst FLAG_TYPE_FLOAT nm sn desc (as_float dv);
  Some (fs, store st.2 dst (CFloat dv)).

Definition flagSetDoubleVar (st : FlagSet * World) (dst : addr) (nm : string)
    (sn : ascii) (dv : Z) (desc : string) : option (FlagSet * World) :=
  fs ← flagMake st.1 dst FLAG_TYPE_DOUBLE nm sn desc (as_double dv);
  Some (fs, store st.2 dst (CDouble dv)).

Definition flagSetTimeVar (st : FlagSet * World) (dst : addr) (nm : string)
    (sn : ascii) (dv : Z) (desc : string) : option (FlagSet * World) :=
  fs ← flagMake st.1 dst FLAG_TYPE_TIME nm sn desc (as_time_t dv);
  Some (fs, store st.2 dst (CTime dv)).

(** [stringDuplicate] of a non-NULL [src], with
    [len = min(strlen(src), maxlen)]: [malloc(len)] gives a block of
    [len] bytes, [memcpy] stores the first [len] characters of [src] in
    it, and [result[len] = 0] stores the terminator at the next
    address, which is one byte past the end of the block. *)
Definition stringDuplicate (w : World) (src : string) (maxlen : Z)
  : CharPtr * World :=
  let len := Z.of_nat (strlen src) in
  let len := if len <? maxlen then len else maxlen in
  (HeapPtr (List.length (blocks w)),
   {| mem := mem w;
      blocks := blocks w
                ++ [{| block_size := Z.to_nat len;
                       block_bytes := str_take (Z.to_nat len) src
                                      ++ String NUL "" |}];
      files := files w; streams := streams w; events := events w |}).

(** The text a [char*] points to, given the argument vector: none for
    NULL, and none for a block that holds no terminator among its own
    bytes, where reading the text runs past the end of the block. *)
Definition deref (argv : list string) (w : World) (p : CharPtr)
  : option string :=
  match p with
  | NullPtr => None
  | ArgvPtr i => argv !! i
  | HeapPtr b =>
      blk ← blocks w !! b;
      if (strlen (block_bytes blk) <? block_size blk)%nat
      then Some (c_str (block_bytes blk))
      else None
  | CallerPtr s => Some s
  end.

Definition CONFIG_BUFFER_SIZE : Z := 512.

Section Parse.

Context `{Libc}.

(** The [switch (conf->type)] of [flagSetParse] for a flag that takes a
    value: [value] is the token [argv[i]]. [None] is the failure that
    the caller reports as an invalid value. *)
Definition coerceArg (w : World) (conf : Flag) (value : string) (i : nat)
  : option World :=
  match type conf with
  | FLAG_TYPE_BOOL => Some (store w (ptr conf) (CBool true))
  | FLAG_TYPE_STRING => Some (store w (ptr conf) (CString (ArgvPtr i)))
  | FLAG_TYPE_INT =>
      let '(result, e) := strtol value in
      if (e =? 0)%nat || (result <? INT_MIN) || (INT_MAX <? result) then None
      else Some (store w (ptr conf) (CInt result))
  | FLAG_TYPE_FLOAT =>
      let '(result, e) := strtof value in
      if (e =? 0)%nat then None
      else Some (store w (ptr conf) (CFloat result))
  | FLAG_TYPE_DOUBLE =>
      let '(result, e) := strtod value in
      let result := double_to_float result in
      if (e =? 0)%nat then None
      else Some (store w (ptr conf) (CDouble (float_to_double result)))
  | FLAG_TYPE_TIME =>
      let '(e, result) := strptime value FLAGS_TIME_FMT tm_zero in
      if bool_decide (e = Some 0%nat) then None
      else Some (store w (ptr conf) (CTime (mktime result)))
  end.

(** The [switch (conf->type)] of [parseIniConfig]: [buf] holds the
    value and [value_len] is what [iniParseValue] returned. *)
Definition coerceConfig (w : World) (conf : Flag) (buf : string)
    (value_len : Z) : option World :=
  match type conf with
  | FLAG_TYPE_BOOL =>
      if strncmp buf "true" (Z.to_nat value_len) =? 0
      then Some (store w (ptr conf) (CBool true))
      else if strncmp buf "false" (Z.to_nat value_len) =? 0
      then Some (store w (ptr conf) (CBool false))
      else None
  | FLAG_TYPE_STRING =>
      let '(p, w1) := stringDuplicate w buf value_len in
      Some (store w1 (ptr conf) (CString p))
  | FLAG_TYPE_INT =>
      let '(result, e) := strtol buf in
      if (e =? 0)%nat || (result <? INT_MIN) || (INT_MAX <? result) then None
      else Some (store w (ptr conf) (CInt result))
  | FLAG_TYPE_FLOAT =>
      let '(result, e) := strtof buf in
      if (e =? 0)%nat then None
      else Some (store w (ptr conf) (CFloat result))
  | FLAG_TYPE_DOUBLE =>
      let '(result, e) := strtod buf in
      let result := double_to_float result in
      if (e =? 0)%nat then None
      else Some (store w (ptr conf) (CDouble (float_to_double result)))
  | FLAG_TYPE_TIME =>
      let '(e, result) := strptime buf FLAGS_TIME_FMT tm_zero in
      if bool_decide (e = Some 0%nat) then None
      else Some (store w (ptr conf) (CTime (mktime result)))
  end.

(** [parseIniConfig], given the loop to run on the opened parser. *)
Definition parseIniConfig_with
    (loop : FlagSet -> World -> IniParser -> string -> Res)
    (fs : FlagSet) (w : World) (filename : string) : Res :=
  match iniParserOpen w filename with
  | (None, w1) =>
      match config_flag_name fs with
      | None => (Fault, fs, w1)
      | Some cname =>
          (Ret false, setError fs FLAG_ERROR_CODE_OPEN_CONFIG_FILE cname, w1)
      end
  | (Some parser, w1) => loop fs w1 parser ""
  end.

(** The [while] loop of [parseIniConfig] from the test of its
    condition, with the contents of [buf]. One unit of fuel is spent
    per iteration and per file entered. *)
Fixpoint parseIniConfig_loop (fuel : nat) (fs : FlagSet) (w : World)
    (parser : IniParser) (buf : string) : Res :=
  match fuel with
  | O => (OutOfFuel, fs, w)
  | S fuel' =>
      let '(n, buf, parser, w) :=
        iniParseKey w parser buf (Z.of_nat FLAGS_FLAG_MAX_LEN) in
      if n >? 0 then
        if match config_flag_name fs with
           | Some cname => strcmp cname buf =? 0
           | None => false
           end
        then
          let '(n, buf, parser, w) :=
            iniParseValue w parser buf CONFIG_BUFFER_SIZE in
          if n =? 0 then
            (Ret false, setError fs FLAG_ERROR_CODE_MISSING_VALUE buf,
             iniParserFree w (Some parser))
          else
            match parseIniConfig_with (parseIniConfig_loop fuel') fs w buf with
            | (Ret true, fs, w) => parseIniConfig_loop fuel' fs w parser ""
            | r => r
            end
        else
          match lookupConfigFlag fs buf with
          | None =>
              if ignore_unknown fs then parseIniConfig_loop fuel' fs w parser ""
              else
                (Ret false, setError fs FLAG_ERROR_CODE_UNKNOWN buf,
                 iniParserFree w (Some parser))
          | Some conf =>
              let '(value_len, buf, parser, w) :=
                iniParseValue w parser "" CONFIG_BUFFER_SIZE in
              if value_len =? 0 then
                (Ret false,
                 setError fs FLAG_ERROR_CODE_MISSING_VALUE (name conf),
                 iniParserFree w (Some parser))
              else
                match coerceConfig w conf buf value_len with
                | None =>
                    (Ret false,
                     setError fs FLAG_ERROR_CODE_INVALID_VALUE (name conf),
                     iniParserFree w (Some parser))
                | Some w => parseIniConfig_loop fuel' fs w parser ""
                end
          end
      else (Ret true, fs, w)
  end.

Definition parseIniConfig (fuel : nat) (fs : FlagSet) (w : World)
    (filename : string) : Res :=
  parseIniConfig_with (parseIniConfig_loop fuel) fs w filename.

(** The [while (argc > 0)] loop of [flagSetParse]: [args] is what is
    left of the argument vector and [i] the index of its first token. *)
Fixpoint flagSetParse_loop (fuel : nat) (fs : FlagSet) (w : World)
    (args : list string) (i : nat) : Res :=
  match args with
  | [] => (Ret true, fs, w)
  | flag :: args1 =>
      if isConfigFlag fs flag then
        match args1 with
        | [] => (Ret false, setError fs FLAG_ERROR_CODE_MISSING_VALUE flag, w)
        | filename :: args2 =>
            match parseIniConfig fuel fs w filename with
            | (Ret true, fs, w) => flagSetParse_loop fuel fs w args2 (i + 2)
            | r => r
            end
        end
      else
        match lookupFlag fs flag with
        | None =>
            if ignore_unknown fs then flagSetParse_loop fuel fs w args1 (i + 1)
            else if isHelpFlag flag
            then (Ret false, setError fs FLAG_ERROR_CODE_HELP flag, w)
            else (Ret false, setError fs FLAG_ERROR_CODE_UNKNOWN flag, w)
        | Some conf =>
            match type conf with
            | FLAG_TYPE_BOOL =>
                flagSetParse_loop fuel fs (store w (ptr conf) (CBool true))
                  args1 (i + 1)
            | _ =>
                match args1 with
                | [] =>
                    (Ret false,
                     setError fs FLAG_ERROR_CODE_MISSING_VALUE (name conf), w)
                | value :: args2 =>
                    match coerceArg w conf value (i + 1) with
                    | None =>
                        (Ret false,
                         setError fs FLAG_ERROR_CODE_INVALID_VALUE (name conf),
                         w)
                    | Some w => flagSetParse_loop fuel fs w args2 (i + 2)
                    end
                end
            end
        end
  end.

(** [flagSetParse(fs, argc, argv)], [argc] being the length of [argv]. *)
Definition flagSetParse (fuel : nat) (fs : FlagSet) (w : World)
    (argv : list string) : Res :=
  match argv with
  | [] => (Abort, fs, w)
  | _ :: args => flagSetParse_loop fuel fs w args 1
  end.

End Parse.

(** ** A reference C library

    An instance of [Libc] to run the code on concrete inputs: the
    conversions of decimal text to IEEE 754 binary32 and binary64,
    [strptime] for the conversions %Y %m %d %H %M %S and literal
    characters, and [mktime] in a time zone without offset. The
    hexadecimal, infinity and NaN forms of [strtod] are not converted. *)

Module RefLibc.

(** The bits of the value nearest to [num / den], ties to even, in the
    format with [p] bits of precision and [ew] bits of exponent. *)
Definition ieee_bits (p ew : Z) (neg : bool) (num den : Z) : Z :=
  let bias := 2 ^ (ew - 1) - 1 in
  let sign := if neg then 2 ^ (p - 1 + ew) else 0 in
  if num <=? 0 then sign
  else
    let e0 := Z.log2 num - Z.log2 den in
    let e1 := if (if e0 <? 0 then num * 2 ^ (- e0) <? den
                  else num <? den * 2 ^ e0)
              then e0 - 1 else e0 in
    let e := Z.max e1 (1 - bias) in
    let sh := p - 1 - e in
    let n := if sh <? 0 then num else num * 2 ^ sh in
    let d := if sh <? 0 then den * 2 ^ (- sh) else den in
    let q := n / d in
    let r := n mod d in
    let q := if (d <? 2 * r) || ((d =? 2 * r) && Z.odd q) then q + 1 else q in
    let '(q, e) := if q =? 2 ^ p then (2 ^ (p - 1), e + 1) else (q, e) in
    if q <? 2 ^ (p - 1) then sign + q
    else if bias <? e then sign + (2 ^ ew - 1) * 2 ^ (p - 1)
    else sign + (e + bias) * 2 ^ (p - 1) + (q - 2 ^ (p - 1)).

Definition is_sign (c : ascii) : bool :=
  Ascii.eqb c "-"%char || Ascii.eqb c "+"%char.

(** The decimal forms of [strtod]: white space, a sign, digits with an
    optional point, and an exponent if digits follow its letter. *)
Definition strto_ieee (p ew : Z) (s : string) : Z * nat :=
  let ws := count_space s in
  let s1 := str_drop ws s in
  let sg := if is_sign (str_head s1) then 1%nat else 0%nat in
  let neg := Ascii.eqb (str_head s1) "-"%char in
  let s2 := str_drop sg s1 in
  let '(ip, ni) := digits s2 0 in
  let s3 := str_drop ni s2 in
  let point := Ascii.eqb (str_head s3) "."%char in
  let '(m, nf) := if point then digits (str_tail s3) ip else (ip, 0%nat) in
  if (ni + nf =? 0)%nat then (0, 0%nat)
  else
    let np := if point then 1%nat else 0%nat in
    let s4 := str_drop (np + nf) s3 in
    let has_e :=
      Ascii.eqb (str_head s4) "e"%char || Ascii.eqb (str_head s4) "E"%char in
    let s5 := str_tail s4 in
    let esg := if is_sign (str_head s5) then 1%nat else 0%nat in
    let '(ev, ne) := digits (str_drop esg s5) 0 in
    let '(e10, nexp) :=
      if has_e && negb (ne =? 0)%nat
      then (if Ascii.eqb (str_head s5) "-"%char then - ev else ev,
            (1 + esg + ne)%nat)
      else (0, 0%nat) in
    let e := e10 - Z.of_nat nf in
    let num := if e <? 0 then m else m * 10 ^ e in
    let den := if e <? 0 then 10 ^ (- e) else 1 in
    (ieee_bits p ew neg num den, (ws + sg + ni + np + nf + nexp)%nat).

(** The value of binary32 or binary64 bits as a fraction. *)
Definition ieee_value (p ew : Z) (bits : Z) : bool * Z * Z :=
  let bias := 2 ^ (ew - 1) - 1 in
  let neg := Z.testbit bits (p - 1 + ew) in
  let be := (bits / 2 ^ (p - 1)) mod 2 ^ ew in
  let f := bits mod 2 ^ (p - 1) in
  let '(q, e) := if be =? 0 then (f, 1 - bias) else (f + 2 ^ (p - 1), be - bias) in
  let sh := e - (p - 1) in
  (neg, if sh <? 0 then q else q * 2 ^ sh, if sh <? 0 then 2 ^ (- sh) else 1).

Definition is_special (p ew : Z) (bits : Z) : bool :=
  (bits / 2 ^ (p - 1)) mod 2 ^ ew =? 2 ^ ew - 1.

(** [(float)x] for finite [x]; infinities keep their sign, and a NaN
    becomes the quiet NaN without payload. *)
Definition double_to_float (bits : Z) : Z :=
  if is_special 53 11 bits then
    (if Z.testbit bits 63 then 2 ^ 31 else 0) + 255 * 2 ^ 23
    + (if bits mod 2 ^ 52 =? 0 then 0 else 2 ^ 22)
  else let '(neg, num, den) := ieee_value 53 11 bits in
       ieee_bits 24 8 neg num den.

Definition float_to_double (bits : Z) : Z :=
  if is_special 24 8 bits then
    (if Z.testbit bits 31 then 2 ^ 63 else 0) + 2047 * 2 ^ 52
    + (if bits mod 2 ^ 23 =? 0 then 0 else 2 ^ 51)
  else let '(neg, num, den) := ieee_value 24 8 bits in
       ieee_bits 53 11 neg num den.

(** At most [n] digits, as long as the value can still stay below [to]. *)
Fixpoint get_number_loop (n : nat) (to : Z) (s : string) (val : Z) : Z * nat :=
  match n, s with
  | S n', String c s' =>
      if isdigit c then
        let val' := val * 10 + (code c - 48) in
        if (0 <? n')%nat && (val' * 10 <=? to) then
          let '(v, k) := get_number_loop n' to s' val' in (v, S k)
        else (val', 1%nat)
      else (val, 0%nat)
  | _, _ => (val, 0%nat)
  end.

(** A number between [from] and [to] of at most [n] digits, after
    optional white space: its value and the characters read. *)
Definition get_number (from to : Z) (n : nat) (s : string) : option (Z * nat) :=
  let ws := count_space s in
  let '(v, k) := get_number_loop n to (str_drop ws s) 0 in
  if (k =? 0)%nat || (v <? from) || (to <? v) then None
  else Some (v, (ws + k)%nat).

Definition set_field (d : ascii) (v : Z) (t : tm) : option tm :=
  if Ascii.eqb d "Y"%char then
    Some (mk_tm (tm_sec t) (tm_min t) (tm_hour t) (tm_mday t) (tm_mon t)
            (v - 1900) (tm_wday t) (tm_yday t) (tm_isdst t))
  else if Ascii.eqb d "m"%char then
    Some (mk_tm (tm_sec t) (tm_min t) (tm_hour t) (tm_mday t) (v - 1)
            (tm_year t) (tm_wday t) (tm_yday t) (tm_isdst t))
  else if Ascii.eqb d "d"%char then
    Some (mk_tm (tm_sec t) (tm_min t) (tm_hour t) v (tm_mon t)
            (tm_year t) (tm_wday t) (tm_yday t) (tm_isdst t))
  else if Ascii.eqb d "H"%char then
    Some (mk_tm (tm_sec t) (tm_min t) v (tm_mday t) (tm_mon t)
            (tm_year t) (tm_wday t) (tm_yday t) (tm_isdst t))
  else if Ascii.eqb d "M"%char then
    Some (mk_tm (tm_sec t) v (tm_hour t) (tm_mday t) (tm_mon t)
            (tm_year t) (tm_wday t) (tm_yday t) (tm_isdst t))
  else if Ascii.eqb d "S"%char then
    Some (mk_tm v (tm_min t) (tm_hour t) (tm_mday t) (tm_mon t)
            (tm_year t) (tm_wday t) (tm_yday t) (tm_isdst t))
  else None.

Definition field_range (d : ascii) : Z * Z * nat :=
  if Ascii.eqb d "Y"%char then (0, 9999, 4%nat)
  else if Ascii.eqb d "m"%char then (1, 12, 2%nat)
  else if Ascii.eqb d "d"%char then (1, 31, 2%nat)
  else if Ascii.eqb d "H"%char then (0, 23, 2%nat)
  else if Ascii.eqb d "M"%char then (0, 59, 2%nat)
  else (0, 61, 2%nat).

(** [off] characters of the text are read and [s] is what follows. *)
Fixpoint strptime_go (fmt s : string) (off : nat) (t : tm) : option nat * tm :=
  match fmt with
  | EmptyString => (Some off, t)
  | String c fmt1 =>
      if Ascii.eqb c "%"%char then
        match fmt1 with
        | EmptyString => (None, t)
        | String d fmt2 =>
            let '(from, to, n) := field_range d in
            match get_number from to n s with
            | None => (None, t)
            | Some (v, k) =>
                match set_field d v t with
                | None => (None, t)
                | Some t' => strptime_go fmt2 (str_drop k s) (off + k) t'
                end
            end
        end
      else if isspace c then
        strptime_go fmt1 (str_drop (count_space s) s) (off + count_space s) t
      else
        match s with
        | String c' s' =>
            if Ascii.eqb c c' then strptime_go fmt1 s' (S off) t else (None, t)
        | EmptyString => (None, t)
        end
  end.

Definition strptime (s fmt : string) (t : tm) : option nat * tm :=
  strptime_go fmt s 0 t.

(** The days from 1970-01-01 to the first day of month [m] (from 0, and
    possibly out of range) of year [y]. *)
Definition days_to_month (y m : Z) : Z :=
  let y := y + m / 12 in
  let m := m mod 12 + 1 in
  let y' := if m <=? 2 then y - 1 else y in
  let era := y' / 400 in
  let yoe := y' - era * 400 in
  let mp := (m + 9) mod 12 in
  let doy := (153 * mp + 2) / 5 in
  era * 146097 + (yoe * 365 + yoe / 4 - yoe / 100 + doy) - 719468.

Definition mktime (t : tm) : Z :=
  (days_to_month (tm_year t + 1900) (tm_mon t) + (tm_mday t - 1)) * 86400
  + tm_hour t * 3600 + tm_min t * 60 + tm_sec t.

End RefLibc.

#[export] Instance ref_libc : Libc :=
  {| strtof := RefLibc.strto_ieee 24 8;
     strtod := RefLibc.strto_ieee 53 11;
     double_to_float := RefLibc.double_to_float;
     float_to_double := RefLibc.float_to_double;
     strptime := RefLibc.strptime;
     mktime := RefLibc.mktime |}.

(** ** Inputs of the examples *)

Definition nl : string := String newline "".

Definition world0 : World :=
  {| mem := ∅; blocks := []; files := ∅; streams := ∅; events := [] |}.

Definition with_file (w : World) (path content : string) : World :=
  {| mem := mem w; blocks := blocks w;
     files := <[path := content]> (files w);
     streams := streams w; events := events w |}.

(** The flag that [flagSetBoolVar] makes for [verbose]. *)
Definition flag_verbose : Flag :=
  mkFlag FLAG_TYPE_BOOL "verbose" "v" "Verbose output" 0 as_none.

Definition reg_verbose : option (FlagSet * World) :=
  flagSetBoolVar (flagSetNew, world0) 0 "verbose" "v" "Verbose output".

Definition reg_verbose_verb : option (FlagSet * World) :=
  st ← reg_verbose; flagSetBoolVar st 1 "verb" NUL "A verb".

Definition reg_verbose_config : option (FlagSet * World) :=
  st ← reg_verbose;
  Some (flagSetConfig st.1 "config" "c" "Configuration file", st.2).

(** Running a function of the flag set on a registration. *)
Definition run {A : Type} (r : option (FlagSet * World))
    (f : FlagSet -> World -> A) : option A :=
  st ← r; Some (f st.1 st.2).

(** A registry with a flag of each of four types, and the same with a
    configuration flag. *)
Definition reg_demo : option (FlagSet * World) :=
  st ← flagSetBoolVar (flagSetNew, world0) 0 "verbose" "v" "Verbose output";
  st ← flagSetStringVar st 1 "name" "n" (CallerPtr "nobody") "Name";
  st ← flagSetIntVar st 2 "count" "c" 7 "Count";
  flagSetTimeVar st 3 "when" NUL 0 "Start time".

Definition reg_demo_config : option (FlagSet * World) :=
  st ← reg_demo;
  Some (flagSetConfig st.1 "config" "f" "Configuration file", st.2).

Definition fs_demo : FlagSet :=
  match reg_demo_config with Some st => st.1 | None => flagSetNew end.

Definition w_demo : World :=
  match reg_demo_config with Some st => st.2 | None => world0 end.

Definition flag_name : Flag :=
  mkFlag FLAG_TYPE_STRING "name" "n" "Name" 1 (as_string (CallerPtr "nobody")).

Definition flag_count : Flag :=
  mkFlag FLAG_TYPE_INT "count" "c" "Count" 2 (as_int 7).

Definition flag_when : Flag :=
  mkFlag FLAG_TYPE_TIME "when" NUL "Start time" 3 (as_time_t 0).

(** The world of the demo with one more file, and the parser and the
    world once [iniParserOpen] has opened that file. *)
Definition opened (path content : string) : IniParser * World :=
  match iniParserOpen (with_file w_demo path content) path with
  | (Some parser, w) => (parser, w)
  | (None, w) => (mkIniParser 0 0 0 0 0 false "", w)
  end.

(** What a result shows: the outcome, the error record, the
    destinations at the addresses 0 to 3, the bytes inside each
    allocated block, the open streams and the trace. *)
Definition observe (r : Res)
  : Outcome * FlagErrorCode * string * list (option Cell) * list string
    * list (nat * list string) * list Event :=
  let '(o, fs, w) := r in
  (o, error_code fs, error_flag_name fs,
   [mem w !! 0%nat; mem w !! 1%nat; mem w !! 2%nat; mem w !! 3%nat],
   map (fun blk => str_take (block_size blk) (block_bytes blk)) (blocks w),
   map_to_list (streams w), events w).

(** What the key scanner returns for the first key of a file, and the
    first pair of a file as the two scanners give it. *)
Definition first_key (content : string) : Z * string :=
  let '(parser, w) := opened "a.ini" content in
  let '(n, key, _, _) :=
    iniParseKey w parser "" (Z.of_nat FLAGS_FLAG_MAX_LEN) in
  (n, key).

Definition first_pair (content : string) : Z * string * Z * string :=
  let '(parser, w) := opened "a.ini" content in
  let '(n, key, parser, w) :=
    iniParseKey w parser "" (Z.of_nat FLAGS_FLAG_MAX_LEN) in
  let '(vlen, v, _, _) := iniParseValue w parser "" CONFIG_BUFFER_SIZE in
  (n, key, vlen, v).

(** Merging the file a.ini with the given content into the demo. *)
Definition merge (content : string) : Res :=
  parseIniConfig 8 fs_demo (with_file w_demo "a.ini" content) "a.ini".

Fixpoint replicate_char (n : nat) (c : ascii) : string :=
  match n with
  | O => EmptyString
  | S n' => String c (replicate_char n' c)
  end.

(** A key of 64 characters, one more than the key buffer takes. *)
Definition long_key : string := replicate_char 64 "k".

(** ** Notions used in the statements *)

(** Where a search of the registry stops: at the first flag, in
    declaration order, that satisfies [P]. *)
Definition first_match (P : Flag -> Prop) (l : list Flag) (f : Flag) : Prop :=
  exists l1 l2, l = (l1 ++ f :: l2)%list /\ P f /\ Forall (fun g => ~ P g) l1.

(** On the command line, [flag] is taken for the registered flag [conf]. *)
Definition takes_flag (fs : FlagSet) (flag : string) (conf : Flag) : Prop :=
  isConfigFlag fs flag = false /\ lookupFlag fs flag = Some conf.

(** In a configuration file, the next pair that the loop of
    [parseIniConfig] reads has a key matched to the registered flag
    [conf], and the value [v], for which [iniParseValue] returns [vlen];
    [parser'] and [w'] are the parser and the world after the pair is
    read. *)
Definition reads_pair (fs : FlagSet) (w : World) (parser : IniParser)
    (buf : string) (conf : Flag) (v : string) (vlen : Z)
    (parser' : IniParser) (w' : World) : Prop :=
  exists (n : Z) (key : string) (p1 : IniParser) (w1 : World),
    iniParseKey w parser buf (Z.of_nat FLAGS_FLAG_MAX_LEN) = (n, key, p1, w1)
    /\ 0 < n
    /\ match config_flag_name fs with
       | Some cname => strcmp cname key =? 0
       | None => false
       end = false
    /\ lookupConfigFlag fs key = Some conf
    /\ iniParseValue w1 p1 "" CONFIG_BUFFER_SIZE = (vlen, v, parser', w')
    /\ vlen <> 0.

(** The line of a parser holds no NUL, and the part that is still to be
    scanned lies inside it. *)
Definition parser_ok (p : IniParser) : Prop :=
  no_nul (line p) = true
  /\ (cursor p + line_len p <= String.length (line p))%nat.

(** The [int] that the Int case stores for a text, if it stores one. *)
Definition int_of_text (text : string) : option Z :=
  let '(result, e) := strtol text in
  if (e =? 0)%nat || (result <? INT_MIN) || (INT_MAX <? result) then None
  else Some result.

Fixpoint all_chars (p : ascii -> bool) (s : string) : bool :=
  match s with
  | EmptyString => true
  | String c s' => p c && all_chars p s'
  end.

(** The number that a string of decimal digits denotes, after [acc]. *)
Fixpoint number (ds : string) (acc : Z) : Z :=
  match ds with
  | EmptyString => acc
  | String c ds' => number ds' (10 * acc + (code c - 48))
  end.

(** How often a trace releases the parser at address [p], and how
    often it closes the stream [h]. *)
Definition frees (p : nat) (evs : list Event) : nat :=
  List.length (List.filter
    (fun e => match e with EvFree q => (p =? q)%nat | _ => false end) evs).

Definition closes (h : nat) (evs : list Event) : nat :=
  List.length (List.filter
    (fun e => match e with EvClose k => (h =? k)%nat | _ => false end) evs).

(** ** Notions used in the further properties *)

(** What [iniParseKey] guarantees of a key it returns with the length
    [n], for a bound [maxlen]. *)
Definition key_ok (key : string) (n maxlen : Z) : Prop :=
  n = Z.of_nat (String.length key) /\ n <= maxlen /\ no_nul key = true
  /\ isspace (char_at key 0) = false
  /\ isspace (char_at key (String.length key - 1)) = false
  /\ forall j, (j < String.length key)%nat -> char_at key j <> "="%char.

(** A chunk of a blank line or of a comment: after its leading white
    space there is nothing, or a text that begins with [;] or [#]. *)
Definition comment_or_blank (chunk : string) : bool :=
  match str_drop (count_space chunk) chunk with
  | EmptyString => true
  | String c _ => Ascii.eqb c ";" || Ascii.eqb c "#"
  end.

(** The lines of a text, each with its newline if it has one. *)
Fixpoint text_lines (s : string) : list string :=
  match s with
  | EmptyString => []
  | String c s' =>
      if Ascii.eqb c newline then String c EmptyString :: text_lines s'
      else match text_lines s' with
           | [] => [String c EmptyString]
           | l :: ls => String c l :: ls
           end
  end.

(** What a parse leaves behind, from the flag set [fs] and the world
    [w]: only destinations of registered flags are written, the file
    system is as it was, and the flag set is as it was unless the call
    returns false; then just its error record is set, to a code
    other than none, and under [ignore_unknown] to neither unknown nor
    help. *)
Definition parse_post (fs : FlagSet) (w : World) (r : Res) : Prop :=
  let '(o, fs', w') := r in
  (forall a : addr,
     (forall f, In f (flags fs) -> ptr f <> a) -> mem w' !! a = mem w !! a)
  /\ files w' = files w
  /\ match o with
     | Ret false =>
         exists c nm,
           fs' = setError fs c nm /\ c <> FLAG_ERROR_CODE_NONE
           /\ (ignore_unknown fs = true ->
               c <> FLAG_ERROR_CODE_UNKNOWN /\ c <> FLAG_ERROR_CODE_HELP)
     | _ => fs' = fs
     end.


(** A token that is too short for a flag, does not begin with a dash,
    or has one dash and more than one character after it. *)
Definition never_a_flag (flag : string) : bool :=
  (strlen flag <? 2)%nat
  || negb (Ascii.eqb (char_at flag 0) "-")
  || (negb (Ascii.eqb (char_at flag 1) "-") && negb (strlen flag =? 2)%nat).

(** A declaration of a flag: the arguments of one of the six
    registration functions. *)
Inductive Decl : Type :=
| DeclBool (dst : addr) (nm : string) (sn : ascii) (desc : string)
| DeclString (dst : addr) (nm : string) (sn : ascii) (dv : CharPtr)
    (desc : string)
| DeclInt (dst : addr) (nm : string) (sn : ascii) (dv : Z) (desc : string)
| DeclFloat (dst : addr) (nm : string) (sn : ascii) (dv : Z) (desc : string)
| DeclDouble (dst : addr) (nm : string) (sn : ascii) (dv : Z) (desc : string)
| DeclTime (dst : addr) (nm : string) (sn : ascii) (dv : Z) (desc : string).

Definition declare (st : FlagSet * World) (d : Decl)
  : option (FlagSet * World) :=
  match d with
  | DeclBool dst nm sn desc => flagSetBoolVar st dst nm sn desc
  | DeclString dst nm sn dv desc => flagSetStringVar st dst nm sn dv desc
  | DeclInt dst nm sn dv desc => flagSetIntVar st dst nm sn dv desc
  | DeclFloat dst nm sn dv desc => flagSetFloatVar st dst nm sn dv desc
  | DeclDouble dst nm sn dv desc => flagSetDoubleVar st dst nm sn dv desc
  | DeclTime dst nm sn dv desc => flagSetTimeVar st dst nm sn dv desc
  end.

(** The registrations of a list of declarations, in order. *)
Fixpoint declare_all (st : FlagSet * World) (ds : list Decl)
  : option (FlagSet * World) :=
  match ds with
  | [] => Some st
  | d :: ds' => st' ← declare st d; declare_all st' ds'
  end.

Definition decl_dst (d : Decl) : addr :=
  match d with
  | DeclBool dst _ _ _ | DeclString dst _ _ _ _ | DeclInt dst _ _ _ _
  | DeclFloat dst _ _ _ _ | DeclDouble dst _ _ _ _ | DeclTime dst _ _ _ _ =>
      dst
  end.

(** The flag that a declaration makes, and the default that it stores. *)
Definition decl_flag (d : Decl) : Flag :=
  match d with
  | DeclBool dst nm sn desc => mkFlag FLAG_TYPE_BOOL nm sn desc dst as_none
  | DeclString dst nm sn dv desc =>
      mkFlag FLAG_TYPE_STRING nm sn desc dst (as_string dv)
  | DeclInt dst nm sn dv desc => mkFlag FLAG_TYPE_INT nm sn desc dst (as_int dv)
  | DeclFloat dst nm sn dv desc =>
      mkFlag FLAG_TYPE_FLOAT nm sn desc dst (as_float dv)
  | DeclDouble dst nm sn dv desc =>
      mkFlag FLAG_TYPE_DOUBLE nm sn desc dst (as_double dv)
  | DeclTime dst nm sn dv desc =>
      mkFlag FLAG_TYPE_TIME nm sn desc dst (as_time_t dv)
  end.

Definition decl_cell (d : Decl) : Cell :=
  match d with
  | DeclBool _ _ _ _ => CBool false
  | DeclString _ _ _ dv _ => CString dv
  | DeclInt _ _ _ dv _ => CInt dv
  | DeclFloat _ _ _ dv _ => CFloat dv
  | DeclDouble _ _ _ dv _ => CDouble dv
  | DeclTime _ _ _ dv _ => CTime dv
  end.

(** ** Printing the usage and the error (flag.h) *)

(** The C library functions that format a double and a time, taken as
    given: [printf_f bits] is what the conversion %f prints for the
    double with these bits, and [strftime_local fmt t] what [strftime]
    stores for the local time of [t]. *)
Class LibcPrint : Type := {
  printf_f : Z -> string;
  strftime_local : string -> Z -> string
}.

(** What the conversion %d prints. *)
Definition printf_d (n : Z) : string :=
  DecimalString.NilZero.string_of_int (Z.to_int n).

(** What the conversion %-*s prints for a text: the text, then spaces up
    to the width. *)
Definition pad_right (width : nat) (s : string) : string :=
  s ++ replicate_char (width - String.length s) " ".

Definition quote : string := String "034"%char "".

(** The first column of a line of the usage: the short name, if the
    flag has one. *)
Definition short_part (sn : ascii) : string :=
  if negb (Ascii.eqb sn NUL) then "  -" ++ String sn ", " else "      ".

Section Usage.

Context `{Libc} `{LibcPrint}.

(** [deref] gives the text that a [char*] points to. *)
Variable deref : CharPtr -> option string.

(** The [switch (flag->type)] of [flagSetPrintUsage]; [None] when a
    NULL default is read, or the member of the union that is read is
    not the one that was stored. *)
Definition default_text (f : Flag) : option string :=
  match type f, default_value f with
  | FLAG_TYPE_BOOL, _ => Some ""
  | FLAG_TYPE_STRING, as_string p =>
      s ← deref p;
      Some (if (strlen s =? 0)%nat then ""
            else " (default: " ++ c_str s ++ ")")
  | FLAG_TYPE_INT, as_int n => Some (" (default: " ++ printf_d n ++ ")")
  | FLAG_TYPE_FLOAT, as_float b =>
      Some (" (default: " ++ printf_f (float_to_double b) ++ ")")
  | FLAG_TYPE_DOUBLE, as_double b => Some (" (default: " ++ printf_f b ++ ")")
  | FLAG_TYPE_TIME, as_time_t t =>
      Some (if t =? 0 then ""
            else " (default: " ++ strftime_local FLAGS_TIME_FMT t ++ ")")
  | _, _ => None
  end.

(** The width of the column of the names: the greatest length of a
    name, the one of the configuration flag included, and 5 more. *)
Definition max_flag_len (fs : FlagSet) : nat :=
  (fold_left
     (fun m flag => if (m <? strlen (name flag))%nat then strlen (name flag)
                    else m)
     (flags fs)
     (match config_flag_name fs with
      | Some cname => strlen cname
      | None => 0
      end) + 5)%nat.

Definition flag_line (width : nat) (flag : Flag) : option string :=
  d ← default_text flag;
  Some (short_part (short_name flag) ++ "--"
        ++ pad_right width (c_str (name flag)) ++ " "
        ++ c_str (description flag) ++ d ++ nl).

Fixpoint flag_lines (width : nat) (l : list Flag) : option string :=
  match l with
  | [] => Some ""
  | flag :: l' =>
      a ← flag_line width flag; b ← flag_lines width l'; Some (a ++ b)
  end.

(** What [flagSetPrintUsage] prints, or [None] when it reads a NULL. *)
Definition flagSetPrintUsage (fs : FlagSet) : option string :=
  let width := max_flag_len fs in
  body ← flag_lines width (flags fs);
  Some ("FLAGS" ++ nl
        ++ match config_flag_name fs with
           | Some cname =>
               short_part (config_flag_short_name fs) ++ "--"
               ++ pad_right width (c_str cname) ++ " "
               ++ c_str (config_flag_desc fs) ++ nl
           | None => ""
           end
        ++ body
        ++ "  -h, --" ++ pad_right width "help" ++ " Show this help message"
        ++ nl ++ nl).

(** What [flagSetPrintError] prints and the status that it exits with,
    if it exits; [None] when the recorded name fills its buffer, so that
    it has no terminator, or when the usage reads a NULL. *)
Definition flagSetPrintError (fs : FlagSet) : option (string * option Z) :=
  let report (what : string) : option (string * option Z) :=
    if (String.length (error_flag_name fs) <? FLAGS_FLAG_MAX_LEN)%nat then
      usage ← flagSetPrintUsage fs;
      Some ("ERROR: " ++ what ++ " " ++ quote ++ error_flag_name fs ++ quote
            ++ nl ++ nl ++ usage, Some 1)
    else None in
  match error_code fs with
  | FLAG_ERROR_CODE_UNKNOWN => report "unknown flag"
  | FLAG_ERROR_CODE_MISSING_VALUE => report "missing value for flag"
  | FLAG_ERROR_CODE_INVALID_VALUE => report "invalid value for flag"
  | FLAG_ERROR_CODE_HELP => usage ← flagSetPrintUsage fs; Some (usage, Some 0)
  | _ => Some ("", None)
  end.

End Usage.

(** A reference for the two formatting functions: %f with six decimals,
    rounded to nearest with ties to even, and [strftime] for the
    conversions %Y %m %d %H %M %S in a time zone without offset. *)
Module RefPrint.

Fixpoint digits_of (n : nat) (v : Z) : string :=
  match n with
  | O => ""
  | S n' =>
      digits_of n' (v / 10)
      ++ String (ascii_of_N (Z.to_N (48 + v mod 10))) ""
  end.

Definition printf_f (bits : Z) : string :=
  let sign := if Z.testbit bits 63 then "-" else "" in
  if RefLibc.is_special 53 11 bits then
    sign ++ (if bits mod 2 ^ 52 =? 0 then "inf" else "nan")
  else
    let '(_, num, den) := RefLibc.ieee_value 53 11 bits in
    let n := num * 10 ^ 6 in
    let q := n / den in
    let r := n mod den in
    let q :=
      if (den <? 2 * r) || ((den =? 2 * r) && Z.odd q) then q + 1 else q in
    sign ++ printf_d (q / 10 ^ 6) ++ "." ++ digits_of 6 (q mod 10 ^ 6).

(** The year, month (from 1) and day of a count of days from
    1970-01-01. *)
Definition civil_of_days (z : Z) : Z * Z * Z :=
  let z := z + 719468 in
  let era := z / 146097 in
  let doe := z - era * 146097 in
  let yoe := (doe - doe / 1460 + doe / 36524 - doe / 146096) / 365 in
  let doy := doe - (365 * yoe + yoe / 4 - yoe / 100) in
  let mp := (5 * doy + 2) / 153 in
  let d := doy - (153 * mp + 2) / 5 + 1 in
  let m := if mp <? 10 then mp + 3 else mp - 9 in
  (yoe + era * 400 + (if m <=? 2 then 1 else 0), m, d).

Fixpoint strftime_go (fmt : string) (t : Z) : string :=
  match fmt with
  | EmptyString => ""
  | String c fmt1 =>
      if Ascii.eqb c "%" then
        match fmt1 with
        | EmptyString => ""
        | String d fmt2 =>
            let '(y, m, dd) := civil_of_days (t / 86400) in
            let s := t mod 86400 in
            (if Ascii.eqb d "Y" then printf_d y
             else if Ascii.eqb d "m" then digits_of 2 m
             else if Ascii.eqb d "d" then digits_of 2 dd
             else if Ascii.eqb d "H" then digits_of 2 (s / 3600)
             else if Ascii.eqb d "M" then digits_of 2 (s / 60 mod 60)
             else if Ascii.eqb d "S" then digits_of 2 (s mod 60)
             else String d "")
            ++ strftime_go fmt2 t
        end
      else String c (strftime_go fmt1 t)
  end.

End RefPrint.

#[export] Instance ref_print : LibcPrint :=
  {| printf_f := RefPrint.printf_f;
     strftime_local := RefPrint.strftime_go |}.

(** ** Well-formed traces *)

Definition was_allocated (p : nat) (evs : list Event) : bool :=
  existsb (fun e => match e with EvAlloc q => (p =? q)%nat | _ => false end)
    evs.

Definition was_opened (h : nat) (evs : list Event) : bool :=
  existsb (fun e => match e with EvOpen _ k => (h =? k)%nat | _ => false end)
    evs.

(** What may come next in a trace: a new stream or parser takes the
    next id; a stream is closed, or a parser released, only if it was
    opened, or allocated, before and was not closed, or released,
    since. *)
Definition event_ok (before : list Event) (e : Event) : bool :=
  match e with
  | EvOpen _ h => (h =? List.length before)%nat
  | EvAlloc p => (p =? List.length before)%nat
  | EvClose h => was_opened h before && (closes h before =? 0)%nat
  | EvFree p => was_allocated p before && (frees p before =? 0)%nat
  end.

Fixpoint trace_ok_from (before evs : list Event) : bool :=
  match evs with
  | [] => true
  | e :: evs' => event_ok before e && trace_ok_from (before ++ [e]) evs'
  end.

(** A trace without a double release or close, and without a release
    or close of what was never allocated or opened. *)
Definition trace_ok (evs : list Event) : bool := trace_ok_from [] evs.

(** A parser that was allocated and not released, and a stream that
    was opened and not closed. *)
Definition live_parser (evs : list Event) (p : nat) : Prop :=
  was_allocated p evs = true /\ frees p evs = 0%nat.

Definition live_stream (evs : list Event) (h : nat) : Prop :=
  was_opened h evs = true /\ closes h evs = 0%nat.

(** From [w] to [w'] the trace grows, stays well formed, and releases
    no parser and closes no stream that [w] knows, the parser [xp] and
    the stream [xh] apart. *)
Definition grows (xp xh : option nat) (w w' : World) : Prop :=
  exists evs,
    events w' = (events w ++ evs)%list
    /\ trace_ok (events w') = true
    /\ (forall p, (p < fresh w)%nat -> xp <> Some p -> frees p evs = 0%nat)
    /\ (forall h, (h < fresh w)%nat -> xh <> Some h -> closes h evs = 0%nat).


(** * Properties *)

(** ** C strings *)

Lemma eqb_NUL_false (c : ascii) : c <> NUL -> Ascii.eqb c NUL = false.
Proof. intros Hc. now apply Ascii.eqb_neq. Qed.

Lemma no_nul_cons (c : ascii) (s : string) :
  no_nul (String c s) = true <-> c <> NUL /\ no_nul s = true.
Proof.
  simpl. rewrite andb_true_iff, negb_true_iff, Ascii.eqb_neq. reflexivity.
Qed.

Lemma strlen_no_nul (s : string) :
  no_nul s = true -> strlen s = String.length s.
Proof.
  induction s as [|c s IH]; [reflexivity|].
  intros [Hc Hs]%no_nul_cons. simpl.
  rewrite (eqb_NUL_false c Hc), (IH Hs). reflexivity.
Qed.

Lemma c_str_no_nul (s : string) : no_nul s = true -> c_str s = s.
Proof.
  intros Hs. unfold c_str. rewrite (strlen_no_nul s Hs). clear Hs.
  induction s as [|c s IH]; simpl; [reflexivity|]. now rewrite IH.
Qed.

Lemma no_nul_app (s t : string) :
  no_nul (s ++ t) = no_nul s && no_nul t.
Proof.
  induction s as [|c s IH]; simpl; [reflexivity|].
  now rewrite IH, andb_assoc.
Qed.

(** Comparing [n] characters, [n] being the length of the
    second string, tests whether the second is a prefix of the first. *)
Lemma strncmp_prefix (t nm : string) :
  no_nul t = true ->
  (strncmp nm t (String.length t) =? 0) = String.prefix t nm.
Proof.
  revert nm. induction t as [|c t IH]; intros nm Ht.
  - destruct nm; reflexivity.
  - apply no_nul_cons in Ht as [Hc Ht]. cbn [String.length strncmp].
    destruct nm as [|d nm]; cbn [str_head str_tail String.prefix].
    + assert (Hne : Ascii.eqb NUL c = false).
      { apply Ascii.eqb_neq. congruence. }
      rewrite Hne. cbn [negb]. apply Z.eqb_neq.
      unfold code. intros Heq.
      apply Hc. symmetry.
      assert (Hn : N_of_ascii NUL = N_of_ascii c) by lia.
      rewrite <- (ascii_N_embedding NUL), <- (ascii_N_embedding c).
      now rewrite Hn.
    + destruct (ascii_dec c d) as [->|Hcd].
      * rewrite Ascii.eqb_refl. cbn [negb].
        rewrite (eqb_NUL_false d Hc). apply IH, Ht.
      * assert (Hne : Ascii.eqb d c = false).
        { apply Ascii.eqb_neq. congruence. }
        rewrite Hne. cbn [negb]. apply Z.eqb_neq.
        unfold code. intros Heq.
        apply Hcd.
        assert (Hn : N_of_ascii d = N_of_ascii c) by lia.
        rewrite <- (ascii_N_embedding d), <- (ascii_N_embedding c).
        now rewrite Hn.
Qed.

(** ** The linear search of the registry *)

Lemma first_flag_Some (p : Flag -> bool) (l : list Flag) (f : Flag) :
  first_flag p l = Some f <->
  exists l1 l2, l = (l1 ++ f :: l2)%list /\ p f = true
                /\ Forall (fun g => p g = false) l1.
Proof.
  induction l as [|g l IH]; simpl.
  - split; [discriminate|]. intros (l1 & l2 & Hl & _). now destruct l1.
  - destruct (p g) eqn:Hg.
    + split.
      * intros [= ->]. exists [], l. auto.
      * intros (l1 & l2 & Hl & Hf & Hall). destruct l1 as [|g' l1].
        -- now injection Hl as ->.
        -- injection Hl as -> _. inversion Hall; congruence.
    + rewrite IH. split.
      * intros (l1 & l2 & -> & Hf & Hall). exists (g :: l1), l2. auto.
      * intros (l1 & l2 & Hl & Hf & Hall). destruct l1 as [|g' l1].
        -- injection Hl as -> _. congruence.
        -- injection Hl as -> ->. inversion Hall. eauto.
Qed.

Lemma first_flag_None (p : Flag -> bool) (l : list Flag) :
  first_flag p l = None <-> Forall (fun g => p g = false) l.
Proof.
  induction l as [|g l IH]; simpl.
  - split; auto.
  - destruct (p g) eqn:Hg.
    + split; [discriminate|]. inversion 1; congruence.
    + rewrite IH. split; [auto|]. now inversion 1.
Qed.

Lemma first_flag_ext (p q : Flag -> bool) (l : list Flag) :
  (forall g, p g = q g) -> first_flag p l = first_flag q l.
Proof.
  intros Hpq. induction l as [|g l IH]; simpl; [reflexivity|].
  now rewrite Hpq, IH.
Qed.

Lemma first_flag_first_match (p : Flag -> bool) (P : Flag -> Prop)
    (l : list Flag) (f : Flag) :
  (forall g, p g = true <-> P g) ->
  first_flag p l = Some f <-> first_match P l f.
Proof.
  intros Hp. rewrite first_flag_Some. unfold first_match.
  assert (Hn : forall g, p g = false <-> ~ P g).
  { intros g. rewrite <- Hp. destruct (p g); split; congruence. }
  split; intros (l1 & l2 & Hl & Hf & Hall); exists l1, l2;
    (split; [exact Hl|split; [now apply Hp|]]);
    eapply Forall_impl; try exact Hall; intros g; apply Hn.
Qed.

Lemma first_flag_no_match (p : Flag -> bool) (P : Flag -> Prop)
    (l : list Flag) :
  (forall g, p g = true <-> P g) ->
  first_flag p l = None <-> Forall (fun g => ~ P g) l.
Proof.
  intros Hp. rewrite first_flag_None.
  assert (Hn : forall g, p g = false <-> ~ P g).
  { intros g. rewrite <- Hp. destruct (p g); split; congruence. }
  split; intros Hall; eapply Forall_impl; try exact Hall; intros g; apply Hn.
Qed.

(** ** Looking flags up *)

Lemma lookupFlag_long (fs : FlagSet) (t : string) :
  no_nul t = true ->
  lookupFlag fs ("--" ++ t)
  = first_flag (fun item => String.prefix t (name item)) (flags fs).
Proof.
  intros Ht. unfold lookupFlag.
  change ("--" ++ t) with (String "-" (String "-" t)).
  cbn [strlen]. change (Ascii.eqb "-" NUL) with false. cbv iota.
  rewrite (strlen_no_nul t Ht).
  cbn [Nat.ltb Nat.leb orb char_at str_drop str_tail str_head Ascii.eqb
       Bool.eqb negb].
  replace (S (S (String.length t)) - 2)%nat with (String.length t) by lia.
  apply first_flag_ext. intros g. now apply strncmp_prefix.
Qed.

Lemma lookupFlag_short (fs : FlagSet) (c : ascii) :
  c <> "-"%char -> c <> NUL ->
  lookupFlag fs (String "-" (String c ""))
  = first_flag (fun item => Ascii.eqb c (short_name item)) (flags fs).
Proof.
  intros Hd Hn. unfold lookupFlag. cbn [strlen].
  change (Ascii.eqb "-" NUL) with false. cbv iota.
  rewrite (eqb_NUL_false c Hn).
  cbn [Nat.ltb Nat.leb orb char_at str_drop str_tail str_head negb].
  change (Ascii.eqb "-" "-") with true. cbn [negb].
  apply Ascii.eqb_neq in Hd. rewrite Hd. reflexivity.
Qed.

Lemma lookupConfigFlag_prefix (fs : FlagSet) (key : string) :
  no_nul key = true -> key <> "" ->
  lookupConfigFlag fs key
  = first_flag (fun item => String.prefix key (name item)) (flags fs).
Proof.
  intros Hk Hne. unfold lookupConfigFlag.
  rewrite (strlen_no_nul key Hk).
  destruct key as [|c key]; [congruence|]. cbn [String.length Nat.ltb Nat.leb].
  apply first_flag_ext. intros g.
  exact (strncmp_prefix (String c key) (name g) Hk).
Qed.

Section Lookup.

Context `{Libc}.

(** C9: a two-dash token is matched to the first flag, in declaration
    order, whose name begins with the text after the dashes, compared
    over the length of that text; a token [-X] is matched to the first
    flag whose short name is [X]. With [verbose] registered, [--verb]
    finds it and parsing [--verb] sets it without an error, and both
    still hold when [verb] is registered after it. *)
Theorem lookupFlag_first_prefix_match (fs : FlagSet) (t : string) (c : ascii) :
  no_nul t = true -> c <> "-"%char -> c <> NUL ->
  (forall f, lookupFlag fs ("--" ++ t) = Some f
             <-> first_match (fun g => String.prefix t (name g) = true)
                   (flags fs) f)
  /\ (lookupFlag fs ("--" ++ t) = None
      <-> Forall (fun g => String.prefix t (name g) <> true) (flags fs))
  /\ (forall f, lookupFlag fs (String "-" (String c "")) = Some f
                <-> first_match (fun g => short_name g = c) (flags fs) f)
  /\ run reg_verbose (fun fs _ => lookupFlag fs "--verb")
     = Some (Some flag_verbose)
  /\ run reg_verbose_verb (fun fs _ => lookupFlag fs "--verb")
     = Some (Some flag_verbose)
  /\ run reg_verbose (fun fs w => flagSetParse 0 fs w ["prog"; "--verb"])
     = run reg_verbose (fun fs w => (Ret true, fs, store w 0 (CBool true)))
  /\ run reg_verbose_verb (fun fs w => flagSetParse 0 fs w ["prog"; "--verb"])
     = run reg_verbose_verb
         (fun fs w => (Ret true, fs, store w 0 (CBool true))).
Proof.
  intros Ht Hd Hn.
  split; [|split; [|split; [|split; [|split; [|split]]]]];
    try reflexivity.
  - intros f. rewrite (lookupFlag_long fs t Ht).
    apply first_flag_first_match. reflexivity.
  - rewrite (lookupFlag_long fs t Ht).
    apply (first_flag_no_match _ (fun g => String.prefix t (name g) = true)).
    reflexivity.
  - intros f. rewrite (lookupFlag_short fs c Hd Hn).
    apply first_flag_first_match. intros g.
    rewrite Ascii.eqb_eq. split; congruence.
Qed.

End Lookup.

Lemma lookupFlag_first_prefix_match_witness :
  no_nul "verb" = true /\ "v"%char <> "-"%char /\ "v"%char <> NUL
  /\ (forall f, lookupFlag (mkFlagSet FLAG_ERROR_CODE_NONE None "" NUL false ""
                              [flag_verbose]) "--verb" = Some f
                <-> first_match (fun g => String.prefix "verb" (name g) = true)
                      [flag_verbose] f).
Proof.
  split; [reflexivity|]. split; [discriminate|]. split; [discriminate|].
  apply (lookupFlag_first_prefix_match
           (mkFlagSet FLAG_ERROR_CODE_NONE None "" NUL false "" [flag_verbose])
           "verb" "v"%char); [reflexivity|discriminate|discriminate].
Defined.

Lemma code_inj (a b : ascii) : code a = code b -> a = b.
Proof.
  unfold code. intros Hab.
  assert (Hn : N_of_ascii a = N_of_ascii b) by lia.
  rewrite <- (ascii_N_embedding a), <- (ascii_N_embedding b).
  now rewrite Hn.
Qed.

Lemma strncmp_zero_sym (a b : string) (n : nat) :
  (strncmp a b n =? 0) = (strncmp b a n =? 0).
Proof.
  revert a b. induction n as [|n IH]; intros a b; [reflexivity|].
  cbn [strncmp]. rewrite (Ascii.eqb_sym (str_head b) (str_head a)).
  destruct (Ascii.eqb (str_head a) (str_head b)) eqn:Hab; cbn [negb].
  - apply Ascii.eqb_eq in Hab. rewrite Hab.
    destruct (Ascii.eqb (str_head b) NUL); [reflexivity|apply IH].
  - apply Ascii.eqb_neq in Hab.
    assert (H1 : code (str_head a) - code (str_head b) <> 0).
    { intros Hz. apply Hab, code_inj. lia. }
    assert (H2 : code (str_head b) - code (str_head a) <> 0) by lia.
    apply Z.eqb_neq in H1, H2. now rewrite H1, H2.
Qed.

(** Comparing a text of [n] characters with another over [n] characters
    tests whether it is a prefix of the other. *)
Lemma strncmp_value_prefix (v lit : string) :
  no_nul v = true ->
  (strncmp v lit (String.length v) =? 0) = String.prefix v lit.
Proof.
  intros Hv. rewrite strncmp_zero_sym. now apply strncmp_prefix.
Qed.

(** C5 as stated fails: the key [verb] is a proper prefix of the
    registered name [verbose], equals no registered name, and the
    lookup by key finds the flag [verbose]. *)
Lemma lookupConfigFlag_proper_prefix_found :
  String.prefix "verb" "verbose" = true /\ "verb" <> "verbose"
  /\ run reg_verbose (fun fs _ => map name (flags fs)) = Some ["verbose"]
  /\ run reg_verbose (fun fs _ => lookupConfigFlag fs "verb")
     = Some (Some flag_verbose).
Proof. repeat split; discriminate. Qed.

(** C5, amended: the lookup by key matches a non-empty key to the first
    flag, in declaration order, whose name begins with the key, compared
    over the length of the key; it finds nothing exactly when no
    registered name begins with the key, and for the empty key. *)
Theorem lookupConfigFlag_first_prefix_match (fs : FlagSet) (key : string) :
  no_nul key = true ->
  (key = "" -> lookupConfigFlag fs key = None)
  /\ (key <> "" ->
      (forall f, lookupConfigFlag fs key = Some f
                 <-> first_match (fun g => String.prefix key (name g) = true)
                       (flags fs) f)
      /\ (lookupConfigFlag fs key = None
          <-> Forall (fun g => String.prefix key (name g) <> true) (flags fs))).
Proof.
  intros Hk. split.
  - intros ->. reflexivity.
  - intros Hne. rewrite (lookupConfigFlag_prefix fs key Hk Hne). split.
    + intros f. apply first_flag_first_match. reflexivity.
    + apply (first_flag_no_match _
               (fun g => String.prefix key (name g) = true)).
      reflexivity.
Qed.

Lemma lookupConfigFlag_first_prefix_match_witness :
  no_nul "verb" = true /\ "verb" <> ""
  /\ (forall f, lookupConfigFlag
                  (mkFlagSet FLAG_ERROR_CODE_NONE None "" NUL false ""
                     [flag_verbose]) "verb" = Some f
                <-> first_match (fun g => String.prefix "verb" (name g) = true)
                      [flag_verbose] f).
Proof.
  split; [reflexivity|]. split; [discriminate|].
  apply (lookupConfigFlag_first_prefix_match
           (mkFlagSet FLAG_ERROR_CODE_NONE None "" NUL false "" [flag_verbose])
           "verb"); [reflexivity|discriminate].
Defined.

(** ** The token of two dashes *)

Section Dashes.

Context `{Libc}.

Lemma lookupFlag_dashes (fs : FlagSet) (f : Flag) (rest : list Flag) :
  flags fs = f :: rest -> lookupFlag fs "--" = Some f.
Proof. intros Hf. unfold lookupFlag. cbn. now rewrite Hf. Qed.

Lemma isConfigFlag_no_config (fs : FlagSet) (flag : string) :
  config_flag_name fs = None -> isConfigFlag fs flag = false.
Proof. intros Hc. unfold isConfigFlag. now rewrite Hc. Qed.

Lemma isConfigFlag_dashes (fs : FlagSet) (cname : string) :
  config_flag_name fs = Some cname -> isConfigFlag fs "--" = true.
Proof. intros Hc. unfold isConfigFlag. now rewrite Hc. Qed.

(** C10, amended: in a registry that is not empty and has no
    configuration flag, the token of two dashes is taken for the first
    registered flag: a Bool flag is set to true and the parse goes on
    with the next token; a flag of another type takes the next token as
    its value, which is stored as the type of the flag has it or is an
    invalid value of that flag, and the parse goes on with the token
    after it; without a next token the value of that flag is missing.
    In a registry with a configuration flag the token is taken for that
    flag: the next token is merged as a file, and without one the file
    name is missing. *)
Theorem dashes_match_first_flag (fuel : nat) (fs : FlagSet) (w : World)
    (f : Flag) (rest : list Flag) (prog : string) (args : list string)
    (i : nat) :
  flags fs = f :: rest ->
  lookupFlag fs "--" = Some f
  /\ (config_flag_name fs = None ->
      (type f = FLAG_TYPE_BOOL ->
       flagSetParse_loop fuel fs w ("--" :: args) i
       = flagSetParse_loop fuel fs (store w (ptr f) (CBool true)) args (i + 1)
       /\ flagSetParse fuel fs w [prog; "--"]
          = (Ret true, fs, store w (ptr f) (CBool true)))
      /\ (type f <> FLAG_TYPE_BOOL ->
          flagSetParse fuel fs w [prog; "--"]
          = (Ret false,
             setError fs FLAG_ERROR_CODE_MISSING_VALUE (name f), w)
          /\ flagSetParse_loop fuel fs w ["--"] i
             = (Ret false,
                setError fs FLAG_ERROR_CODE_MISSING_VALUE (name f), w)
          /\ (forall value,
                flagSetParse_loop fuel fs w ("--" :: value :: args) i
                = match coerceArg w f value (i + 1) with
                  | None =>
                      (Ret false,
                       setError fs FLAG_ERROR_CODE_INVALID_VALUE (name f), w)
                  | Some w1 => flagSetParse_loop fuel fs w1 args (i + 2)
                  end)
          /\ (type f = FLAG_TYPE_STRING ->
              forall value,
                flagSetParse_loop fuel fs w ("--" :: value :: args) i
                = flagSetParse_loop fuel fs
                    (store w (ptr f) (CString (ArgvPtr (i + 1)))) args
                    (i + 2))))
  /\ (forall cname,
        config_flag_name fs = Some cname ->
        isConfigFlag fs "--" = true
        /\ flagSetParse fuel fs w [prog; "--"]
           = (Ret false, setError fs FLAG_ERROR_CODE_MISSING_VALUE "--", w)
        /\ forall filename,
             flagSetParse_loop fuel fs w ("--" :: filename :: args) i
             = match parseIniConfig fuel fs w filename with
               | (Ret true, fs1, w1) =>
                   flagSetParse_loop fuel fs1 w1 args (i + 2)
               | r => r
               end).
Proof.
  intros Hf.
  pose proof (lookupFlag_dashes fs f rest Hf) as Hl.
  split; [exact Hl|]. split.
  - intros Hc. split.
    + intros Hb. split.
      * cbn [flagSetParse_loop].
        rewrite (isConfigFlag_no_config fs "--" Hc), Hl, Hb. reflexivity.
      * cbn [flagSetParse flagSetParse_loop].
        rewrite (isConfigFlag_no_config fs "--" Hc), Hl, Hb. reflexivity.
    + intros Hb.
      assert (Hval : forall value,
                 flagSetParse_loop fuel fs w ("--" :: value :: args) i
                 = match coerceArg w f value (i + 1) with
                   | None =>
                       (Ret false,
                        setError fs FLAG_ERROR_CODE_INVALID_VALUE (name f), w)
                   | Some w1 => flagSetParse_loop fuel fs w1 args (i + 2)
                   end).
      { intros value. cbn [flagSetParse_loop].
        rewrite (isConfigFlag_no_config fs "--" Hc), Hl.
        destruct (type f); congruence. }
      split; [|split; [|split; [exact Hval|]]].
      * cbn [flagSetParse flagSetParse_loop].
        rewrite (isConfigFlag_no_config fs "--" Hc), Hl.
        destruct (type f); congruence.
      * cbn [flagSetParse_loop].
        rewrite (isConfigFlag_no_config fs "--" Hc), Hl.
        destruct (type f); congruence.
      * intros Hs value. rewrite Hval. unfold coerceArg. now rewrite Hs.
  - intros cname Hc.
    pose proof (isConfigFlag_dashes fs cname Hc) as Hd.
    split; [exact Hd|]. split.
    + cbn [flagSetParse flagSetParse_loop]. now rewrite Hd.
    + intros filename. cbn [flagSetParse_loop]. now rewrite Hd.
Qed.

End Dashes.

Lemma dashes_match_first_flag_witness :
  flags (mkFlagSet FLAG_ERROR_CODE_NONE None "" NUL false "" [flag_verbose])
  = [flag_verbose]
  /\ flagSetParse 0 (mkFlagSet FLAG_ERROR_CODE_NONE None "" NUL false ""
                       [flag_verbose]) world0 ["prog"; "--"]
     = (Ret true,
        mkFlagSet FLAG_ERROR_CODE_NONE None "" NUL false "" [flag_verbose],
        store world0 0 (CBool true))
  /\ flags (mkFlagSet FLAG_ERROR_CODE_NONE None "" NUL false ""
              [flag_count; flag_verbose])
     = [flag_count; flag_verbose]
  /\ flagSetParse_loop 0
       (mkFlagSet FLAG_ERROR_CODE_NONE None "" NUL false ""
          [flag_count; flag_verbose]) world0 ["--"; "42"; "--verbose"] 1
     = (Ret true,
        mkFlagSet FLAG_ERROR_CODE_NONE None "" NUL false ""
          [flag_count; flag_verbose],
        store (store world0 2 (CInt 42)) 0 (CBool true)).
Proof.
  split; [reflexivity|]. split.
  { refine (proj2 (proj1 (proj1 (proj2 (dashes_match_first_flag 0
              (mkFlagSet FLAG_ERROR_CODE_NONE None "" NUL false ""
                 [flag_verbose])
              world0 flag_verbose [] "prog" [] 0 _)) _) _));
      reflexivity. }
  split; [reflexivity|].
  assert (Hf : flags (mkFlagSet FLAG_ERROR_CODE_NONE None "" NUL false ""
                        [flag_count; flag_verbose])
               = [flag_count; flag_verbose]) by reflexivity.
  assert (Hc : config_flag_name
                 (mkFlagSet FLAG_ERROR_CODE_NONE None "" NUL false ""
                    [flag_count; flag_verbose]) = None) by reflexivity.
  assert (Hb : type flag_count <> FLAG_TYPE_BOOL) by discriminate.
  destruct (proj2 (proj1 (proj2 (dashes_match_first_flag 0 _ world0
                                   flag_count [flag_verbose] "prog"
                                   ["--verbose"] 1 Hf)) Hc) Hb)
    as (_ & _ & Hval & _).
  rewrite (Hval "42"). vm_compute. reflexivity.
Defined.

(** C10 as stated fails: in a registry that holds the flag [verbose]
    and a configuration flag, the token of two dashes is taken for the
    configuration flag; its file name is missing, and [verbose] keeps
    its default. *)
Lemma dashes_taken_for_config_flag :
  run reg_verbose_config (fun fs _ => flags fs) = Some [flag_verbose]
  /\ run reg_verbose_config
       (fun fs w =>
          let '(o, fs', w') := flagSetParse 1 fs w ["prog"; "--"] in
          (o, error_code fs', error_flag_name fs', mem w' !! 0%nat))
     = Some (Ret false, FLAG_ERROR_CODE_MISSING_VALUE, "--",
             Some (CBool false)).
Proof. split; vm_compute; reflexivity. Qed.

(** ** The line scanner keeps its text free of NUL and in bounds *)

Lemma strlen_le_length (s : string) : (strlen s <= String.length s)%nat.
Proof.
  induction s as [|c s IH]; simpl; [lia|].
  destruct (Ascii.eqb c NUL); lia.
Qed.

Lemma length_str_take (n : nat) (s : string) :
  (n <= String.length s)%nat -> String.length (str_take n s) = n.
Proof.
  revert s. induction n as [|n IH]; intros [|c s] Hn; simpl in *;
    try reflexivity; try lia.
  rewrite IH; lia.
Qed.

Lemma no_nul_str_take_strlen (n : nat) (s : string) :
  (n <= strlen s)%nat -> no_nul (str_take n s) = true.
Proof.
  revert s. induction n as [|n IH]; intros [|c s] Hn; simpl in *;
    try reflexivity.
  destruct (Ascii.eqb c NUL); [lia|]. simpl. apply IH. lia.
Qed.

Lemma no_nul_str_take (n : nat) (s : string) :
  no_nul s = true -> no_nul (str_take n s) = true.
Proof.
  revert s. induction n as [|n IH]; intros [|c s] Hs; simpl;
    try reflexivity.
  apply no_nul_cons in Hs as [Hc Hs].
  rewrite (eqb_NUL_false c Hc). simpl. now apply IH.
Qed.

Lemma no_nul_str_tail (s : string) :
  no_nul s = true -> no_nul (str_tail s) = true.
Proof.
  destruct s as [|c s]; [reflexivity|]. now intros [_ Hs]%no_nul_cons.
Qed.

Lemma no_nul_str_drop (n : nat) (s : string) :
  no_nul s = true -> no_nul (str_drop n s) = true.
Proof.
  revert s. induction n as [|n IH]; intros s Hs; simpl; [exact Hs|].
  apply IH. now apply no_nul_str_tail.
Qed.

Lemma length_str_tail (s : string) :
  String.length (str_tail s) = (String.length s - 1)%nat.
Proof. destruct s; simpl; lia. Qed.

Lemma length_str_drop (n : nat) (s : string) :
  String.length (str_drop n s) = (String.length s - n)%nat.
Proof.
  revert s. induction n as [|n IH]; intros s; simpl; [lia|].
  rewrite IH, length_str_tail. lia.
Qed.

Lemma length_app (s t : string) :
  String.length (s ++ t) = (String.length s + String.length t)%nat.
Proof. induction s as [|c s IH]; simpl; [reflexivity|]. now rewrite IH. Qed.

Lemma strncpy_no_nul (src : string) (n : nat) :
  no_nul src = true -> strncpy src n = str_take n src.
Proof. intros Hs. unfold strncpy. now rewrite c_str_no_nul. Qed.

Lemma char_at_strlen (s : string) : char_at s (strlen s) = NUL.
Proof.
  induction s as [|c s IH]; [reflexivity|]. simpl.
  destruct (Ascii.eqb c NUL) eqn:Hc.
  - now apply Ascii.eqb_eq in Hc.
  - exact IH.
Qed.

Lemma stringLength_loop_le (s : string) (n i : nat) :
  (i <= strlen s)%nat -> (stringLength_loop s n i <= strlen s)%nat.
Proof.
  revert i. induction n as [|n IH]; intros i Hi; simpl; [exact Hi|].
  destruct (Ascii.eqb (char_at s i) NUL) eqn:Hc; [exact Hi|].
  apply IH. destruct (Nat.eq_dec i (strlen s)) as [->|Hne]; [|lia].
  rewrite char_at_strlen in Hc. discriminate.
Qed.

Lemma stringLength_le (s : string) (maxlen : nat) :
  (stringLength s maxlen <= strlen s)%nat.
Proof. apply stringLength_loop_le. lia. Qed.

Lemma trimRight_le (src : string) (len : nat) : (trimRight src len <= len)%nat.
Proof.
  induction len as [|len IH]; simpl; [lia|].
  destruct (isspace (char_at src len)); simpl; lia.
Qed.

Lemma trimLeft_loop_le (src : string) (n i : nat) :
  (trimLeft_loop src n i <= i + n)%nat.
Proof.
  revert i. induction n as [|n IH]; intros i; simpl; [lia|].
  destruct (isspace (char_at src i)); simpl; [|lia].
  specialize (IH (S i)). lia.
Qed.

Lemma trimLeft_le (src : string) (len : nat) : (trimLeft src len <= len)%nat.
Proof. apply (trimLeft_loop_le src len 0). Qed.

Lemma lookupChar_loop_range (buf : string) (n : nat) (c : ascii) (i : nat) :
  lookupChar_loop buf n c i = -1
  \/ Z.of_nat i <= lookupChar_loop buf n c i < Z.of_nat (i + n).
Proof.
  revert i. induction n as [|n IH]; intros i; simpl; [now left|].
  destruct (Ascii.eqb c (char_at buf i)); [right; lia|].
  destruct (IH (S i)) as [->|Hr]; [now left|right; lia].
Qed.

Lemma lookupChar_range (buf : string) (len : nat) (c : ascii) :
  lookupChar buf len c = -1
  \/ 0 <= lookupChar buf len c < Z.of_nat len.
Proof. apply (lookupChar_loop_range buf len c 0). Qed.

Lemma iniParserConsume_ok (p : IniParser) (got : option string) :
  parser_ok (snd (iniParserConsume p got)).
Proof.
  destruct got as [chunk|]; simpl; [|split; simpl; [reflexivity|lia]].
  pose proof (stringLength_le chunk INI_MAX_LINE_SIZE) as Hl.
  pose proof (trimRight_le chunk (stringLength chunk INI_MAX_LINE_SIZE)) as Ht.
  pose proof (strlen_le_length chunk) as Hs.
  split; simpl.
  - apply no_nul_str_take_strlen. lia.
  - rewrite length_str_take; lia.
Qed.

Lemma iniParserLine_ok (p : IniParser) :
  parser_ok p ->
  let '(ln, len, p') := iniParserLine p in
  parser_ok p' /\ len = line_len p' /\ self p' = self p /\ file p' = file p
  /\ file_owned p' = file_owned p
  /\ no_nul (default "" ln) = true
  /\ (len <= String.length (default "" ln))%nat
  /\ (len <> 0%nat -> ln = Some (str_drop (cursor p') (line p'))).
Proof.
  intros [Hn Hb]. unfold iniParserLine.
  destruct (line_len p =? 0)%nat eqn:H0.
  - apply Nat.eqb_eq in H0. rewrite H0. simpl.
    repeat split; auto; lia.
  - pose proof (trimLeft_le (str_drop (cursor p) (line p)) (line_len p)) as Ht.
    set (b := trimLeft (str_drop (cursor p) (line p)) (line_len p)) in *.
    cbn [line_len cursor line self file file_owned].
    destruct (line_len p - b =? 0)%nat eqn:H1.
    + apply Nat.eqb_eq in H1. rewrite H1.
      repeat split; simpl; auto; lia.
    + apply Nat.eqb_neq in H1.
      repeat split; simpl; auto; try lia.
      * now apply no_nul_str_drop.
      * rewrite length_str_drop. lia.
Qed.

Lemma advance_ok (p : IniParser) (n : nat) :
  parser_ok p -> (n <= line_len p)%nat -> parser_ok (advance p n).
Proof. intros [Hn Hb] Hle. split; simpl; [exact Hn|lia]. Qed.

Lemma iniParseKey_loop_ok (stream : list string) :
  forall (p : IniParser) (dst : string) (maxlen n : Z) (key : string)
         (p' : IniParser) (rest : list string),
  iniParseKey_loop stream p dst maxlen = (n, key, p', rest) ->
  parser_ok p' /\ self p' = self p /\ file p' = file p
  /\ file_owned p' = file_owned p
  /\ (0 < n -> n = Z.of_nat (String.length key) /\ no_nul key = true
               /\ n <= maxlen).
Proof.
  induction stream as [|chunk stream IH]; intros p dst maxlen n key p' rest.
  - simpl. intros [= <- <- <- <-].
    split; [apply (iniParserConsume_ok p None)|].
    unfold INI_ERROR_CODE_NONE.
    do 3 (split; [reflexivity|]). lia.
  - cbn [iniParseKey_loop].
    pose proof (iniParserConsume_ok p (Some chunk)) as Hok1.
    assert (Hid : self (snd (iniParserConsume p (Some chunk))) = self p
                  /\ file (snd (iniParserConsume p (Some chunk))) = file p
                  /\ file_owned (snd (iniParserConsume p (Some chunk)))
                     = file_owned p) by (simpl; auto).
    destruct Hid as (Hs1 & Hf1 & Ho1).
    set (p1 := snd (iniParserConsume p (Some chunk))) in *.
    pose proof (iniParserLine_ok p1 Hok1) as Hline.
    destruct (iniParserLine p1) as [[ln length] p2].
    destruct Hline as (Hok2 & Hlen & Hs2 & Hf2 & Ho2 & Hnn & Hle & _).
    destruct ((length =? 0)%nat || Ascii.eqb (char_at (default "" ln) 0) ";"
              || Ascii.eqb (char_at (default "" ln) 0) "#") eqn:Hskip.
    + intros Hrec. apply IH in Hrec.
      destruct Hrec as (Hok' & Hs' & Hf' & Ho' & Hpos).
      split; [exact Hok'|]. do 3 (split; [congruence|]). exact Hpos.
    + set (sep := lookupChar (default "" ln) length "=").
      destruct (sep <? 2) eqn:Hsep.
      * intros [= <- <- <- <-]. split; [exact Hok2|].
        do 3 (split; [congruence|]).
        unfold INI_ERROR_INVALID_SYNTAX. lia.
      * apply Z.ltb_ge in Hsep.
        destruct (lookupChar_range (default "" ln) length "=") as [Hm|Hr];
          fold sep in Hm || fold sep in Hr; [lia|].
        assert (Hadv : parser_ok (advance p2 (Z.to_nat sep + 1))).
        { apply advance_ok; [exact Hok2|]. lia. }
        pose proof (trimRight_le (default "" ln) (Z.to_nat sep)) as Htr.
        destruct (Z.of_nat (trimRight (default "" ln) (Z.to_nat sep))
                  >? maxlen) eqn:Hov.
        -- intros [= <- <- <- <-]. split; [exact Hadv|].
           do 3 (split; [simpl; congruence|]).
           unfold INI_ERROR_CODE_OVERFLOW. lia.
        -- intros [= <- <- <- <-].
           rewrite (strncpy_no_nul _ _ Hnn).
           split; [exact Hadv|].
           do 3 (split; [simpl; congruence|]).
           rewrite length_str_take by lia.
           intros _. split; [reflexivity|].
           split; [now apply no_nul_str_take|lia].
Qed.

Lemma value_pass_ok (ln : string) (length maxlen cursor : Z) (acc : string) :
  no_nul ln = true -> 0 < length <= Z.of_nat (String.length ln) ->
  0 < maxlen -> cursor = Z.of_nat (String.length acc) -> no_nul acc = true ->
  let '(acc', cursor', maxlen', again) :=
    value_pass ln length maxlen cursor acc in
  cursor' = Z.of_nat (String.length acc') /\ no_nul acc' = true
  /\ 0 <= maxlen' /\ cursor' + maxlen' = cursor + maxlen /\ cursor <= cursor'.
Proof.
  intros Hnn Hlen Hmax Hcur Hacc. unfold value_pass.
  set (more := Ascii.eqb _ _).
  set (len1 := if more then _ else length).
  assert (H1 : 0 <= len1 <= length).
  { unfold len1. destruct more; [|lia].
    pose proof (trimRight_le ln (Z.to_nat (length - 1))). lia. }
  set (len2 := if len1 <? maxlen then len1 else maxlen).
  assert (H2 : 0 <= len2 <= len1 /\ len2 <= maxlen).
  { unfold len2. destruct (len1 <? maxlen) eqn:E; lia. }
  rewrite (strncpy_no_nul _ _ Hnn).
  assert (Hl : String.length (acc ++ str_take (Z.to_nat len2) ln)
               = (String.length acc + Z.to_nat len2)%nat).
  { rewrite length_app, length_str_take; lia. }
  assert (Hn : no_nul (acc ++ str_take (Z.to_nat len2) ln) = true).
  { rewrite no_nul_app, Hacc. now apply no_nul_str_take. }
  destruct (maxlen - len2 >? 0) eqn:Hm.
  - rewrite length_app, Hl, no_nul_app, Hn. simpl. repeat split; lia.
  - rewrite Hl, Hn. repeat split; lia.
Qed.

Lemma iniParseValue_loop_ok (stream : list string) :
  forall (p : IniParser) (ln : string) (length maxlen cursor : Z)
         (acc : string) (n : Z) (v : string) (p' : IniParser)
         (rest : list string),
  no_nul ln = true -> length <= Z.of_nat (String.length ln) ->
  0 <= maxlen -> cursor = Z.of_nat (String.length acc) -> no_nul acc = true ->
  iniParseValue_loop stream p ln length maxlen cursor acc = (n, v, p', rest) ->
  n = Z.of_nat (String.length v) /\ no_nul v = true
  /\ cursor <= n <= cursor + maxlen
  /\ self p' = self p /\ file p' = file p /\ file_owned p' = file_owned p.
Proof.
  induction stream as [|chunk stream IH];
    intros p ln length maxlen cursor acc n v p' rest Hnn Hlen Hmax Hcur Hacc;
    cbn [iniParseValue_loop];
    (destruct ((length >? 0) && (maxlen >? 0)) eqn:Hcond; cbn [negb];
     [|intros [= <- <- <- <-]; repeat split; auto; lia]);
    apply andb_true_iff in Hcond as [Hl0 Hm0];
    pose proof (value_pass_ok ln length maxlen cursor acc Hnn
                  ltac:(lia) ltac:(lia) Hcur Hacc) as Hpass;
    destruct (value_pass ln length maxlen cursor acc)
      as [[[acc2 cursor2] maxlen2] again];
    destruct Hpass as (Hc2 & Ha2 & Hm2 & Hsum & Hmono);
    (destruct again; [|intros [= <- <- <- <-]; repeat split; auto; lia]).
  - pose proof (iniParserLine_ok _ (iniParserConsume_ok p None)) as Hline.
    destruct (iniParserLine _) as [[ln' length'] p2].
    destruct Hline as (_ & _ & Hs & Hf & Ho & _).
    intros [= <- <- <- <-]. repeat split; auto; lia.
  - pose proof (iniParserLine_ok _ (iniParserConsume_ok p (Some chunk)))
      as Hline.
    destruct (iniParserLine _) as [[ln' length'] p2].
    destruct Hline as (_ & _ & Hs & Hf & Ho & Hnn' & Hle' & _).
    intros Hrec.
    apply IH in Hrec; [|assumption|lia|lia|assumption|assumption].
    destruct Hrec as (Hn & Hv & Hb & Hs' & Hf' & Ho').
    split; [exact Hn|]. split; [exact Hv|]. split; [lia|].
    simpl in Hs, Hf, Ho. repeat split; congruence.
Qed.

Lemma iniParseValue_on_ok (stream : list string) (p : IniParser)
    (dst : string) (maxlen n : Z) (v : string) (p' : IniParser)
    (rest : list string) :
  parser_ok p -> 1 <= maxlen ->
  iniParseValue_on stream p dst maxlen = (n, v, p', rest) ->
  0 <= n <= maxlen - 1
  /\ (n <> 0 -> n = Z.of_nat (String.length v) /\ no_nul v = true)
  /\ self p' = self p /\ file p' = file p /\ file_owned p' = file_owned p.
Proof.
  intros Hok Hmax. unfold iniParseValue_on.
  pose proof (iniParserLine_ok p Hok) as Hline.
  destruct (iniParserLine p) as [[ln length] p1].
  destruct Hline as (_ & _ & Hs & Hf & Ho & Hnn & Hle & _).
  destruct (length =? 0)%nat eqn:H0.
  - intros [= <- <- <- <-]. repeat split; auto; lia.
  - apply Nat.eqb_neq in H0.
    destruct (negb _) eqn:Hcont.
    + intros [= <- <- <- <-]. rewrite (strncpy_no_nul _ _ Hnn).
      set (len := if Z.of_nat length <? maxlen - 1 then Z.of_nat length
                  else maxlen - 1).
      assert (Hlen : 0 <= len <= maxlen - 1 /\ len <= Z.of_nat length).
      { unfold len. destruct (Z.of_nat length <? maxlen - 1) eqn:E; lia. }
      split; [lia|]. split; [|auto].
      intros _. split; [rewrite length_str_take; lia|].
      now apply no_nul_str_take.
    + intros Hloop.
      apply iniParseValue_loop_ok in Hloop;
        [|assumption|lia|lia|reflexivity|reflexivity].
      destruct Hloop as (Hn & Hv & Hb & Hs' & Hf' & Ho').
      split; [lia|]. split; [auto|]. repeat split; congruence.
Qed.

Lemma iniParseKey_ok (w : World) (p : IniParser) (dst : string)
    (maxlen n : Z) (key : string) (p' : IniParser) (w' : World) :
  iniParseKey w p dst maxlen = (n, key, p', w') ->
  parser_ok p' /\ self p' = self p /\ file p' = file p
  /\ file_owned p' = file_owned p
  /\ (0 < n -> n = Z.of_nat (String.length key) /\ no_nul key = true
               /\ n <= maxlen - 1)
  /\ mem w' = mem w /\ blocks w' = blocks w /\ events w' = events w
  /\ files w' = files w.
Proof.
  unfold iniParseKey.
  destruct (iniParseKey_loop _ _ _ _) as [[[n0 k0] p0] rest] eqn:Hloop.
  intros [= <- <- <- <-].
  apply iniParseKey_loop_ok in Hloop.
  destruct Hloop as (Hok & Hs & Hf & Ho & Hpos).
  split; [exact Hok|]. do 3 (split; [assumption|]).
  split; [exact Hpos|]. simpl. auto.
Qed.

Lemma iniParseValue_ok (w : World) (p : IniParser) (dst : string)
    (maxlen n : Z) (v : string) (p' : IniParser) (w' : World) :
  parser_ok p -> 1 <= maxlen ->
  iniParseValue w p dst maxlen = (n, v, p', w') ->
  0 <= n <= maxlen - 1
  /\ (n <> 0 -> n = Z.of_nat (String.length v) /\ no_nul v = true)
  /\ self p' = self p /\ file p' = file p /\ file_owned p' = file_owned p
  /\ mem w' = mem w /\ blocks w' = blocks w /\ events w' = events w
  /\ files w' = files w.
Proof.
  intros Hok Hmax. unfold iniParseValue.
  destruct (iniParseValue_on _ _ _ _) as [[[n0 v0] p0] rest] eqn:Hon.
  intros [= <- <- <- <-].
  apply iniParseValue_on_ok in Hon; [|assumption|assumption].
  destruct Hon as (Hb & Hn & Hs & Hf & Ho).
  split; [exact Hb|]. split; [exact Hn|].
  do 3 (split; [assumption|]). simpl. auto.
Qed.

(** The value of a pair that the loop reads is a C string of the length
    that was returned, which is below the size of the buffer; reading
    the pair touches neither the destinations nor the allocated blocks,
    and releases nothing. *)
Lemma reads_pair_ok (fs : FlagSet) (w : World) (parser : IniParser)
    (buf : string) (conf : Flag) (v : string) (vlen : Z)
    (parser' : IniParser) (w' : World) :
  reads_pair fs w parser buf conf v vlen parser' w' ->
  vlen = Z.of_nat (String.length v) /\ no_nul v = true
  /\ 0 < vlen <= CONFIG_BUFFER_SIZE - 1
  /\ self parser' = self parser /\ file parser' = file parser
  /\ file_owned parser' = file_owned parser
  /\ mem w' = mem w /\ blocks w' = blocks w /\ events w' = events w.
Proof.
  intros (n & key & p1 & w1 & Hkey & Hn & _ & _ & Hval & Hv).
  apply iniParseKey_ok in Hkey.
  destruct Hkey as (Hok & Hs & Hf & Ho & _ & Hm & Hb & He & _).
  apply iniParseValue_ok in Hval; [|exact Hok|unfold CONFIG_BUFFER_SIZE; lia].
  destruct Hval as (Hr & Hlen & Hs' & Hf' & Ho' & Hm' & Hb' & He' & _).
  destruct (Hlen Hv) as [Hl Hnn].
  repeat split; try congruence; lia.
Qed.

(** ** How the two loops coerce a value *)

Section Coercion.

Context `{Libc}.

Lemma loop_takes_value (fuel : nat) (fs : FlagSet) (w : World)
    (flag : string) (conf : Flag) (value : string) (args : list string)
    (i : nat) :
  takes_flag fs flag conf -> type conf <> FLAG_TYPE_BOOL ->
  flagSetParse_loop fuel fs w (flag :: value :: args) i
  = match coerceArg w conf value (i + 1) with
    | None =>
        (Ret false, setError fs FLAG_ERROR_CODE_INVALID_VALUE (name conf), w)
    | Some w' => flagSetParse_loop fuel fs w' args (i + 2)
    end.
Proof.
  intros [Hc Hl] Hb. cbn [flagSetParse_loop]. rewrite Hc, Hl.
  destruct (type conf); congruence.
Qed.

Lemma loop_reads_pair (fuel : nat) (fs : FlagSet) (w : World)
    (parser : IniParser) (buf : string) (conf : Flag) (v : string)
    (vlen : Z) (parser' : IniParser) (w' : World) :
  reads_pair fs w parser buf conf v vlen parser' w' ->
  parseIniConfig_loop (S fuel) fs w parser buf
  = match coerceConfig w' conf v vlen with
    | None =>
        (Ret false, setError fs FLAG_ERROR_CODE_INVALID_VALUE (name conf),
         iniParserFree w' (Some parser'))
    | Some w'' => parseIniConfig_loop fuel fs w'' parser' ""
    end.
Proof.
  intros (n & key & p1 & w1 & Hkey & Hn & Hcfg & Hl & Hval & Hv).
  cbn [parseIniConfig_loop]. rewrite Hkey.
  assert (Hn' : (n >? 0) = true) by lia. rewrite Hn', Hcfg, Hl, Hval.
  assert (Hv' : (vlen =? 0) = false) by lia. rewrite Hv'. reflexivity.
Qed.

Lemma mem_iniParserFree (w : World) (p : option IniParser) :
  mem (iniParserFree w p) = mem w.
Proof. destruct p as [p|]; [|reflexivity]. simpl. now destruct (file_owned p). Qed.

End Coercion.

(** ** Decimal text *)

Lemma append_nil_l (x : string) : "" ++ x = x.
Proof. reflexivity. Qed.

Lemma append_cons (c : ascii) (s x : string) :
  String c s ++ x = String c (s ++ x).
Proof. reflexivity. Qed.

Lemma isdigit_not_space (c : ascii) : isdigit c = true -> isspace c = false.
Proof. unfold isdigit, isspace. lia. Qed.

Lemma isdigit_not_sign (c : ascii) :
  isdigit c = true ->
  Ascii.eqb c "-" = false /\ Ascii.eqb c "+" = false.
Proof.
  intros Hd. split; apply Ascii.eqb_neq; intros ->; discriminate.
Qed.

Lemma count_space_app (ws x : string) :
  all_chars isspace ws = true -> isspace (str_head x) = false ->
  count_space (ws ++ x) = String.length ws.
Proof.
  intros Hws Hx. induction ws as [|c ws IH].
  - destruct x as [|d x]; [reflexivity|].
    cbn [str_head] in Hx. rewrite append_nil_l. cbn [count_space].
    now rewrite Hx.
  - cbn [all_chars] in Hws. apply andb_true_iff in Hws as [Hc Hws].
    rewrite append_cons. cbn [count_space String.length].
    rewrite Hc, (IH Hws). reflexivity.
Qed.

Lemma str_drop_app (s x : string) : str_drop (String.length s) (s ++ x) = x.
Proof.
  induction s as [|c s IH]; [reflexivity|].
  rewrite append_cons. exact IH.
Qed.

Lemma digits_app (ds rest : string) (acc : Z) :
  all_chars isdigit ds = true -> isdigit (str_head rest) = false ->
  digits (ds ++ rest) acc = (number ds acc, String.length ds).
Proof.
  revert acc. induction ds as [|c ds IH]; intros acc Hds Hr.
  - destruct rest as [|d rest]; [reflexivity|].
    cbn [str_head] in Hr. rewrite append_nil_l. cbn [digits number].
    now rewrite Hr.
  - cbn [all_chars] in Hds. apply andb_true_iff in Hds as [Hc Hds].
    rewrite append_cons. cbn [digits number String.length].
    rewrite Hc, (IH _ Hds Hr). reflexivity.
Qed.

Lemma clamp_long_int (n : Z) :
  (INT_MIN <= n <= INT_MAX -> clamp_long n = n)
  /\ (n < INT_MIN -> clamp_long n < INT_MIN)
  /\ (INT_MAX < n -> INT_MAX < clamp_long n).
Proof.
  unfold clamp_long, INT_MIN, INT_MAX, LONG_MIN, LONG_MAX.
  destruct (n <? - 2 ^ 63) eqn:E1; [lia|].
  destruct (2 ^ 63 - 1 <? n) eqn:E2; lia.
Qed.

(** The text of a decimal number, with white space and a sign before
    it and anything but a digit after it, is converted up to the last
    digit: the number is stored if it is in the range of [int], and the
    text is rejected if it is not. *)
Lemma int_of_text_decimal (ws sg ds rest : string) :
  all_chars isspace ws = true -> sg = "" \/ sg = "+" \/ sg = "-" ->
  all_chars isdigit ds = true -> ds <> "" ->
  isdigit (str_head rest) = false ->
  let n := if String.eqb sg "-" then - number ds 0 else number ds 0 in
  strtol (ws ++ sg ++ ds ++ rest)
  = (clamp_long n, String.length (ws ++ sg ++ ds))
  /\ int_of_text (ws ++ sg ++ ds ++ rest)
     = if (INT_MIN <=? n) && (n <=? INT_MAX) then Some n else None.
Proof.
  intros Hws Hsg Hds Hne Hrest n.
  destruct ds as [|d ds]; [congruence|]. clear Hne.
  pose proof Hds as Hds'. cbn [all_chars] in Hds'.
  apply andb_true_iff in Hds' as [Hd _].
  destruct (isdigit_not_sign d Hd) as [Hd1 Hd2].
  assert (Hstr : strtol (ws ++ sg ++ String d ds ++ rest)
                 = (clamp_long n, String.length (ws ++ sg ++ String d ds))).
  { unfold strtol.
    rewrite count_space_app; [|exact Hws|].
    2:{ destruct Hsg as [->|[->| ->]];
          rewrite ?append_cons, ?append_nil_l; cbn [str_head];
          [|reflexivity|reflexivity].
        now apply isdigit_not_space. }
    rewrite str_drop_app.
    destruct Hsg as [->|[->| ->]]; subst n;
      rewrite ?append_cons, ?append_nil_l; cbn [str_head].
    - rewrite Hd1, Hd2. cbn [orb str_drop String.eqb].
      rewrite <- append_cons.
      rewrite (digits_app (String d ds) rest 0 Hds Hrest).
      cbn [String.length Nat.eqb]. rewrite !length_app. cbn [String.length].
      f_equal. lia.
    - change (Ascii.eqb "+" "-") with false.
      change (Ascii.eqb "+" "+") with true.
      cbn [orb str_drop str_tail]. rewrite <- append_cons.
      rewrite (digits_app (String d ds) rest 0 Hds Hrest).
      cbn [String.length Nat.eqb]. rewrite !length_app. cbn [String.length].
      change ("+" =? "-")%string with false. cbv iota.
      f_equal. lia.
    - change (Ascii.eqb "-" "-") with true.
      cbn [orb str_drop str_tail]. rewrite <- append_cons.
      rewrite (digits_app (String d ds) rest 0 Hds Hrest).
      cbn [String.length Nat.eqb]. rewrite !length_app. cbn [String.length].
      change ("-" =? "-")%string with true. cbv iota.
      f_equal. lia. }
  split; [exact Hstr|].
  unfold int_of_text. rewrite Hstr.
  assert (He : (String.length (ws ++ sg ++ String d ds) =? 0)%nat = false).
  { apply Nat.eqb_neq. rewrite !length_app. simpl. lia. }
  rewrite He. cbn [orb].
  destruct (clamp_long_int n) as (Hin & Hlo & Hhi).
  destruct ((INT_MIN <=? n) && (n <=? INT_MAX)) eqn:Hr.
  - rewrite Hin by lia.
    assert (Hx : (n <? INT_MIN) || (INT_MAX <? n) = false) by lia.
    now rewrite Hx.
  - assert (Hx : (clamp_long n <? INT_MIN) || (INT_MAX <? clamp_long n) = true).
    { destruct (Z.lt_ge_cases n INT_MIN); [specialize (Hlo ltac:(lia)); lia|].
      assert (INT_MAX < n) by lia. specialize (Hhi ltac:(lia)). lia. }
    now rewrite Hx.
Qed.

(** ** Int, Bool, String and Time values *)

Section Values.

Context `{Libc}.

(** C3, amended: the Int case, from a command-line token and from a
    configuration value alike, converts the text with [strtol] in base
    10. When no character is converted or the result lies outside
    the range of a signed 32-bit integer, the error is an invalid
    value that names the flag and the destinations are as they were;
    otherwise the result is stored. For a decimal number, after
    optional white space and sign, the characters that follow the
    digits are ignored: the number is stored when it is in range and
    the text is rejected when it is not. *)
Theorem int_coercion_ignores_leftover (fuel : nat) (fs : FlagSet) (w : World)
    (conf : Flag) (text : string) :
  type conf = FLAG_TYPE_INT ->
  (forall flag args i,
     takes_flag fs flag conf ->
     flagSetParse_loop fuel fs w (flag :: text :: args) i
     = match int_of_text text with
       | None =>
           (Ret false,
            setError fs FLAG_ERROR_CODE_INVALID_VALUE (name conf), w)
       | Some n =>
           flagSetParse_loop fuel fs (store w (ptr conf) (CInt n)) args (i + 2)
       end)
  /\ (forall parser buf vlen parser' w',
        reads_pair fs w parser buf conf text vlen parser' w' ->
        parseIniConfig_loop (S fuel) fs w parser buf
        = match int_of_text text with
          | None =>
              (Ret false,
               setError fs FLAG_ERROR_CODE_INVALID_VALUE (name conf),
               iniParserFree w' (Some parser'))
          | Some n =>
              parseIniConfig_loop fuel fs (store w' (ptr conf) (CInt n))
                parser' ""
          end
        /\ mem (iniParserFree w' (Some parser')) = mem w)
  /\ ((strtol text).2 = 0%nat
      \/ (strtol text).1 < INT_MIN \/ INT_MAX < (strtol text).1 ->
      int_of_text text = None)
  /\ (forall ws sg ds rest,
        text = ws ++ sg ++ ds ++ rest ->
        all_chars isspace ws = true -> sg = "" \/ sg = "+" \/ sg = "-" ->
        all_chars isdigit ds = true -> ds <> "" ->
        isdigit (str_head rest) = false ->
        let n := if String.eqb sg "-" then - number ds 0 else number ds 0 in
        int_of_text text
        = if (INT_MIN <=? n) && (n <=? INT_MAX) then Some n else None).
Proof.
  intros Hty. split; [|split; [|split]].
  - intros flag args i Htakes.
    rewrite (loop_takes_value fuel fs w flag conf text args i Htakes)
      by congruence.
    unfold coerceArg, int_of_text. rewrite Hty.
    destruct (strtol text) as [result e].
    now destruct ((e =? 0)%nat || (result <? INT_MIN) || (INT_MAX <? result)).
  - intros parser buf vlen parser' w' Hpair.
    rewrite (loop_reads_pair fuel _ _ _ _ _ _ _ _ _ Hpair).
    apply reads_pair_ok in Hpair.
    destruct Hpair as (_ & _ & _ & _ & _ & _ & Hm & _).
    rewrite mem_iniParserFree. split; [|exact Hm].
    unfold coerceConfig, int_of_text. rewrite Hty.
    destruct (strtol text) as [result e].
    now destruct ((e =? 0)%nat || (result <? INT_MIN) || (INT_MAX <? result)).
  - unfold int_of_text. destruct (strtol text) as [result e]. simpl.
    intros Hrej.
    assert (Hb : (e =? 0)%nat || (result <? INT_MIN) || (INT_MAX <? result)
                 = true).
    { destruct Hrej as [->|[Hlo|Hhi]]; [reflexivity| |].
      - apply Z.ltb_lt in Hlo. rewrite Hlo. now rewrite orb_true_r.
      - apply Z.ltb_lt in Hhi. rewrite Hhi. now rewrite orb_true_r. }
    now rewrite Hb.
  - intros ws sg ds rest -> Hws Hsg Hds Hne Hrest.
    apply int_of_text_decimal; assumption.
Qed.

(** C4, amended: for a Bool flag matched in a configuration file, a
    value that is a prefix of "true" sets the destination to true, any
    other value that is a prefix of "false" sets it to false, and every
    other value is an invalid value that names the flag; the value is not
    empty. *)
Theorem bool_config_value_prefix (fuel : nat) (fs : FlagSet) (w : World)
    (parser : IniParser) (buf : string) (conf : Flag) (v : string) (vlen : Z)
    (parser' : IniParser) (w' : World) :
  type conf = FLAG_TYPE_BOOL ->
  reads_pair fs w parser buf conf v vlen parser' w' ->
  v <> ""
  /\ parseIniConfig_loop (S fuel) fs w parser buf
     = if String.prefix v "true" then
         parseIniConfig_loop fuel fs (store w' (ptr conf) (CBool true))
           parser' ""
       else if String.prefix v "false" then
         parseIniConfig_loop fuel fs (store w' (ptr conf) (CBool false))
           parser' ""
       else
         (Ret false, setError fs FLAG_ERROR_CODE_INVALID_VALUE (name conf),
          iniParserFree w' (Some parser')).
Proof.
  intros Hty Hpair.
  rewrite (loop_reads_pair fuel _ _ _ _ _ _ _ _ _ Hpair).
  apply reads_pair_ok in Hpair.
  destruct Hpair as (Hlen & Hnn & Hpos & _).
  split.
  - intros ->. simpl in Hlen. lia.
  - unfold coerceConfig. rewrite Hty, Hlen, Nat2Z.id.
    rewrite !(strncmp_value_prefix v _ Hnn).
    destruct (String.prefix v "true"); [reflexivity|].
    now destruct (String.prefix v "false").
Qed.

(** C8: a String flag set from a configuration value receives a
    pointer to a new block of exactly as many bytes as the value has
    characters; the characters are stored in it as they are and the
    terminator is stored one byte past its end, so what the destination
    points to is not a text that ends inside the block. A String flag
    set from a command-line token receives the pointer to that token of
    the argument vector, and nothing is copied. *)
Theorem string_copy_overruns_block (fuel : nat) (fs : FlagSet) (w : World)
    (conf : Flag) :
  type conf = FLAG_TYPE_STRING ->
  (forall parser buf v vlen parser' w',
     reads_pair fs w parser buf conf v vlen parser' w' ->
     let b := List.length (blocks w) in
     exists w'',
       parseIniConfig_loop (S fuel) fs w parser buf
       = parseIniConfig_loop fuel fs w'' parser' ""
       /\ mem w'' = <[ptr conf := CString (HeapPtr b)]> (mem w)
       /\ blocks w''
          = (blocks w
             ++ [{| block_size := String.length v;
                    block_bytes := v ++ String NUL "" |}])%list
       /\ no_nul v = true
       /\ String.length (v ++ String NUL "") = S (String.length v)
       /\ char_at (v ++ String NUL "") (String.length v) = NUL
       /\ (forall argv, deref argv w'' (HeapPtr b) = None)
       /\ Z.of_nat (String.length v) < CONFIG_BUFFER_SIZE)
  /\ (forall flag value args i,
        takes_flag fs flag conf ->
        flagSetParse_loop fuel fs w (flag :: value :: args) i
        = flagSetParse_loop fuel fs
            (store w (ptr conf) (CString (ArgvPtr (i + 1)))) args (i + 2))
  /\ (forall prog flag value args,
        takes_flag fs flag conf ->
        flagSetParse fuel fs w (prog :: flag :: value :: args)
        = flagSetParse_loop fuel fs
            (store w (ptr conf) (CString (ArgvPtr 2))) args 3
        /\ blocks (store w (ptr conf) (CString (ArgvPtr 2))) = blocks w
        /\ forall argv', deref argv' w (ArgvPtr 2) = argv' !! 2%nat).
Proof.
  intros Hty. split; [|split].
  - intros parser buf v vlen parser' w' Hpair b.
    rewrite (loop_reads_pair fuel _ _ _ _ _ _ _ _ _ Hpair).
    apply reads_pair_ok in Hpair.
    destruct Hpair as (Hlen & Hnn & Hpos & _ & _ & _ & Hm & Hb & _).
    unfold coerceConfig. rewrite Hty.
    unfold stringDuplicate.
    rewrite (strlen_no_nul v Hnn), <- Hlen, Z.ltb_irrefl.
    assert (Htake : str_take (Z.to_nat vlen) v = v).
    { rewrite <- (c_str_no_nul v Hnn) at 2. unfold c_str.
      rewrite (strlen_no_nul v Hnn). f_equal. lia. }
    assert (Hsize : Z.to_nat vlen = String.length v) by lia.
    rewrite Htake, Hsize.
    assert (Hstr : strlen (v ++ String NUL "") = String.length v).
    { clear -Hnn. induction v as [|c v IH]; [reflexivity|].
      apply no_nul_cons in Hnn as [Hc Hv].
      rewrite append_cons. cbn [strlen String.length].
      rewrite (eqb_NUL_false c Hc), (IH Hv). reflexivity. }
    eexists. split; [reflexivity|].
    cbn [mem blocks store]. rewrite Hm, Hb. subst b.
    split; [reflexivity|]. split; [reflexivity|]. split; [exact Hnn|].
    split; [rewrite length_app; cbn; lia|].
    split.
    { unfold char_at. now rewrite str_drop_app. }
    split; [|lia].
    intros argv. cbn [deref blocks store].
    rewrite lookup_app_r by lia. rewrite Nat.sub_diag.
    cbn [lookup list_lookup mbind option_bind block_bytes block_size].
    now rewrite Hstr, Nat.ltb_irrefl.
  - intros flag value args i Htakes.
    rewrite (loop_takes_value fuel fs w flag conf value args i Htakes)
      by congruence.
    unfold coerceArg. now rewrite Hty.
  - intros prog flag value args Htakes.
    split; [|split; [reflexivity|reflexivity]].
    cbn [flagSetParse].
    rewrite (loop_takes_value fuel fs w flag conf value args 1 Htakes)
      by congruence.
    unfold coerceArg. now rewrite Hty.
Qed.

(** For a Time flag, whatever [strptime] returns but the start of the
    text, the time of the structure it leaves is stored and no error is
    set: a NULL result is not told from a match. *)
Lemma time_coercion_never_rejects (fuel : nat) (fs : FlagSet) (w : World)
    (conf : Flag) (text : string) :
  type conf = FLAG_TYPE_TIME ->
  (strptime text FLAGS_TIME_FMT tm_zero).1 <> Some 0%nat ->
  let t := mktime (strptime text FLAGS_TIME_FMT tm_zero).2 in
  (forall flag args i,
     takes_flag fs flag conf ->
     flagSetParse_loop fuel fs w (flag :: text :: args) i
     = flagSetParse_loop fuel fs (store w (ptr conf) (CTime t)) args (i + 2))
  /\ (forall parser buf vlen parser' w',
        reads_pair fs w parser buf conf text vlen parser' w' ->
        parseIniConfig_loop (S fuel) fs w parser buf
        = parseIniConfig_loop fuel fs (store w' (ptr conf) (CTime t))
            parser' "").
Proof.
  intros Hty Hne t. split.
  - intros flag args i Htakes.
    rewrite (loop_takes_value fuel fs w flag conf text args i Htakes)
      by congruence.
    unfold coerceArg. rewrite Hty. subst t.
    destruct (strptime text FLAGS_TIME_FMT tm_zero) as [e result].
    simpl in Hne |- *. now rewrite bool_decide_eq_false_2.
  - intros parser buf vlen parser' w' Hpair.
    rewrite (loop_reads_pair fuel _ _ _ _ _ _ _ _ _ Hpair).
    unfold coerceConfig. rewrite Hty. subst t.
    destruct (strptime text FLAGS_TIME_FMT tm_zero) as [e result].
    simpl in Hne |- *. now rewrite bool_decide_eq_false_2.
Qed.

End Values.

(** ** The claims on concrete inputs *)

Lemma int_coercion_ignores_leftover_witness :
  type flag_count = FLAG_TYPE_INT
  /\ takes_flag fs_demo "--count" flag_count
  /\ flagSetParse_loop 0 fs_demo w_demo ["--count"; "12abc"] 1
     = (Ret true, fs_demo, store w_demo 2 (CInt 12)).
Proof.
  assert (Hty : type flag_count = FLAG_TYPE_INT) by reflexivity.
  assert (Ht : takes_flag fs_demo "--count" flag_count)
    by (split; vm_compute; reflexivity).
  split; [exact Hty|]. split; [exact Ht|].
  rewrite (proj1 (int_coercion_ignores_leftover 0 fs_demo w_demo flag_count
                    "12abc" Hty) "--count" [] 1%nat Ht).
  vm_compute. reflexivity.
Defined.

(** C3 as stated fails: the text [12abc] has the characters [abc] left
    over after its digits, and both the command line and a
    configuration file store 12 for it without an error. *)
Lemma int_leftover_accepted :
  strtol "12abc" = (12, 2%nat)
  /\ observe (flagSetParse 0 fs_demo w_demo ["prog"; "--count"; "12abc"])
     = (Ret true, FLAG_ERROR_CODE_NONE, "",
        [Some (CBool false); Some (CString (CallerPtr "nobody"));
         Some (CInt 12); Some (CTime 0)],
        [], [], [])
  /\ observe (merge ("count = 12abc" ++ nl))
     = (Ret true, FLAG_ERROR_CODE_NONE, "",
        [Some (CBool false); Some (CString (CallerPtr "nobody"));
         Some (CInt 12); Some (CTime 0)],
        [], [(0%nat, [])], [EvOpen "a.ini" 0; EvAlloc 1]).
Proof. repeat split; vm_compute; reflexivity. Qed.

Lemma bool_config_value_prefix_witness :
  exists parser' w',
    type flag_verbose = FLAG_TYPE_BOOL
    /\ reads_pair fs_demo (opened "a.ini" ("verbose = tru" ++ nl)).2
         (opened "a.ini" ("verbose = tru" ++ nl)).1 "" flag_verbose
         "tru" 3 parser' w'
    /\ parseIniConfig_loop 1 fs_demo (opened "a.ini" ("verbose = tru" ++ nl)).2
         (opened "a.ini" ("verbose = tru" ++ nl)).1 ""
       = parseIniConfig_loop 0 fs_demo (store w' 0 (CBool true)) parser' "".
Proof.
  pose (k := iniParseKey (opened "a.ini" ("verbose = tru" ++ nl)).2
               (opened "a.ini" ("verbose = tru" ++ nl)).1 ""
               (Z.of_nat FLAGS_FLAG_MAX_LEN)).
  pose (r := iniParseValue k.2 k.1.2 "" CONFIG_BUFFER_SIZE).
  exists r.1.2, r.2.
  assert (Hty : type flag_verbose = FLAG_TYPE_BOOL) by reflexivity.
  split; [exact Hty|].
  assert (Hp : reads_pair fs_demo (opened "a.ini" ("verbose = tru" ++ nl)).2
                 (opened "a.ini" ("verbose = tru" ++ nl)).1 "" flag_verbose
                 "tru" 3 r.1.2 r.2).
  { exists k.1.1.1, k.1.1.2, k.1.2, k.2.
    split; [vm_compute; reflexivity|]. split; [vm_compute; reflexivity|].
    split; [vm_compute; reflexivity|]. split; [vm_compute; reflexivity|].
    split; [vm_compute; reflexivity|discriminate]. }
  split; [exact Hp|].
  exact (proj2 (bool_config_value_prefix 0 _ _ _ _ _ _ _ _ _ Hty Hp)).
Defined.

(** C4 as stated fails: [tru] is a proper prefix of [true], and the
    line [verbose = tru] sets the Bool flag to true without an error. *)
Lemma bool_proper_prefix_accepted :
  String.prefix "tru" "true" = true /\ "tru" <> "true"
  /\ first_pair ("verbose = tru" ++ nl) = (7, "verbose", 3, "tru")
  /\ observe (merge ("verbose = tru" ++ nl))
     = (Ret true, FLAG_ERROR_CODE_NONE, "",
        [Some (CBool true); Some (CString (CallerPtr "nobody"));
         Some (CInt 7); Some (CTime 0)],
        [], [(0%nat, [])], [EvOpen "a.ini" 0; EvAlloc 1]).
Proof.
  split; [reflexivity|]. split; [discriminate|].
  split; vm_compute; reflexivity.
Qed.

Lemma string_copy_overruns_block_witness :
  exists parser' w' w'',
    type flag_name = FLAG_TYPE_STRING
    /\ reads_pair fs_demo (opened "a.ini" ("name = alice" ++ nl)).2
         (opened "a.ini" ("name = alice" ++ nl)).1 "" flag_name
         "alice" 5 parser' w'
    /\ parseIniConfig_loop 1 fs_demo (opened "a.ini" ("name = alice" ++ nl)).2
         (opened "a.ini" ("name = alice" ++ nl)).1 ""
       = parseIniConfig_loop 0 fs_demo w'' parser' ""
    /\ blocks w''
       = [{| block_size := 5; block_bytes := "alice" ++ String NUL "" |}]
    /\ deref [] w'' (HeapPtr 0) = None.
Proof.
  pose (k := iniParseKey (opened "a.ini" ("name = alice" ++ nl)).2
               (opened "a.ini" ("name = alice" ++ nl)).1 ""
               (Z.of_nat FLAGS_FLAG_MAX_LEN)).
  pose (r := iniParseValue k.2 k.1.2 "" CONFIG_BUFFER_SIZE).
  assert (Hty : type flag_name = FLAG_TYPE_STRING) by reflexivity.
  assert (Hp : reads_pair fs_demo (opened "a.ini" ("name = alice" ++ nl)).2
                 (opened "a.ini" ("name = alice" ++ nl)).1 "" flag_name
                 "alice" 5 r.1.2 r.2).
  { exists k.1.1.1, k.1.1.2, k.1.2, k.2.
    split; [vm_compute; reflexivity|]. split; [vm_compute; reflexivity|].
    split; [vm_compute; reflexivity|]. split; [vm_compute; reflexivity|].
    split; [vm_compute; reflexivity|discriminate]. }
  destruct (proj1 (string_copy_overruns_block 0 fs_demo _ flag_name Hty)
              _ _ _ _ _ _ Hp)
    as (w'' & Hloop & _ & Hblocks & _ & _ & _ & Hderef & _).
  exists r.1.2, r.2, w''.
  split; [exact Hty|]. split; [exact Hp|]. split; [exact Hloop|].
  split; [exact Hblocks|]. exact (Hderef []).
Defined.

(** After [--name alice] the String flag holds a pointer to the token
    itself, the third of the argument vector, and no block was
    allocated for a copy; what the flag reads follows the token when the
    caller changes it. After the line [name = alice] of a configuration
    file it holds a pointer to a block of 5 bytes, and the sixth byte
    that was stored, the terminator, lies outside the block. *)
Lemma string_token_not_copied :
  observe (flagSetParse 0 fs_demo w_demo ["prog"; "--name"; "alice"])
  = (Ret true, FLAG_ERROR_CODE_NONE, "",
     [Some (CBool false); Some (CString (ArgvPtr 2));
      Some (CInt 7); Some (CTime 0)],
     [], [], [])
  /\ deref ["prog"; "--name"; "alice"] w_demo (ArgvPtr 2) = Some "alice"
  /\ deref ["prog"; "--name"; "bob"] w_demo (ArgvPtr 2) = Some "bob"
  /\ mem (merge ("name = alice" ++ nl)).2 !! 1%nat
     = Some (CString (HeapPtr 0))
  /\ blocks (merge ("name = alice" ++ nl)).2
     = [{| block_size := 5; block_bytes := "alice" ++ String NUL "" |}]
  /\ deref [] (merge ("name = alice" ++ nl)).2 (HeapPtr 0) = None.
Proof. repeat split; vm_compute; reflexivity. Qed.

(** C2: the text [garbage] does not match the time format, [strptime]
    returns NULL for it, and yet the Time flag is written, with the time
    of the structure left at zero, and no error is set; the same
    happens for the line [when = garbage] of a configuration file. *)
Theorem time_mismatch_stored :
  (strptime "garbage" FLAGS_TIME_FMT tm_zero).1 = None
  /\ observe (flagSetParse 0 fs_demo w_demo ["prog"; "--when"; "garbage"])
     = (Ret true, FLAG_ERROR_CODE_NONE, "",
        [Some (CBool false); Some (CString (CallerPtr "nobody"));
         Some (CInt 7); Some (CTime (-2209075200))],
        [], [], [])
  /\ observe (merge ("when = garbage" ++ nl))
     = (Ret true, FLAG_ERROR_CODE_NONE, "",
        [Some (CBool false); Some (CString (CallerPtr "nobody"));
         Some (CInt 7); Some (CTime (-2209075200))],
        [], [(0%nat, [])], [EvOpen "a.ini" 0; EvAlloc 1]).
Proof. repeat split; vm_compute; reflexivity. Qed.

(** C6: for the line [key = part1 \] followed by the line [part2] the
    value has 12 characters: a space follows the last fragment. A
    String flag set from such a pair holds the space too. *)
Theorem continuation_value_trailing_space :
  first_pair ("key = part1 \" ++ nl ++ "part2" ++ nl)
  = (3, "key", 12, "part1 part2 ")
  /\ observe (merge ("name = part1 \" ++ nl ++ "part2" ++ nl))
     = (Ret true, FLAG_ERROR_CODE_NONE, "",
        [Some (CBool false); Some (CString (HeapPtr 0));
         Some (CInt 7); Some (CTime 0)],
        ["part1 part2 "], [(0%nat, [])], [EvOpen "a.ini" 0; EvAlloc 1]).
Proof. split; vm_compute; reflexivity. Qed.

(** [iniParserFree] closes the stream of a parser exactly when the
    parser owns it, and releases the parser once. *)
Lemma iniParserFree_closes_owned_only (w : World) (p : IniParser) :
  events (iniParserFree w (Some p))
  = (events w ++ (if file_owned p then [EvClose (file p)] else [])
     ++ [EvFree (self p)])%list
  /\ streams (iniParserFree w (Some p))
     = if file_owned p then delete (file p) (streams w) else streams w.
Proof.
  unfold iniParserFree, fclose, emit, with_streams.
  destruct (file_owned p); cbn [events streams]; split;
    rewrite <- ?app_assoc; reflexivity.
Qed.

Section Exits.

Context `{Libc}.

(** When the key scanner returns zero or an error code, the loop of
    [parseIniConfig] ends and the call returns true: the error record
    is as it was, nothing is released, and the stream stays open. *)
Lemma loop_exit_on_error (fuel : nat) (fs : FlagSet) (w : World)
    (parser : IniParser) (buf : string) (n : Z) (key : string)
    (p1 : IniParser) (w1 : World) :
  iniParseKey w parser buf (Z.of_nat FLAGS_FLAG_MAX_LEN) = (n, key, p1, w1) ->
  n <= 0 ->
  parseIniConfig_loop (S fuel) fs w parser buf = (Ret true, fs, w1)
  /\ events w1 = events w
  /\ (is_Some (streams w !! file parser) ->
      is_Some (streams w1 !! file parser)).
Proof.
  intros Hkey Hn. split; [|split].
  - cbn [parseIniConfig_loop]. rewrite Hkey.
    assert (Hn' : (n >? 0) = false) by lia. now rewrite Hn'.
  - apply iniParseKey_ok in Hkey. tauto.
  - unfold iniParseKey in Hkey.
    destruct (iniParseKey_loop _ _ _ _) as [[[n0 k0] p0] rest] eqn:Hloop.
    injection Hkey as <- <- <- <-.
    apply iniParseKey_loop_ok in Hloop.
    destruct Hloop as (_ & _ & Hf & _).
    unfold set_unread. cbn [streams with_streams]. rewrite Hf.
    intros [s Hs]. rewrite lookup_alter_eq, Hs. simpl. eauto.
Qed.

End Exits.

(** C1: a line whose first [=] is at index 0 or 1, a content line
    without [=], and a key of 64 characters make the key scanner return
    its error codes -2 and -1. Merging a file with such a line returns
    true all the same, with no error recorded, and the line [count = 3]
    that follows is left unread. *)
Theorem ini_errors_reported_as_success :
  map first_key ["=oops"; "a=1"; "count 3"; long_key ++ " = 1"]
  = [(INI_ERROR_INVALID_SYNTAX, ""); (INI_ERROR_INVALID_SYNTAX, "");
     (INI_ERROR_INVALID_SYNTAX, ""); (INI_ERROR_CODE_OVERFLOW, "")]
  /\ map (fun bad => observe (merge (bad ++ nl ++ "count = 3" ++ nl)))
       ["=oops"; "a=1"; "count 3"; long_key ++ " = 1"]
     = let silent :=
         (Ret true, FLAG_ERROR_CODE_NONE, "",
          [Some (CBool false); Some (CString (CallerPtr "nobody"));
           Some (CInt 7); Some (CTime 0)],
          [], [(0%nat, ["count = 3" ++ nl])],
          [EvOpen "a.ini" 0; EvAlloc 1]) in
       [silent; silent; silent; silent].
Proof. split; vm_compute; reflexivity. Qed.

(** C7: merging a file that is read to its end returns true with the
    parser never released and its stream, which the reader opened,
    still open; the same holds when a line is in error, and the parser
    of the outer file is not released when a chained file cannot
    be opened. On the exits for an unknown key, a missing value and an
    invalid value the parser is released once and its stream closed. *)
Theorem parser_not_released_on_success :
  map (fun content =>
         let '(o, _, w) := merge content in
         (o, events w, frees 1 (events w), closes 0 (events w),
          map fst (map_to_list (streams w))))
    ["verbose = true" ++ nl; "=oops" ++ nl; "config = b.ini" ++ nl;
     "bogus = 1" ++ nl; "count =" ++ nl; "count = x" ++ nl]
  = [(Ret true, [EvOpen "a.ini" 0; EvAlloc 1], 0, 0, [0]);
     (Ret true, [EvOpen "a.ini" 0; EvAlloc 1], 0, 0, [0]);
     (Ret false, [EvOpen "a.ini" 0; EvAlloc 1], 0, 0, [0]);
     (Ret false, [EvOpen "a.ini" 0; EvAlloc 1; EvClose 0; EvFree 1], 1, 1, []);
     (Ret false, [EvOpen "a.ini" 0; EvAlloc 1; EvClose 0; EvFree 1], 1, 1, []);
     (Ret false, [EvOpen "a.ini" 0; EvAlloc 1; EvClose 0; EvFree 1], 1, 1, [])
    ]%nat.
Proof. vm_compute. reflexivity. Qed.

(** * Further properties of the code *)

(** ** The helpers of the line scanner (ini.h) *)

Lemma char_at_S (c : ascii) (s : string) (i : nat) :
  char_at (String c s) (S i) = char_at s i.
Proof. reflexivity. Qed.

Lemma char_at_nil (i : nat) : char_at "" i = NUL.
Proof. unfold char_at. induction i as [|i IH]; [reflexivity|exact IH]. Qed.

Lemma char_at_lt_strlen (s : string) (i : nat) :
  (i < strlen s)%nat -> char_at s i <> NUL.
Proof.
  revert i. induction s as [|c s IH]; intros i Hi; simpl in Hi; [lia|].
  destruct (Ascii.eqb c NUL) eqn:Hc; [lia|].
  destruct i as [|i].
  - now apply Ascii.eqb_neq in Hc.
  - rewrite char_at_S. apply IH. lia.
Qed.

Lemma stringLength_loop_min (s : string) (n i : nat) :
  (i <= strlen s)%nat ->
  stringLength_loop s n i = Nat.min (strlen s) (i + n).
Proof.
  revert i. induction n as [|n IH]; intros i Hi; simpl; [lia|].
  destruct (Ascii.eqb (char_at s i) NUL) eqn:Hc.
  - apply Ascii.eqb_eq in Hc.
    destruct (Nat.eq_dec i (strlen s)) as [->|Hne]; [lia|].
    exfalso. apply (char_at_lt_strlen s i); [lia|exact Hc].
  - destruct (Nat.eq_dec i (strlen s)) as [->|Hne].
    + rewrite char_at_strlen in Hc. discriminate.
    + rewrite IH by lia. lia.
Qed.

Lemma stringLength_is_min (s : string) (maxlen : nat) :
  stringLength s maxlen = Nat.min (strlen s) maxlen.
Proof. apply (stringLength_loop_min s maxlen 0). lia. Qed.

(** X1: [stringLength] is the length of the text before the first NUL,
    capped at [maxlen]. *)
Theorem stringLength_min (s : string) (maxlen : nat) :
  stringLength s maxlen = Nat.min (strlen s) maxlen.
Proof. exact (stringLength_is_min s maxlen). Qed.

Lemma lookupChar_loop_spec (buf : string) (c : ascii) (n : nat) :
  forall i : nat,
  (lookupChar_loop buf n c i = -1
   /\ forall j, (i <= j < i + n)%nat -> char_at buf j <> c)
  \/ exists k, lookupChar_loop buf n c i = Z.of_nat k
               /\ (i <= k < i + n)%nat /\ char_at buf k = c
               /\ forall j, (i <= j < k)%nat -> char_at buf j <> c.
Proof.
  induction n as [|n IH]; intros i; simpl.
  - left. split; [reflexivity|]. intros j Hj. lia.
  - destruct (Ascii.eqb c (char_at buf i)) eqn:Hc.
    + apply Ascii.eqb_eq in Hc. right. exists i.
      split; [reflexivity|]. split; [lia|]. split; [now symmetry|].
      intros j Hj. lia.
    + apply Ascii.eqb_neq in Hc.
      destruct (IH (S i)) as [[Hr Hall]|(k & Hr & Hk & Hck & Hall)].
      * left. split; [exact Hr|]. intros j Hj.
        destruct (Nat.eq_dec j i) as [->|Hne]; [congruence|].
        apply Hall. lia.
      * right. exists k. split; [exact Hr|]. split; [lia|].
        split; [exact Hck|]. intros j Hj.
        destruct (Nat.eq_dec j i) as [->|Hne]; [congruence|].
        apply Hall. lia.
Qed.

Lemma lookupChar_props (buf : string) (len : nat) (c : ascii) :
  (lookupChar buf len c = -1
   <-> forall j, (j < len)%nat -> char_at buf j <> c)
  /\ (forall k : nat,
        lookupChar buf len c = Z.of_nat k
        <-> (k < len)%nat /\ char_at buf k = c
            /\ forall j, (j < k)%nat -> char_at buf j <> c).
Proof.
  unfold lookupChar.
  destruct (lookupChar_loop_spec buf c len 0)
    as [[Hr Hall]|(k & Hr & Hk & Hck & Hall)]; rewrite Hr.
  - split.
    + split; [|reflexivity]. intros _ j Hj. apply Hall. lia.
    + intros k. split; [lia|]. intros (Hk & Hck & _).
      exfalso. apply (Hall k); [lia|exact Hck].
  - split.
    + split; [lia|]. intros Hnone. exfalso. apply (Hnone k); [lia|exact Hck].
    + intros k'. split.
      * intros Heq. assert (k' = k) by lia. subst k'.
        split; [lia|]. split; [exact Hck|]. intros j Hj. apply Hall. lia.
      * intros (Hk' & Hck' & Hall').
        destruct (Nat.lt_trichotomy k k') as [Hlt|[->|Hgt]];
          [|reflexivity|].
        -- exfalso. apply (Hall' k Hlt). exact Hck.
        -- exfalso. apply (Hall k'); [lia|exact Hck'].
Qed.

(** X2: [lookupChar] returns the index of the first occurrence of the
    character among the first [len] characters, and -1 exactly when
    there is none. *)
Theorem lookupChar_first_occurrence (buf : string) (len : nat) (c : ascii) :
  (lookupChar buf len c = -1
   <-> forall j, (j < len)%nat -> char_at buf j <> c)
  /\ (forall k : nat,
        lookupChar buf len c = Z.of_nat k
        <-> (k < len)%nat /\ char_at buf k = c
            /\ forall j, (j < k)%nat -> char_at buf j <> c).
Proof. exact (lookupChar_props buf len c). Qed.

Lemma trimRight_props (src : string) (len : nat) :
  (trimRight src len <= len)%nat
  /\ (forall j, (trimRight src len <= j < len)%nat ->
                isspace (char_at src j) = true)
  /\ (forall r, trimRight src len = S r -> isspace (char_at src r) = false).
Proof.
  induction len as [|len (Hle & Hsp & Hlast)]; simpl.
  - split; [lia|]. split; [intros j Hj; lia|discriminate].
  - destruct (isspace (char_at src len)) eqn:Hc; simpl.
    + split; [lia|]. split; [|exact Hlast].
      intros j Hj. destruct (Nat.eq_dec j len) as [->|Hne]; [exact Hc|].
      apply Hsp. lia.
    + split; [lia|]. split; [intros j Hj; lia|].
      intros r [= <-]. exact Hc.
Qed.

(** X3: [trimRight] returns the length of the text without its trailing
    white space among the first [len] characters: everything from the
    result on is white space, and the character before it is not. *)
Theorem trimRight_spec (src : string) (len : nat) :
  (trimRight src len <= len)%nat
  /\ (forall j, (trimRight src len <= j < len)%nat ->
                isspace (char_at src j) = true)
  /\ (forall r, trimRight src len = S r -> isspace (char_at src r) = false).
Proof. exact (trimRight_props src len). Qed.

Lemma trimLeft_loop_spec (src : string) (n : nat) :
  forall i : nat,
  (i <= trimLeft_loop src n i <= i + n)%nat
  /\ (forall j, (i <= j < trimLeft_loop src n i)%nat ->
                isspace (char_at src j) = true)
  /\ ((trimLeft_loop src n i < i + n)%nat ->
      isspace (char_at src (trimLeft_loop src n i)) = false).
Proof.
  induction n as [|n IH]; intros i; simpl.
  - split; [lia|]. split; intros; lia.
  - destruct (isspace (char_at src i)) eqn:Hc; simpl.
    + destruct (IH (S i)) as (Hr & Hsp & Hns).
      split; [lia|]. split.
      * intros j Hj. destruct (Nat.eq_dec j i) as [->|Hne]; [exact Hc|].
        apply Hsp. lia.
      * intros Hlt. apply Hns. lia.
    + split; [lia|]. split; [intros j Hj; lia|]. intros _. exact Hc.
Qed.

Lemma trimLeft_props (src : string) (len : nat) :
  (trimLeft src len <= len)%nat
  /\ (forall j, (j < trimLeft src len)%nat -> isspace (char_at src j) = true)
  /\ ((trimLeft src len < len)%nat ->
      isspace (char_at src (trimLeft src len)) = false).
Proof.
  unfold trimLeft. destruct (trimLeft_loop_spec src len 0) as (Hr & Hsp & Hns).
  split; [lia|]. split; [intros j Hj; apply Hsp; lia|exact Hns].
Qed.

(** X4: [trimLeft] returns the number of leading white-space characters
    among the first [len]: everything before the result is white
    space, and the character at it, if it is below [len], is not. *)
Theorem trimLeft_spec (src : string) (len : nat) :
  (trimLeft src len <= len)%nat
  /\ (forall j, (j < trimLeft src len)%nat -> isspace (char_at src j) = true)
  /\ ((trimLeft src len < len)%nat ->
      isspace (char_at src (trimLeft src len)) = false).
Proof. exact (trimLeft_props src len). Qed.

(** ** The current line (ini.h) *)

Lemma str_drop_tail (n : nat) (s : string) :
  str_drop n (str_tail s) = str_tail (str_drop n s).
Proof.
  revert s. induction n as [|n IH]; intros s; [reflexivity|].
  cbn [str_drop]. apply IH.
Qed.

Lemma str_drop_add (n m : nat) (s : string) :
  str_drop n (str_drop m s) = str_drop (m + n) s.
Proof.
  revert s. induction m as [|m IH]; intros s; [reflexivity|].
  cbn [str_drop Nat.add]. apply IH.
Qed.

Lemma char_at_str_drop (n i : nat) (s : string) :
  char_at (str_drop n s) i = char_at s (n + i).
Proof. unfold char_at. now rewrite str_drop_add. Qed.

Lemma char_at_str_take (n i : nat) (s : string) :
  (i < n)%nat -> char_at (str_take n s) i = char_at s i.
Proof.
  revert i s. induction n as [|n IH]; intros i s Hi; [lia|].
  destruct s as [|c s]; [reflexivity|]. cbn [str_take].
  destruct i as [|i]; [reflexivity|]. rewrite !char_at_S. apply IH. lia.
Qed.

Lemma trimLeft_head (src : string) (len : nat) :
  (0 < len)%nat -> isspace (char_at src 0) = false -> trimLeft src len = 0%nat.
Proof.
  intros Hlen Hc. destruct len as [|len]; [lia|].
  unfold trimLeft. cbn [trimLeft_loop]. now rewrite Hc.
Qed.

Lemma line_trimmed_props (p : IniParser) (chunk : string) :
  let '(ln, len, _) :=
    iniParserLine (snd (iniParserConsume p (Some chunk))) in
  (len = 0%nat -> ln = None)
  /\ (len <> 0%nat ->
      exists l, ln = Some l /\ (len <= String.length l)%nat
                /\ no_nul l = true
                /\ isspace (char_at l 0) = false
                /\ isspace (char_at l (len - 1)) = false
                /\ (len <= INI_MAX_LINE_SIZE)%nat).
Proof.
  pose proof (iniParserConsume_ok p (Some chunk)) as Hok.
  pose proof (stringLength_is_min chunk INI_MAX_LINE_SIZE) as Hsl.
  destruct (trimRight_props chunk (stringLength chunk INI_MAX_LINE_SIZE))
    as (Hr & _ & Hlast).
  cbn [iniParserConsume snd] in *.
  set (r := trimRight chunk (stringLength chunk INI_MAX_LINE_SIZE)) in *.
  unfold iniParserLine. cbn [line_len cursor line self file file_owned lineno].
  destruct (r =? 0)%nat eqn:Hr0.
  - apply Nat.eqb_eq in Hr0. rewrite Hr0. split; [reflexivity|congruence].
  - apply Nat.eqb_neq in Hr0. cbn [str_drop].
    destruct (trimLeft_props (str_take r chunk) r) as (Hb & Hsp & Hns).
    set (b := trimLeft (str_take r chunk) r) in *.
    destruct r as [|r'] eqn:Er; [congruence|].
    assert (Hend : isspace (char_at (str_take (S r') chunk) r') = false).
    { rewrite char_at_str_take by lia. now apply Hlast. }
    assert (Hbr : (b <= r')%nat).
    { destruct (Nat.le_gt_cases b r') as [H1|H1]; [exact H1|].
      rewrite (Hsp r' H1) in Hend. discriminate. }
    assert (Hne : (S r' - b =? 0)%nat = false) by (apply Nat.eqb_neq; lia).
    rewrite Hne. split; [lia|]. intros _.
    destruct Hok as [Hnn Hbound]. cbn [line cursor line_len] in Hnn, Hbound.
    eexists. split; [reflexivity|].
    split; [rewrite length_str_drop; lia|].
    split; [now apply no_nul_str_drop|].
    rewrite !char_at_str_drop, Nat.add_0_r.
    split; [apply Hns; lia|].
    split; [|lia].
    replace (0 + b + (S r' - b - 1))%nat with r' by lia. exact Hend.
Qed.

(** X5: the line that the scanner presents after reading a chunk is
    trimmed on both sides: if it is not empty, it begins and ends with a
    character that is not white space, holds no NUL, and is shorter than
    the line buffer. *)
Theorem current_line_trimmed (p : IniParser) (chunk : string) :
  let '(ln, len, _) :=
    iniParserLine (snd (iniParserConsume p (Some chunk))) in
  (len = 0%nat -> ln = None)
  /\ (len <> 0%nat ->
      exists l, ln = Some l /\ (len <= String.length l)%nat
                /\ no_nul l = true
                /\ isspace (char_at l 0) = false
                /\ isspace (char_at l (len - 1)) = false
                /\ (len <= INI_MAX_LINE_SIZE)%nat).
Proof. exact (line_trimmed_props p chunk). Qed.

(** X6: [iniParserLine] is idempotent: a second call returns the same
    line and length and leaves the parser as the first call left it. *)
Theorem iniParserLine_idempotent (p : IniParser) :
  let '(ln, len, p1) := iniParserLine p in
  iniParserLine p1 = (ln, len, p1).
Proof.
  unfold iniParserLine at 1.
  destruct (line_len p =? 0)%nat eqn:H0.
  - unfold iniParserLine. now rewrite H0.
  - destruct (trimLeft_props (str_drop (cursor p) (line p)) (line_len p))
      as (Hb & _ & Hns).
    set (b := trimLeft (str_drop (cursor p) (line p)) (line_len p)) in *.
    cbn [line_len cursor line].
    destruct (line_len p - b =? 0)%nat eqn:H1.
    + unfold iniParserLine. cbn [line_len]. now rewrite H1.
    + apply Nat.eqb_neq in H1.
      unfold iniParserLine. cbn [line_len cursor line self file file_owned
                                 lineno].
      assert (Hne : (line_len p - b =? 0)%nat = false)
        by (apply Nat.eqb_neq; lia).
      rewrite Hne.
      rewrite (trimLeft_head (str_drop (cursor p + b) (line p))
                 (line_len p - b)).
      * rewrite Nat.add_0_r, Nat.sub_0_r, Hne. reflexivity.
      * lia.
      * rewrite <- str_drop_add.
        rewrite char_at_str_drop, Nat.add_0_r. apply Hns. lia.
Qed.

(** ** Keys (ini.h) *)

Lemma iniParseKey_loop_result (stream : list string) :
  forall (p : IniParser) (dst : string) (maxlen n : Z) (key : string)
         (p' : IniParser) (rest : list string),
  iniParseKey_loop stream p dst maxlen = (n, key, p', rest) ->
  (exists pre, stream = (pre ++ rest)%list /\ (stream <> [] -> pre <> []))
  /\ (n = 0 -> rest = [] /\ key = dst)
  /\ (n < 0 -> key = dst
               /\ (n = INI_ERROR_CODE_OVERFLOW
                   \/ n = INI_ERROR_INVALID_SYNTAX))
  /\ (0 < n -> key_ok key n maxlen).
Proof.
  induction stream as [|chunk stream IH]; intros p dst maxlen n key p' rest.
  - simpl. intros [= <- <- <- <-]. unfold INI_ERROR_CODE_NONE.
    split; [exists []; split; [reflexivity|congruence]|].
    split; [auto|]. split; lia.
  - cbn [iniParseKey_loop].
    pose proof (line_trimmed_props p chunk) as Hline.
    destruct (iniParserLine (snd (iniParserConsume p (Some chunk))))
      as [[ln length] p2].
    destruct Hline as [Hzero Hsome].
    assert (Hpre : forall r,
               (exists pre, stream = (pre ++ r)%list
                            /\ (stream <> [] -> pre <> [])) ->
               exists pre, chunk :: stream = (pre ++ r)%list
                           /\ (chunk :: stream <> [] -> pre <> [])).
    { intros r (pre & -> & _). exists (chunk :: pre).
      split; [reflexivity|discriminate]. }
    assert (Hhere : exists pre, chunk :: stream = (pre ++ stream)%list
                                /\ (chunk :: stream <> [] -> pre <> [])).
    { exists [chunk]. split; [reflexivity|discriminate]. }
    destruct ((length =? 0)%nat || Ascii.eqb (char_at (default "" ln) 0) ";"
              || Ascii.eqb (char_at (default "" ln) 0) "#") eqn:Hskip.
    + intros Hrec. apply IH in Hrec.
      destruct Hrec as (Hsuf & Hz & Hneg & Hpos).
      split; [now apply Hpre|]. auto.
    + apply orb_false_iff in Hskip as [Hskip _].
      apply orb_false_iff in Hskip as [Hlen0 _].
      apply Nat.eqb_neq in Hlen0.
      destruct (Hsome Hlen0) as (l & -> & Hll & Hnn & Hfirst & Hlast & _).
      change (default "" (Some l)) with l.
      set (sep := lookupChar l length "=").
      destruct (sep <? 2) eqn:Hsep.
      * intros [= <- <- <- <-]. unfold INI_ERROR_INVALID_SYNTAX.
        split; [exact Hhere|]. split; [lia|]. split; [auto|lia].
      * apply Z.ltb_ge in Hsep.
        destruct (lookupChar_range l length "=") as [Hm|Hr];
          fold sep in Hm || fold sep in Hr; [lia|].
        destruct (lookupChar_props l length "=") as [_ Hocc].
        destruct (proj1 (Hocc (Z.to_nat sep))) as (Hk & Hck & Hbefore);
          [fold sep; lia|].
        destruct (trimRight_props l (Z.to_nat sep)) as (Htr & Hsp & Hend).
        set (klen := trimRight l (Z.to_nat sep)) in *.
        assert (Hk1 : (1 <= klen)%nat).
        { destruct klen as [|k']; [|lia].
          rewrite (Hsp 0%nat) in Hfirst by lia. discriminate. }
        destruct (Z.of_nat klen >? maxlen) eqn:Hov.
        -- intros [= <- <- <- <-]. unfold INI_ERROR_CODE_OVERFLOW.
           split; [exact Hhere|]. split; [lia|]. split; [auto|lia].
        -- intros [= <- <- <- <-].
           rewrite (strncpy_no_nul _ _ Hnn).
           split; [exact Hhere|]. split; [lia|]. split; [lia|].
           intros _. unfold key_ok.
           rewrite length_str_take by lia.
           split; [reflexivity|]. split; [lia|].
           split; [now apply no_nul_str_take|].
           split; [rewrite char_at_str_take by lia; exact Hfirst|].
           split.
           ++ rewrite char_at_str_take by lia.
              destruct klen as [|k'] eqn:Ek; [lia|].
              replace (S k' - 1)%nat with k' by lia. now apply Hend.
           ++ intros j Hj. rewrite char_at_str_take by lia.
              apply Hbefore. lia.
Qed.

(** X7: a key that [iniParseKey] returns has the returned length, fits
    the buffer with its terminator, holds no NUL and no [=], and begins
    and ends with a character that is not white space. *)
Theorem iniParseKey_key_well_formed (w : World) (p : IniParser) (dst : string)
    (maxlen n : Z) (key : string) (p' : IniParser) (w' : World) :
  iniParseKey w p dst maxlen = (n, key, p', w') -> 0 < n ->
  key_ok key n (maxlen - 1).
Proof.
  unfold iniParseKey.
  destruct (iniParseKey_loop _ _ _ _) as [[[n0 k0] p0] rest] eqn:Hloop.
  intros [= <- <- <- <-] Hn.
  apply iniParseKey_loop_result in Hloop. now apply Hloop.
Qed.

(** X8: [iniParseKey] reads at least one chunk of a stream that is not
    at its end and leaves a suffix of it unread; it returns zero only
    when the stream is read to its end, and then, as for its error
    codes -1 and -2, the key buffer is as it was. *)
Theorem iniParseKey_progress (w : World) (p : IniParser) (dst : string)
    (maxlen n : Z) (key : string) (p' : IniParser) (w' : World) :
  iniParseKey w p dst maxlen = (n, key, p', w') ->
  (exists pre, unread w p = (pre ++ unread w' p')%list
               /\ (unread w p <> [] -> pre <> []))
  /\ (n = 0 -> unread w' p' = [])
  /\ (n <= 0 -> key = dst /\ -2 <= n).
Proof.
  unfold iniParseKey.
  destruct (iniParseKey_loop _ _ _ _) as [[[n0 k0] p0] rest] eqn:Hloop.
  intros [= <- <- <- <-].
  pose proof (iniParseKey_loop_ok _ _ _ _ _ _ _ _ Hloop) as (_ & _ & Hf & _).
  apply iniParseKey_loop_result in Hloop.
  destruct Hloop as ((pre & Hpre & Hne) & Hz & Hneg & _).
  assert (Hun : unread (set_unread w p0 rest) p0 = rest).
  { unfold unread, set_unread. cbn [streams with_streams].
    rewrite lookup_alter_eq. rewrite Hf.
    destruct (streams w !! file p) as [s|] eqn:Hs; [reflexivity|].
    cbn. unfold unread in Hpre. rewrite Hs in Hpre. cbn in Hpre.
    destruct pre; [exact Hpre|discriminate]. }
  rewrite Hun. split; [exists pre; auto|].
  split; [intros H0; now apply Hz|].
  intros Hn0. destruct (Z.eq_dec n0 0) as [->|Hnz].
  - split; [now apply Hz|lia].
  - destruct (Hneg ltac:(lia)) as (Hk & Hc). split; [exact Hk|].
    unfold INI_ERROR_CODE_OVERFLOW, INI_ERROR_INVALID_SYNTAX in Hc. lia.
Qed.

(** ** Comments and blank lines (ini.h) *)

Lemma count_space_spec (s : string) :
  (forall j, (j < count_space s)%nat -> isspace (char_at s j) = true)
  /\ isspace (char_at s (count_space s)) = false.
Proof.
  induction s as [|c s (Hsp & Hns)]; cbn [count_space].
  - split; [intros j Hj; lia|reflexivity].
  - destruct (isspace c) eqn:Hc.
    + split; [|rewrite char_at_S; exact Hns].
      intros [|j] Hj; [exact Hc|]. rewrite char_at_S. apply Hsp. lia.
    + split; [intros j Hj; lia|exact Hc].
Qed.

Lemma comment_or_blank_skipped (p : IniParser) (chunk : string) :
  comment_or_blank chunk = true ->
  let '(ln, len, _) :=
    iniParserLine (snd (iniParserConsume p (Some chunk))) in
  (len =? 0)%nat || Ascii.eqb (char_at (default "" ln) 0) ";"
  || Ascii.eqb (char_at (default "" ln) 0) "#" = true.
Proof.
  intros Hcb.
  pose proof (stringLength_is_min chunk INI_MAX_LINE_SIZE) as Hsl.
  destruct (trimRight_props chunk (stringLength chunk INI_MAX_LINE_SIZE))
    as (Hr & _ & _).
  cbn [iniParserConsume snd].
  set (r := trimRight chunk (stringLength chunk INI_MAX_LINE_SIZE)) in *.
  unfold iniParserLine. cbn [line_len cursor line self file file_owned lineno].
  destruct (r =? 0)%nat eqn:Hr0; [now rewrite Hr0|].
  apply Nat.eqb_neq in Hr0. cbn [str_drop].
  destruct (trimLeft_props (str_take r chunk) r) as (Hb & Hsp & Hns).
  set (b := trimLeft (str_take r chunk) r) in *.
  destruct (r - b =? 0)%nat eqn:Hrb; [cbn [line_len]; now rewrite Hrb|].
  cbn [line_len]. rewrite Hrb. apply Nat.eqb_neq in Hrb. cbn [orb].
  change (default "" (Some (str_drop (0 + b) (str_take r chunk))))
    with (str_drop (0 + b) (str_take r chunk)).
  rewrite char_at_str_drop, Nat.add_0_r. cbn [Nat.add].
  rewrite char_at_str_take by lia.
  destruct (count_space_spec chunk) as (Hcs & Hcn).
  assert (Hbc : b = count_space chunk).
  { destruct (Nat.lt_trichotomy b (count_space chunk)) as [Hlt|[Heq|Hgt]];
      [|exact Heq|].
    - specialize (Hns ltac:(lia)). rewrite char_at_str_take in Hns by lia.
      rewrite (Hcs b Hlt) in Hns. discriminate.
    - specialize (Hsp (count_space chunk) Hgt).
      rewrite char_at_str_take in Hsp by lia.
      rewrite Hsp in Hcn. discriminate. }
  rewrite Hbc. unfold comment_or_blank in Hcb. unfold char_at.
  destruct (str_drop (count_space chunk) chunk) as [|c t] eqn:Ht.
  - exfalso.
    assert (Hin : (b < strlen chunk)%nat) by lia.
    apply (char_at_lt_strlen chunk b Hin).
    rewrite Hbc. unfold char_at. now rewrite Ht.
  - exact Hcb.
Qed.

Lemma iniParseKey_loop_comments (stream : list string) :
  forall (p : IniParser) (dst : string) (maxlen : Z),
  Forall (fun chunk => comment_or_blank chunk = true) stream ->
  exists p', iniParseKey_loop stream p dst maxlen
             = (INI_ERROR_CODE_NONE, dst, p', []).
Proof.
  induction stream as [|chunk stream IH]; intros p dst maxlen Hall.
  - eexists. reflexivity.
  - inversion Hall as [|? ? Hc Hrest]; subst.
    cbn [iniParseKey_loop].
    pose proof (comment_or_blank_skipped p chunk Hc) as Hskip.
    destruct (iniParserLine (snd (iniParserConsume p (Some chunk))))
      as [[ln length] p2].
    rewrite Hskip. apply IH, Hrest.
Qed.

Lemma text_lines_nonempty (s : string) :
  Forall (fun l => l <> "") (text_lines s).
Proof.
  induction s as [|c s IH]; cbn [text_lines]; [constructor|].
  destruct (Ascii.eqb c newline); [constructor; [discriminate|exact IH]|].
  destruct (text_lines s) as [|l ls]; [repeat constructor; discriminate|].
  inversion IH; subst. constructor; [discriminate|assumption].
Qed.

Lemma text_lines_nil (s : string) : text_lines s = [] -> s = "".
Proof.
  destruct s as [|c s]; [reflexivity|]. cbn [text_lines].
  destruct (Ascii.eqb c newline); [discriminate|].
  destruct (text_lines s); discriminate.
Qed.

(** A text whose lines all fit the buffer is read line by line. *)
Lemma fgets_chunks_lines (cap : nat) (s : string) :
  forall room : nat,
  (1 <= room <= cap)%nat ->
  match text_lines s with
  | [] => True
  | l :: ls =>
      (String.length l <= room)%nat
      /\ Forall (fun l' => (String.length l' <= cap)%nat) ls
  end ->
  fgets_chunks cap room s = text_lines s.
Proof.
  induction s as [|c s IH]; intros room Hroom Hfit; [reflexivity|].
  cbn [fgets_chunks text_lines] in *.
  destruct (Ascii.eqb c newline) eqn:Hc.
  - cbn [orb]. destruct Hfit as [_ Hrest]. f_equal.
    apply IH; [lia|].
    destruct (text_lines s) as [|l ls]; [exact I|].
    inversion Hrest; subst. split; assumption.
  - cbn [orb].
    pose proof (text_lines_nonempty s) as Hne.
    destruct (room <=? 1)%nat eqn:Hr.
    + apply Nat.leb_le in Hr.
      destruct (text_lines s) as [|l ls] eqn:Hl.
      * apply text_lines_nil in Hl. subst s. reflexivity.
      * exfalso. destruct Hfit as [Hlen _]. cbn [String.length] in Hlen.
        inversion Hne as [|? ? Hl0 _]; subst.
        destruct l; [congruence|]. cbn [String.length] in Hlen. lia.
    + apply Nat.leb_gt in Hr.
      rewrite (IH (room - 1)%nat); [reflexivity|lia|].
      destruct (text_lines s) as [|l ls]; [exact I|].
      destruct Hfit as [Hlen Hrest]. cbn [String.length] in Hlen.
      split; [lia|exact Hrest].
Qed.

Lemma stream_of_lines (content : string) :
  Forall (fun l => (String.length l <= INI_MAX_LINE_SIZE - 1)%nat)
    (text_lines content) ->
  stream_of content = text_lines content.
Proof.
  intros Hall. unfold stream_of. apply fgets_chunks_lines.
  - unfold INI_MAX_LINE_SIZE. lia.
  - destruct (text_lines content) as [|l ls]; [exact I|].
    inversion Hall; subst. split; assumption.
Qed.

Section Comments.

Context `{Libc}.

(** X9: a file in which every line, with its newline, has at most 511
    characters, so that it is read in one piece, and is blank or a
    comment yields no key: [iniParseKey] reads it to its end and returns
    zero with the key buffer as it was, and merging it returns true
    with the flag set, the destinations and the allocated blocks as
    they were. *)
Theorem comments_only_file (fuel : nat) (fs : FlagSet) (w : World)
    (filename content : string) :
  files w !! filename = Some content ->
  Forall (fun l => (String.length l <= INI_MAX_LINE_SIZE - 1)%nat
                   /\ comment_or_blank l = true) (text_lines content) ->
  stream_of content = text_lines content
  /\ (forall (w0 : World) (p : IniParser) (dst : string) (maxlen : Z),
        unread w0 p = stream_of content ->
        exists p' w', iniParseKey w0 p dst maxlen = (0, dst, p', w')
                      /\ unread w' p' = [])
  /\ exists w', parseIniConfig (S fuel) fs w filename = (Ret true, fs, w')
                /\ mem w' = mem w /\ blocks w' = blocks w.
Proof.
  intros Hfile Hlines.
  assert (Hstream : stream_of content = text_lines content).
  { apply stream_of_lines. eapply Forall_impl; [exact Hlines|]. now intros l []. }
  assert (Hall : Forall (fun chunk => comment_or_blank chunk = true)
                   (stream_of content)).
  { rewrite Hstream. eapply Forall_impl; [exact Hlines|]. now intros l []. }
  split; [exact Hstream|]. split.
  - intros w0 p dst maxlen Hun. unfold iniParseKey. rewrite Hun.
    destruct (iniParseKey_loop_comments (stream_of content) p dst
                (maxlen - 1) Hall) as [p' Hloop].
    rewrite Hloop. eexists _, _. split; [reflexivity|].
    pose proof (iniParseKey_loop_ok _ _ _ _ _ _ _ _ Hloop) as (_ & _ & Hf & _).
    unfold unread, set_unread. cbn [streams with_streams].
    rewrite lookup_alter_eq, Hf.
    unfold unread in Hun.
    destruct (streams w0 !! file p); reflexivity.
  - unfold parseIniConfig, parseIniConfig_with, iniParserOpen, fopen.
    rewrite Hfile. cbn [parseIniConfig_loop].
    unfold iniParseKey at 1.
    set (w1 := emit (emit _ _) _).
    set (p1 := {| self := _ |}).
    assert (Hun : unread w1 p1 = stream_of content).
    { unfold unread. subst w1 p1. cbn [file streams emit with_streams].
      now rewrite lookup_insert_eq. }
    rewrite Hun.
    destruct (iniParseKey_loop_comments (stream_of content) p1 ""
                (Z.of_nat FLAGS_FLAG_MAX_LEN - 1) Hall) as [p' Hloop].
    rewrite Hloop. cbn [Z.gtb Z.compare INI_ERROR_CODE_NONE].
    eexists. split; [reflexivity|]. split; reflexivity.
Qed.

End Comments.

Lemma comments_only_file_witness :
  files (with_file w_demo "a.ini" ("# one" ++ nl ++ nl ++ "  ; two" ++ nl))
    !! "a.ini" = Some ("# one" ++ nl ++ nl ++ "  ; two" ++ nl)
  /\ Forall (fun l => (String.length l <= INI_MAX_LINE_SIZE - 1)%nat
                      /\ comment_or_blank l = true)
       (text_lines ("# one" ++ nl ++ nl ++ "  ; two" ++ nl))
  /\ exists w',
       parseIniConfig 1 fs_demo
         (with_file w_demo "a.ini" ("# one" ++ nl ++ nl ++ "  ; two" ++ nl))
         "a.ini" = (Ret true, fs_demo, w').
Proof.
  assert (Hf : files (with_file w_demo "a.ini"
                        ("# one" ++ nl ++ nl ++ "  ; two" ++ nl))
               !! "a.ini" = Some ("# one" ++ nl ++ nl ++ "  ; two" ++ nl))
    by (vm_compute; reflexivity).
  assert (Hall : Forall (fun l => (String.length l <= INI_MAX_LINE_SIZE - 1)%nat
                                  /\ comment_or_blank l = true)
                   (text_lines ("# one" ++ nl ++ nl ++ "  ; two" ++ nl))).
  { assert (Hl : text_lines ("# one" ++ nl ++ nl ++ "  ; two" ++ nl)
                 = ["# one" ++ nl; nl; "  ; two" ++ nl])
      by (vm_compute; reflexivity).
    rewrite Hl.
    repeat (constructor; [split; [vm_compute; lia|reflexivity]|]).
    constructor. }
  split; [exact Hf|]. split; [exact Hall|].
  destruct (proj2 (proj2 (comments_only_file 0 fs_demo _ _ _ Hf Hall)))
    as (w' & Hr & _).
  exists w'. exact Hr.
Defined.

(** ** Values (ini.h) *)

(** X10: after a key, [iniParseValue] writes a value shorter than
    [maxlen]: the returned length is between 0 and [maxlen - 1], and a
    value of a length other than 0 is a C string of exactly that
    length. Reading a pair touches no destination and releases nothing. *)
Theorem iniParseValue_bounded (w : World) (p : IniParser) (dst dst' : string)
    (kmax vmax n vlen : Z) (key v : string) (p1 p2 : IniParser)
    (w1 w2 : World) :
  iniParseKey w p dst kmax = (n, key, p1, w1) ->
  1 <= vmax ->
  iniParseValue w1 p1 dst' vmax = (vlen, v, p2, w2) ->
  0 <= vlen <= vmax - 1
  /\ (vlen <> 0 -> vlen = Z.of_nat (String.length v) /\ no_nul v = true)
  /\ mem w2 = mem w /\ blocks w2 = blocks w /\ events w2 = events w.
Proof.
  intros Hkey Hmax Hval.
  apply iniParseKey_ok in Hkey.
  destruct Hkey as (Hok & _ & _ & _ & _ & Hm & Hb & He & _).
  apply iniParseValue_ok in Hval; [|exact Hok|exact Hmax].
  destruct Hval as (Hr & Hlen & _ & _ & _ & Hm' & Hb' & He' & _).
  split; [exact Hr|]. split; [exact Hlen|].
  repeat split; congruence.
Qed.

Lemma iniParseValue_bounded_witness :
  exists p1 w1 p2 w2,
    iniParseKey (opened "a.ini" ("name = alice" ++ nl)).2
      (opened "a.ini" ("name = alice" ++ nl)).1 "" 64
    = (4, "name", p1, w1)
    /\ 1 <= 4
    /\ iniParseValue w1 p1 "" 4 = (3, "ali", p2, w2)
    /\ 0 <= 3 <= 4 - 1.
Proof.
  assert (Hmax : 1 <= 4) by lia.
  pose (k := iniParseKey (opened "a.ini" ("name = alice" ++ nl)).2
               (opened "a.ini" ("name = alice" ++ nl)).1 "" 64).
  pose (r := iniParseValue k.2 k.1.2 "" 4).
  exists k.1.2, k.2, r.1.2, r.2.
  assert (Hk : iniParseKey (opened "a.ini" ("name = alice" ++ nl)).2
                 (opened "a.ini" ("name = alice" ++ nl)).1 "" 64
               = (4, "name", k.1.2, k.2)) by (vm_compute; reflexivity).
  assert (Hv : iniParseValue k.2 k.1.2 "" 4 = (3, "ali", r.1.2, r.2))
    by (vm_compute; reflexivity).
  split; [exact Hk|]. split; [exact Hmax|]. split; [exact Hv|].
  exact (proj1 (iniParseValue_bounded _ _ _ _ _ _ _ _ _ _ _ _ _ _
                  Hk Hmax Hv)).
Defined.

Lemma iniParseKey_key_well_formed_witness :
  exists p1 w1,
    iniParseKey (opened "a.ini" ("name = alice" ++ nl)).2
      (opened "a.ini" ("name = alice" ++ nl)).1 "" 64
    = (4, "name", p1, w1)
    /\ 0 < 4 /\ key_ok "name" 4 (64 - 1).
Proof.
  assert (Hn : 0 < 4) by lia.
  pose (k := iniParseKey (opened "a.ini" ("name = alice" ++ nl)).2
               (opened "a.ini" ("name = alice" ++ nl)).1 "" 64).
  exists k.1.2, k.2.
  assert (Hk : iniParseKey (opened "a.ini" ("name = alice" ++ nl)).2
                 (opened "a.ini" ("name = alice" ++ nl)).1 "" 64
               = (4, "name", k.1.2, k.2)) by (vm_compute; reflexivity).
  split; [exact Hk|]. split; [exact Hn|].
  exact (iniParseKey_key_well_formed _ _ _ _ _ _ _ _ Hk Hn).
Defined.

Lemma iniParseKey_progress_witness :
  exists p1 w1,
    iniParseKey (opened "a.ini" ("=oops" ++ nl ++ "name = alice" ++ nl)).2
      (opened "a.ini" ("=oops" ++ nl ++ "name = alice" ++ nl)).1 "kept" 64
    = (-2, "kept", p1, w1)
    /\ (-2 <= 0 -> "kept" = "kept" /\ -2 <= -2).
Proof.
  pose (k := iniParseKey
               (opened "a.ini" ("=oops" ++ nl ++ "name = alice" ++ nl)).2
               (opened "a.ini" ("=oops" ++ nl ++ "name = alice" ++ nl)).1
               "kept" 64).
  exists k.1.2, k.2.
  assert (Hk : iniParseKey
                 (opened "a.ini" ("=oops" ++ nl ++ "name = alice" ++ nl)).2
                 (opened "a.ini" ("=oops" ++ nl ++ "name = alice" ++ nl)).1
                 "kept" 64
               = (-2, "kept", k.1.2, k.2)) by (vm_compute; reflexivity).
  split; [exact Hk|].
  exact (proj2 (proj2 (iniParseKey_progress _ _ _ _ _ _ _ _ Hk))).
Defined.

(** ** What parsing keeps (flag.h) *)

Lemma first_flag_In (p : Flag -> bool) (l : list Flag) (f : Flag) :
  first_flag p l = Some f -> In f l.
Proof.
  induction l as [|g l IH]; simpl; [discriminate|].
  destruct (p g); [intros [= ->]; now left|]. intros Hf. right. now apply IH.
Qed.

Lemma lookupFlag_In (fs : FlagSet) (flag : string) (f : Flag) :
  lookupFlag fs flag = Some f -> In f (flags fs).
Proof.
  unfold lookupFlag.
  destruct (_ || _); [discriminate|].
  destruct (Ascii.eqb (char_at flag 1) "-"); [apply first_flag_In|].
  destruct (strlen flag =? 2)%nat; [apply first_flag_In|discriminate].
Qed.

Lemma lookupConfigFlag_In (fs : FlagSet) (flag : string) (f : Flag) :
  lookupConfigFlag fs flag = Some f -> In f (flags fs).
Proof.
  unfold lookupConfigFlag.
  destruct (strlen flag <? 1)%nat; [discriminate|apply first_flag_In].
Qed.

Lemma parse_post_refl (fs : FlagSet) (w : World) (o : Outcome) :
  o <> Ret false -> parse_post fs w (o, fs, w).
Proof.
  intros Ho. split; [auto|]. split; [reflexivity|].
  destruct o as [[|]| | |]; congruence.
Qed.

Lemma parse_post_error (fs : FlagSet) (w w' : World) (c : FlagErrorCode)
    (nm : string) :
  mem w' = mem w -> files w' = files w -> c <> FLAG_ERROR_CODE_NONE ->
  (ignore_unknown fs = true ->
   c <> FLAG_ERROR_CODE_UNKNOWN /\ c <> FLAG_ERROR_CODE_HELP) ->
  parse_post fs w (Ret false, setError fs c nm, w').
Proof.
  intros Hm Hf Hc Hi. split; [intros a _; now rewrite Hm|].
  split; [exact Hf|]. eauto.
Qed.

(** Going on from a world in which a destination of a registered flag
    was written, or nothing was. *)
Lemma parse_post_step (fs : FlagSet) (w w1 : World) (r : Res) :
  (forall a : addr,
     (forall f, In f (flags fs) -> ptr f <> a) -> mem w1 !! a = mem w !! a) ->
  files w1 = files w ->
  parse_post fs w1 r -> parse_post fs w r.
Proof.
  destruct r as [[o fs'] w']. intros Hm Hf (Hm' & Hf' & Ho).
  split; [|split; [congruence|exact Ho]].
  intros a Ha. rewrite (Hm' a Ha). now apply Hm.
Qed.

Lemma store_frame (fs : FlagSet) (w : World) (conf : Flag) (c : Cell) :
  In conf (flags fs) ->
  forall a : addr,
    (forall f, In f (flags fs) -> ptr f <> a) ->
    mem (store w (ptr conf) c) !! a = mem w !! a.
Proof.
  intros Hin a Ha. cbn [mem store].
  apply lookup_insert_ne. now apply Ha.
Qed.

Section Keeps.

Context `{Libc}.

Lemma coerceArg_store (w : World) (conf : Flag) (value : string) (i : nat)
    (w' : World) :
  coerceArg w conf value i = Some w' -> exists c, w' = store w (ptr conf) c.
Proof.
  unfold coerceArg. destruct (type conf).
  - intros [= <-]. eauto.
  - intros [= <-]. eauto.
  - destruct (strtol value) as [r e]. destruct (_ || _); [discriminate|].
    intros [= <-]. eauto.
  - destruct (strtof value) as [r e]. destruct (e =? 0)%nat; [discriminate|].
    intros [= <-]. eauto.
  - destruct (strtod value) as [r e]. destruct (e =? 0)%nat; [discriminate|].
    intros [= <-]. eauto.
  - destruct (strptime value FLAGS_TIME_FMT tm_zero) as [e r].
    destruct (bool_decide _); [discriminate|]. intros [= <-]. eauto.
Qed.

Lemma coerceConfig_store (w : World) (conf : Flag) (buf : string)
    (value_len : Z) (w' : World) :
  coerceConfig w conf buf value_len = Some w' ->
  (exists c, mem w' = <[ptr conf := c]> (mem w))
  /\ files w' = files w /\ streams w' = streams w /\ events w' = events w.
Proof.
  unfold coerceConfig. destruct (type conf).
  - destruct (_ =? 0); [intros [= <-]; cbn; eauto|].
    destruct (_ =? 0); [intros [= <-]; cbn; eauto|discriminate].
  - unfold stringDuplicate. intros [= <-]. cbn. eauto.
  - destruct (strtol buf) as [r e]. destruct (_ || _); [discriminate|].
    intros [= <-]. cbn. eauto.
  - destruct (strtof buf) as [r e]. destruct (e =? 0)%nat; [discriminate|].
    intros [= <-]. cbn. eauto.
  - destruct (strtod buf) as [r e]. destruct (e =? 0)%nat; [discriminate|].
    intros [= <-]. cbn. eauto.
  - destruct (strptime buf FLAGS_TIME_FMT tm_zero) as [e r].
    destruct (bool_decide _); [discriminate|]. intros [= <-]. cbn. eauto.
Qed.

Lemma iniParserOpen_keeps (w : World) (filename : string)
    (p : option IniParser) (w1 : World) :
  iniParserOpen w filename = (p, w1) -> mem w1 = mem w /\ files w1 = files w.
Proof.
  unfold iniParserOpen, fopen.
  destruct (files w !! filename); intros [= <- <-]; split; reflexivity.
Qed.

Lemma files_iniParserFree (w : World) (p : option IniParser) :
  files (iniParserFree w p) = files w.
Proof. destruct p as [p|]; [|reflexivity]. simpl. now destruct (file_owned p). Qed.

Lemma parseIniConfig_loop_post (fuel : nat) :
  forall (fs : FlagSet) (w : World) (parser : IniParser) (buf : string),
  parse_post fs w (parseIniConfig_loop fuel fs w parser buf)
  /\ match parseIniConfig_loop fuel fs w parser buf with
     | (Ret false, fs', _) => error_code fs' <> FLAG_ERROR_CODE_HELP
     | _ => True
     end.
Proof.
  assert (Hbuf : 1 <= CONFIG_BUFFER_SIZE) by (unfold CONFIG_BUFFER_SIZE; lia).
  induction fuel as [|fuel IH]; intros fs w parser buf.
  - split; [now apply parse_post_refl|exact I].
  - cbn [parseIniConfig_loop].
    destruct (iniParseKey w parser buf (Z.of_nat FLAGS_FLAG_MAX_LEN))
      as [[[n key] p1] w1] eqn:Hkey.
    pose proof (iniParseKey_ok _ _ _ _ _ _ _ _ Hkey)
      as (Hok1 & _ & _ & _ & _ & Hm1 & _ & _ & Hf1).
    assert (Hstep1 : forall r, parse_post fs w1 r -> parse_post fs w r).
    { intros r. apply parse_post_step;
        [intros a _; now rewrite Hm1|exact Hf1]. }
    destruct (n >? 0).
    2:{ split; [|exact I]. apply Hstep1. now apply parse_post_refl. }
    destruct (match config_flag_name fs with
              | Some cname => strcmp cname key =? 0
              | None => false
              end).
    + destruct (iniParseValue w1 p1 key CONFIG_BUFFER_SIZE)
        as [[[vlen v] p2] w2] eqn:Hval.
      pose proof (iniParseValue_ok _ _ _ _ _ _ _ _ Hok1
                    Hbuf Hval)
        as (_ & _ & _ & _ & _ & Hm2 & _ & _ & Hf2).
      assert (Hstep2 : forall r, parse_post fs w2 r -> parse_post fs w r).
      { intros r Hr. apply Hstep1.
        revert Hr. apply parse_post_step;
          [intros a _; now rewrite Hm2|exact Hf2]. }
      destruct (vlen =? 0).
      * split; [|discriminate]. apply Hstep2. apply parse_post_error.
        -- apply mem_iniParserFree.
        -- apply files_iniParserFree.
        -- discriminate.
        -- intros _. split; discriminate.
      * unfold parseIniConfig_with.
        destruct (iniParserOpen w2 v) as [[p3|] w3] eqn:Hopen;
          pose proof (iniParserOpen_keeps _ _ _ _ Hopen) as [Hm3 Hf3].
        -- destruct (IH fs w3 p3 "") as [Hpost Hhelp].
           destruct (parseIniConfig_loop fuel fs w3 p3 "")
             as [[o fs3] w4] eqn:Hnested.
           assert (Hstep3 : forall r, parse_post fs w4 r -> parse_post fs w r).
           { intros r Hr. apply Hstep2.
             apply (parse_post_step fs w2 w3);
               [intros a _; now rewrite Hm3|exact Hf3|].
             destruct Hpost as (Hm4 & Hf4 & _).
             revert Hr. now apply parse_post_step. }
           destruct o as [[|]| | |].
           ++ destruct Hpost as (_ & _ & ->).
              destruct (IH fs w4 p2 "") as [Hpost' Hhelp'].
              split; [now apply Hstep3|exact Hhelp'].
           ++ split; [|exact Hhelp]. apply Hstep2.
              apply (parse_post_step fs w2 w3);
                [intros a _; now rewrite Hm3|exact Hf3|exact Hpost].
           ++ split; [|exact I]. apply Hstep2.
              apply (parse_post_step fs w2 w3);
                [intros a _; now rewrite Hm3|exact Hf3|exact Hpost].
           ++ split; [|exact I]. apply Hstep2.
              apply (parse_post_step fs w2 w3);
                [intros a _; now rewrite Hm3|exact Hf3|exact Hpost].
           ++ split; [|exact I]. apply Hstep2.
              apply (parse_post_step fs w2 w3);
                [intros a _; now rewrite Hm3|exact Hf3|exact Hpost].
        -- destruct (config_flag_name fs) as [cname|].
           ++ split; [|discriminate]. apply Hstep2. apply parse_post_error;
                [exact Hm3|exact Hf3|discriminate|].
              intros _. split; discriminate.
           ++ split; [|exact I]. apply Hstep2.
              apply (parse_post_step fs w2 w3);
                [intros a _; now rewrite Hm3|exact Hf3|].
              now apply parse_post_refl.
    + destruct (lookupConfigFlag fs key) as [conf|] eqn:Hlook.
      * destruct (iniParseValue w1 p1 "" CONFIG_BUFFER_SIZE)
          as [[[vlen v] p2] w2] eqn:Hval.
        pose proof (iniParseValue_ok _ _ _ _ _ _ _ _ Hok1
                      Hbuf Hval)
          as (_ & _ & _ & _ & _ & Hm2 & _ & _ & Hf2).
        assert (Hstep2 : forall r, parse_post fs w2 r -> parse_post fs w r).
        { intros r Hr. apply Hstep1.
          revert Hr. apply parse_post_step;
            [intros a _; now rewrite Hm2|exact Hf2]. }
        destruct (vlen =? 0).
        -- split; [|discriminate]. apply Hstep2. apply parse_post_error.
           ++ apply mem_iniParserFree.
           ++ apply files_iniParserFree.
           ++ discriminate.
           ++ intros _. split; discriminate.
        -- destruct (coerceConfig w2 conf v vlen) as [w3|] eqn:Hco.
           ++ apply coerceConfig_store in Hco.
              destruct Hco as ((c & Hm3) & Hf3 & _).
              destruct (IH fs w3 p2 "") as [Hpost Hhelp].
              split; [|exact Hhelp]. apply Hstep2.
              revert Hpost. apply parse_post_step; [|exact Hf3].
              intros a Ha. rewrite Hm3. apply lookup_insert_ne.
              apply Ha. now apply (lookupConfigFlag_In fs key).
           ++ split; [|discriminate]. apply Hstep2. apply parse_post_error.
              ** apply mem_iniParserFree.
              ** apply files_iniParserFree.
              ** discriminate.
              ** intros _. split; discriminate.
      * destruct (ignore_unknown fs) eqn:Hign.
        -- destruct (IH fs w1 p1 "") as [Hpost Hhelp].
           split; [now apply Hstep1|exact Hhelp].
        -- split; [|discriminate]. apply Hstep1. apply parse_post_error.
           ++ apply mem_iniParserFree.
           ++ apply files_iniParserFree.
           ++ discriminate.
           ++ congruence.
Qed.

End Keeps.







Section Heap.

Context `{Libc}.






End Heap.

Section KeepsArgs.

Context `{Libc}.

Lemma parseIniConfig_post (fuel : nat) (fs : FlagSet) (w : World)
    (filename : string) :
  parse_post fs w (parseIniConfig fuel fs w filename).
Proof.
  unfold parseIniConfig, parseIniConfig_with.
  destruct (iniParserOpen w filename) as [[p|] w1] eqn:Hopen;
    pose proof (iniParserOpen_keeps _ _ _ _ Hopen) as [Hm Hf].
  - apply (parse_post_step fs w w1); [intros a _; now rewrite Hm|exact Hf|].
    apply parseIniConfig_loop_post.
  - destruct (config_flag_name fs).
    + apply parse_post_error; [exact Hm|exact Hf|discriminate|].
      intros _. split; discriminate.
    + apply (parse_post_step fs w w1); [intros a _; now rewrite Hm|exact Hf|].
      now apply parse_post_refl.
Qed.

Lemma flagSetParse_loop_post (fuel : nat) (k : nat) :
  forall (args : list string) (fs : FlagSet) (w : World) (i : nat),
  (List.length args <= k)%nat ->
  parse_post fs w (flagSetParse_loop fuel fs w args i).
Proof.
  induction k as [|k IH]; intros args fs w i Hk.
  - destruct args; [|simpl in Hk; lia]. now apply parse_post_refl.
  - destruct args as [|flag args1]; [now apply parse_post_refl|].
    cbn [flagSetParse_loop]. cbn [List.length] in Hk.
    destruct (isConfigFlag fs flag).
    + destruct args1 as [|filename args2].
      * apply parse_post_error; try reflexivity; [discriminate|].
        intros _. split; discriminate.
      * pose proof (parseIniConfig_post fuel fs w filename) as Hpost.
        destruct (parseIniConfig fuel fs w filename) as [[o fs1] w1].
        destruct o as [[|]| | |]; try exact Hpost.
        destruct Hpost as (Hm & Hf & ->).
        apply (parse_post_step fs w w1); [exact Hm|exact Hf|].
        apply IH. cbn [List.length] in Hk. lia.
    + destruct (lookupFlag fs flag) as [conf|] eqn:Hlook.
      * pose proof (lookupFlag_In _ _ _ Hlook) as Hin.
        assert (Hbool : parse_post fs w
                  (flagSetParse_loop fuel fs (store w (ptr conf) (CBool true))
                     args1 (i + 1))).
        { apply (parse_post_step fs w (store w (ptr conf) (CBool true)));
            [now apply store_frame|reflexivity|].
          apply IH. lia. }
        assert (Hval : parse_post fs w
                  match args1 with
                  | [] =>
                      (Ret false,
                       setError fs FLAG_ERROR_CODE_MISSING_VALUE (name conf),
                       w)
                  | value :: args2 =>
                      match coerceArg w conf value (i + 1) with
                      | None =>
                          (Ret false,
                           setError fs FLAG_ERROR_CODE_INVALID_VALUE
                             (name conf), w)
                      | Some w0 => flagSetParse_loop fuel fs w0 args2 (i + 2)
                      end
                  end).
        { destruct args1 as [|value args2].
          - apply parse_post_error; try reflexivity; [discriminate|].
            intros _. split; discriminate.
          - destruct (coerceArg w conf value (i + 1)) as [w0|] eqn:Hco.
            + apply coerceArg_store in Hco as [c ->].
              apply (parse_post_step fs w (store w (ptr conf) c));
                [now apply store_frame|reflexivity|].
              apply IH. cbn [List.length] in Hk. lia.
            + apply parse_post_error; try reflexivity; [discriminate|].
              intros _. split; discriminate. }
        destruct (type conf); assumption.
      * destruct (ignore_unknown fs) eqn:Hign.
        -- apply IH. lia.
        -- destruct (isHelpFlag flag);
             (apply parse_post_error; try reflexivity; [discriminate|congruence]).
Qed.

Lemma flagSetParse_post (fuel : nat) (fs : FlagSet) (w : World)
    (argv : list string) :
  parse_post fs w (flagSetParse fuel fs w argv).
Proof.
  destruct argv as [|prog args]; [now apply parse_post_refl|].
  cbn [flagSetParse]. now apply (flagSetParse_loop_post fuel (List.length args)).
Qed.

Lemma length_str_take_le (n : nat) (s : string) :
  (String.length (str_take n s) <= n)%nat.
Proof.
  revert s. induction n as [|n IH]; intros [|c s]; simpl; try lia.
  specialize (IH s). lia.
Qed.


(** X12: a parse that does not return false leaves the flag set as it
    was; one that returns false changes the error record and nothing
    else: the error code is not none and the recorded name is at most 64
    characters long. *)
Theorem parse_sets_error_only (fuel : nat) (fs : FlagSet) (w : World)
    (argv : list string) :
  let '(o, fs', _) := flagSetParse fuel fs w argv in
  (o <> Ret false -> fs' = fs)
  /\ (o = Ret false ->
      flags fs' = flags fs /\ config_flag_name fs' = config_flag_name fs
      /\ config_flag_short_name fs' = config_flag_short_name fs
      /\ ignore_unknown fs' = ignore_unknown fs
      /\ error_code fs' <> FLAG_ERROR_CODE_NONE
      /\ (String.length (error_flag_name fs') <= FLAGS_FLAG_MAX_LEN)%nat).
Proof.
  pose proof (flagSetParse_post fuel fs w argv) as Hpost.
  destruct (flagSetParse fuel fs w argv) as [[o fs'] w'].
  destruct Hpost as (_ & _ & Ho). split.
  - intros Hne. destruct o as [[|]| | |]; congruence.
  - intros ->. destruct Ho as (c & nm & -> & Hc & _).
    cbn [setError flags config_flag_name config_flag_short_name
         ignore_unknown error_code error_flag_name].
    repeat split; try assumption. apply length_str_take_le.
Qed.

(** X13: when unknown flags are ignored, a parse never ends with the
    error code for an unknown flag nor with the one for help: the help
    spellings are skipped like any other unmatched token. *)
Theorem ignore_unknown_never_unknown_nor_help (fuel : nat) (fs : FlagSet)
    (w : World) (argv : list string) :
  ignore_unknown fs = true ->
  let '(o, fs', _) := flagSetParse fuel fs w argv in
  o = Ret false ->
  error_code fs' <> FLAG_ERROR_CODE_UNKNOWN
  /\ error_code fs' <> FLAG_ERROR_CODE_HELP.
Proof.
  intros Hign. pose proof (flagSetParse_post fuel fs w argv) as Hpost.
  destruct (flagSetParse fuel fs w argv) as [[o fs'] w'].
  destruct Hpost as (_ & _ & Ho).
  intros ->. destruct Ho as (c & nm & -> & _ & Hi).
  cbn [setError error_code]. now apply Hi.
Qed.

(** X14: a configuration file never produces the help error: merging a
    file that returns false records a code other than none and other
    than help, and under [ignore_unknown] other than unknown. *)
Theorem merge_never_help (fuel : nat) (fs : FlagSet) (w : World)
    (filename : string) :
  let '(o, fs', _) := parseIniConfig fuel fs w filename in
  o = Ret false ->
  error_code fs' <> FLAG_ERROR_CODE_NONE
  /\ error_code fs' <> FLAG_ERROR_CODE_HELP
  /\ (ignore_unknown fs = true -> error_code fs' <> FLAG_ERROR_CODE_UNKNOWN).
Proof.
  pose proof (parseIniConfig_post fuel fs w filename) as Hpost.
  unfold parseIniConfig, parseIniConfig_with in *.
  destruct (iniParserOpen w filename) as [[p|] w1].
  - pose proof (parseIniConfig_loop_post fuel fs w1 p "") as [_ Hhelp].
    destruct (parseIniConfig_loop fuel fs w1 p "") as [[o fs'] w'].
    destruct Hpost as (_ & _ & Ho). intros ->.
    destruct Ho as (c & nm & -> & Hc & Hi).
    cbn [setError error_code] in *.
    split; [exact Hc|]. split; [exact Hhelp|]. intros Hign. now apply Hi.
  - destruct (config_flag_name fs); [|discriminate].
    intros _. cbn [setError error_code]. repeat split; discriminate.
Qed.

End KeepsArgs.


Lemma ignore_unknown_never_unknown_nor_help_witness :
  ignore_unknown (flagSetIgnoreUnknown fs_demo true) = true
  /\ let '(o, fs', _) :=
       flagSetParse 8 (flagSetIgnoreUnknown fs_demo true) w_demo
         ["prog"; "--help"; "--bogus"; "--count"] in
     o = Ret false ->
     error_code fs' <> FLAG_ERROR_CODE_UNKNOWN
     /\ error_code fs' <> FLAG_ERROR_CODE_HELP.
Proof.
  split; [reflexivity|].
  exact (ignore_unknown_never_unknown_nor_help 8
           (flagSetIgnoreUnknown fs_demo true) w_demo
           ["prog"; "--help"; "--bogus"; "--count"] eq_refl).
Defined.

(** ** The help and configuration spellings (flag.h) *)

Lemma strncmp_eqb (a : string) :
  forall (b : string) (n : nat),
  no_nul a = true -> no_nul b = true -> (String.length a < n)%nat ->
  (strncmp a b n =? 0) = String.eqb a b.
Proof.
  induction a as [|c a IH]; intros b n Ha Hb Hn.
  - destruct n as [|n]; [simpl in Hn; lia|]. cbn [strncmp str_head].
    destruct b as [|d b]; [reflexivity|].
    apply no_nul_cons in Hb as [Hd _]. cbn [str_head String.eqb].
    assert (Hne : Ascii.eqb NUL d = false) by (apply Ascii.eqb_neq; congruence).
    rewrite Hne. cbn [negb]. apply Z.eqb_neq. intros Hz.
    apply Hd. symmetry. apply code_inj. lia.
  - apply no_nul_cons in Ha as [Hc Ha].
    destruct n as [|n]; [simpl in Hn; lia|]. cbn [String.length] in Hn.
    cbn [strncmp str_head str_tail].
    destruct b as [|d b].
    + cbn [str_head String.eqb]. rewrite (eqb_NUL_false c Hc). cbn [negb].
      apply Z.eqb_neq. intros Hz. apply Hc. apply code_inj. lia.
    + apply no_nul_cons in Hb as [Hd Hb]. cbn [str_head str_tail String.eqb].
      destruct (Ascii.eqb c d) eqn:Hcd; cbn [negb].
      * rewrite (eqb_NUL_false c Hc). apply IH; [assumption|assumption|lia].
      * apply Ascii.eqb_neq in Hcd. apply Z.eqb_neq. intros Hz.
        apply Hcd. apply code_inj. lia.
Qed.

Lemma strcmp_eqb (a b : string) :
  no_nul a = true -> no_nul b = true ->
  (strcmp a b =? 0) = String.eqb a b.
Proof. intros Ha Hb. unfold strcmp. apply strncmp_eqb; [assumption..|lia]. Qed.

(** X15: the help spellings are matched exactly: [isHelpFlag] holds of
    the tokens [--help] and [-h] and of no other, in particular of no
    abbreviation of [--help]. *)
Theorem isHelpFlag_exact (flag : string) :
  no_nul flag = true ->
  isHelpFlag flag = true <-> flag = "--help" \/ flag = "-h".
Proof.
  intros Hnn. unfold isHelpFlag. rewrite (strlen_no_nul flag Hnn).
  destruct flag as [|c0 [|c1 rest]].
  - cbn. split; [discriminate|]. intros [|]; discriminate.
  - cbn. split; [discriminate|]. intros [|]; discriminate.
  - apply no_nul_cons in Hnn as [_ Hnn]. apply no_nul_cons in Hnn as [_ Hnn].
    cbn [String.length Nat.ltb Nat.leb orb char_at str_drop str_tail str_head].
    destruct (Ascii.eqb c0 "-") eqn:H0; cbn [negb].
    2:{ apply Ascii.eqb_neq in H0. split; [discriminate|].
        intros [Heq|Heq]; injection Heq as ? ?; congruence. }
    apply Ascii.eqb_eq in H0. subst c0.
    destruct (Ascii.eqb c1 "-") eqn:H1.
    + apply Ascii.eqb_eq in H1. subst c1.
      rewrite (strcmp_eqb "help" rest eq_refl Hnn).
      rewrite String.eqb_eq. split.
      * intros <-. now left.
      * intros [Heq|Heq]; [injection Heq as <-; reflexivity|discriminate Heq].
    + apply Ascii.eqb_neq in H1.
      destruct rest as [|c2 rest].
      * cbn [String.length Nat.eqb]. rewrite Ascii.eqb_eq. split.
        -- intros ->. now right.
        -- intros [Heq|Heq]; [discriminate Heq|].
           now injection Heq as ->.
      * cbn [String.length Nat.eqb]. split; [discriminate|].
        intros [Heq|Heq]; [|discriminate Heq].
        injection Heq as ? ?. congruence.
Qed.

Lemma isHelpFlag_exact_witness :
  no_nul "--hel" = true /\ isHelpFlag "--hel" = false
  /\ (isHelpFlag "--help" = true <-> "--help" = "--help" \/ "--help" = "-h").
Proof.
  split; [reflexivity|]. split; [reflexivity|].
  exact (isHelpFlag_exact "--help" eq_refl).
Defined.

Lemma isConfigFlag_long (fs : FlagSet) (cname t : string) :
  config_flag_name fs = Some cname -> no_nul t = true ->
  isConfigFlag fs ("--" ++ t) = String.prefix t cname.
Proof.
  intros Hc Ht. unfold isConfigFlag. rewrite Hc.
  change ("--" ++ t) with (String "-" (String "-" t)).
  cbn [strlen]. change (Ascii.eqb "-" NUL) with false. cbv iota.
  rewrite (strlen_no_nul t Ht).
  cbn [Nat.ltb Nat.leb orb char_at str_drop str_tail str_head Ascii.eqb
       Bool.eqb negb].
  replace (S (S (String.length t)) - 2)%nat with (String.length t) by lia.
  now apply strncmp_prefix.
Qed.

Lemma isConfigFlag_short (fs : FlagSet) (cname : string) (c : ascii) :
  config_flag_name fs = Some cname -> c <> "-"%char -> c <> NUL ->
  isConfigFlag fs (String "-" (String c ""))
  = Ascii.eqb c (config_flag_short_name fs).
Proof.
  intros Hc Hd Hn. unfold isConfigFlag. rewrite Hc. cbn [strlen].
  change (Ascii.eqb "-" NUL) with false. cbv iota.
  rewrite (eqb_NUL_false c Hn).
  cbn [Nat.ltb Nat.leb orb char_at str_drop str_tail str_head negb].
  change (Ascii.eqb "-" "-") with true. cbn [negb].
  apply Ascii.eqb_neq in Hd. rewrite Hd. cbn [Nat.eqb].
  destruct (Ascii.eqb c (config_flag_short_name fs)) eqn:E.
  - apply Ascii.eqb_eq in E. rewrite <- E, (eqb_NUL_false c Hn). reflexivity.
  - apply andb_false_r.
Qed.

Section ConfigToken.

Context `{Libc}.

(** X16: on the command line, a two-dash token is taken for the
    configuration flag exactly when the name of that flag begins with
    the text after the dashes, and a token [-X] exactly when [X] is its
    short name. Such a token is handled before the registered flags are
    looked up: whatever the registry holds, the token after it is merged
    as a file, and if there is none the error is a missing value that
    names the token. *)
Theorem config_token_takes_precedence (fuel : nat) (fs : FlagSet) (w : World)
    (cname t : string) (c : ascii) :
  config_flag_name fs = Some cname -> no_nul t = true ->
  c <> "-"%char -> c <> NUL ->
  isConfigFlag fs ("--" ++ t) = String.prefix t cname
  /\ isConfigFlag fs (String "-" (String c ""))
     = Ascii.eqb c (config_flag_short_name fs)
  /\ (String.prefix t cname = true ->
      forall i,
        flagSetParse_loop fuel fs w ["--" ++ t] i
        = (Ret false,
           setError fs FLAG_ERROR_CODE_MISSING_VALUE ("--" ++ t), w)
        /\ forall filename args,
             flagSetParse_loop fuel fs w (("--" ++ t) :: filename :: args) i
             = match parseIniConfig fuel fs w filename with
               | (Ret true, fs', w') =>
                   flagSetParse_loop fuel fs' w' args (i + 2)
               | r => r
               end).
Proof.
  intros Hc Ht Hd Hn.
  pose proof (isConfigFlag_long fs cname t Hc Ht) as Hlong.
  split; [exact Hlong|]. split; [now apply (isConfigFlag_short fs cname)|].
  intros Hp i. rewrite Hp in Hlong. split.
  - cbn [flagSetParse_loop]. now rewrite Hlong.
  - intros filename args. cbn [flagSetParse_loop]. now rewrite Hlong.
Qed.

(** X17: a token that is shorter than two characters, does not begin
    with a dash, or has one dash and more than one character after it
    matches no flag, is not the configuration flag and is not a help
    spelling, whatever is registered: it is reported as an unknown flag
    under its own text, or skipped when unknown flags are ignored. *)
Theorem never_a_flag_unknown (fuel : nat) (fs : FlagSet) (w : World)
    (flag : string) (args : list string) (i : nat) :
  never_a_flag flag = true ->
  lookupFlag fs flag = None /\ isConfigFlag fs flag = false
  /\ isHelpFlag flag = false
  /\ flagSetParse_loop fuel fs w (flag :: args) i
     = if ignore_unknown fs then flagSetParse_loop fuel fs w args (i + 1)
       else (Ret false, setError fs FLAG_ERROR_CODE_UNKNOWN flag, w).
Proof.
  unfold never_a_flag. intros Hn.
  assert (Hl : lookupFlag fs flag = None).
  { unfold lookupFlag.
    destruct ((strlen flag <? 2)%nat || negb (Ascii.eqb (char_at flag 0) "-"));
      [reflexivity|].
    cbn [orb] in Hn. apply andb_true_iff in Hn as [H1 H2].
    apply negb_true_iff in H1, H2. now rewrite H1, H2. }
  assert (Hc : isConfigFlag fs flag = false).
  { unfold isConfigFlag. destruct (config_flag_name fs); [|reflexivity].
    destruct ((strlen flag <? 2)%nat || negb (Ascii.eqb (char_at flag 0) "-"));
      [reflexivity|].
    cbn [orb] in Hn. apply andb_true_iff in Hn as [H1 H2].
    apply negb_true_iff in H1, H2. now rewrite H1, H2. }
  assert (Hh : isHelpFlag flag = false).
  { unfold isHelpFlag.
    destruct ((strlen flag <? 2)%nat || negb (Ascii.eqb (char_at flag 0) "-"));
      [reflexivity|].
    cbn [orb] in Hn. apply andb_true_iff in Hn as [H1 H2].
    apply negb_true_iff in H1, H2. now rewrite H1, H2. }
  split; [exact Hl|]. split; [exact Hc|]. split; [exact Hh|].
  cbn [flagSetParse_loop]. now rewrite Hc, Hl, Hh.
Qed.

End ConfigToken.

Lemma config_token_takes_precedence_witness :
  config_flag_name fs_demo = Some "config" /\ no_nul "conf" = true
  /\ "f"%char <> "-"%char /\ "f"%char <> NUL
  /\ isConfigFlag fs_demo ("--" ++ "conf") = String.prefix "conf" "config"
  /\ isConfigFlag fs_demo "-f" = Ascii.eqb "f" (config_flag_short_name fs_demo).
Proof.
  assert (Hc : config_flag_name fs_demo = Some "config") by reflexivity.
  assert (Ht : no_nul "conf" = true) by reflexivity.
  assert (Hd : "f"%char <> "-"%char) by discriminate.
  assert (Hn : "f"%char <> NUL) by discriminate.
  split; [exact Hc|]. split; [exact Ht|]. split; [exact Hd|].
  split; [exact Hn|].
  pose proof (config_token_takes_precedence 0 fs_demo w_demo "config" "conf"
                "f" Hc Ht Hd Hn) as (H1 & H2 & _).
  split; [exact H1|exact H2].
Defined.

Lemma never_a_flag_unknown_witness :
  never_a_flag "input.txt" = true
  /\ lookupFlag fs_demo "input.txt" = None
  /\ flagSetParse_loop 0 fs_demo w_demo ["input.txt"; "--verbose"] 1
     = (Ret false, setError fs_demo FLAG_ERROR_CODE_UNKNOWN "input.txt",
        w_demo).
Proof.
  assert (Hn : never_a_flag "input.txt" = true) by reflexivity.
  split; [exact Hn|].
  pose proof (never_a_flag_unknown 0 fs_demo w_demo "input.txt" ["--verbose"]
                1%nat Hn) as (H1 & _ & _ & H2).
  split; [exact H1|exact H2].
Defined.

(** ** Registration (flag.h) *)

Lemma first_flag_app (p : Flag -> bool) (l : list Flag) (x : Flag) :
  first_flag p (l ++ [x])
  = match first_flag p l with
    | Some g => Some g
    | None => if p x then Some x else None
    end.
Proof.
  induction l as [|g l IH]; cbn [app first_flag]; [reflexivity|].
  destruct (p g); [reflexivity|exact IH].
Qed.

Lemma flagMake_flags (fs fs' : FlagSet) (dst : addr) (ty : FlagType)
    (nm : string) (sn : ascii) (desc : string) (dv : FlagValue) :
  flagMake fs dst ty nm sn desc dv = Some fs' ->
  flags fs' = (flags fs ++ [mkFlag ty nm sn desc dst dv])%list
  /\ config_flag_name fs' = config_flag_name fs
  /\ config_flag_short_name fs' = config_flag_short_name fs
  /\ ignore_unknown fs' = ignore_unknown fs
  /\ error_code fs' = error_code fs.
Proof.
  unfold flagMake. destruct (_ <? _)%nat; [|discriminate].
  intros [= <-]. repeat split.
Qed.

(** X18: registering a flag fails exactly when the registry already
    holds [FLAGS_MAX] flags; otherwise it appends the flag, and every
    token and every configuration key that was matched to a flag before
    is still matched to the same flag: a later registration never takes
    a match away from an earlier one. *)
Theorem registration_keeps_matches (fs : FlagSet) (dst : addr) (ty : FlagType)
    (nm : string) (sn : ascii) (desc : string) (dv : FlagValue) :
  (flagMake fs dst ty nm sn desc dv = None
   <-> (FLAGS_MAX <= List.length (flags fs))%nat)
  /\ forall fs',
       flagMake fs dst ty nm sn desc dv = Some fs' ->
       flags fs' = (flags fs ++ [mkFlag ty nm sn desc dst dv])%list
       /\ (forall tok g, lookupFlag fs tok = Some g ->
                         lookupFlag fs' tok = Some g)
       /\ (forall key g, lookupConfigFlag fs key = Some g ->
                         lookupConfigFlag fs' key = Some g).
Proof.
  split.
  - unfold flagMake. destruct (_ <? _)%nat eqn:E.
    + apply Nat.ltb_lt in E. split; [discriminate|lia].
    + apply Nat.ltb_ge in E. split; [auto|reflexivity].
  - intros fs' Hmake. apply flagMake_flags in Hmake as (Hfl & _).
    split; [exact Hfl|]. split.
    + intros tok g. unfold lookupFlag. rewrite Hfl.
      destruct (_ || _); [discriminate|].
      destruct (Ascii.eqb (char_at tok 1) "-").
      * rewrite first_flag_app. now intros ->.
      * destruct (strlen tok =? 2)%nat; [|discriminate].
        rewrite first_flag_app. now intros ->.
    + intros key g. unfold lookupConfigFlag. rewrite Hfl.
      destruct (strlen key <? 1)%nat; [discriminate|].
      rewrite first_flag_app. now intros ->.
Qed.

(** X19: a flag that was registered under a name can be reached by that
    name: the two-dash token of the full name, and the name as a
    configuration key if it is not empty, are matched to a flag, and to
    the new flag itself when no name registered before begins with the
    new name. *)
Theorem registered_name_is_matched (fs fs' : FlagSet) (dst : addr)
    (ty : FlagType) (nm : string) (sn : ascii) (desc : string)
    (dv : FlagValue) :
  flagMake fs dst ty nm sn desc dv = Some fs' -> no_nul nm = true ->
  is_Some (lookupFlag fs' ("--" ++ nm))
  /\ (nm <> "" -> is_Some (lookupConfigFlag fs' nm))
  /\ (Forall (fun g => String.prefix nm (name g) = false) (flags fs) ->
      lookupFlag fs' ("--" ++ nm) = Some (mkFlag ty nm sn desc dst dv)
      /\ (nm <> "" ->
          lookupConfigFlag fs' nm = Some (mkFlag ty nm sn desc dst dv))).
Proof.
  intros Hmake Hnn. apply flagMake_flags in Hmake as (Hfl & _).
  assert (Hself : String.prefix nm nm = true).
  { clear. induction nm as [|c s IH]; [reflexivity|]. cbn.
    destruct (ascii_dec c c); [exact IH|congruence]. }
  assert (Hfirst : first_flag (fun item => String.prefix nm (name item))
                     (flags fs')
                   = match first_flag
                             (fun item => String.prefix nm (name item))
                             (flags fs) with
                     | Some g => Some g
                     | None => Some (mkFlag ty nm sn desc dst dv)
                     end).
  { rewrite Hfl, first_flag_app. cbn [name]. now rewrite Hself. }
  split; [|split].
  - rewrite (lookupFlag_long fs' nm Hnn), Hfirst.
    destruct (first_flag _ (flags fs)); eauto.
  - intros Hne. rewrite (lookupConfigFlag_prefix fs' nm Hnn Hne), Hfirst.
    destruct (first_flag _ (flags fs)); eauto.
  - intros Hall. apply first_flag_None in Hall.
    split.
    + now rewrite (lookupFlag_long fs' nm Hnn), Hfirst, Hall.
    + intros Hne.
      now rewrite (lookupConfigFlag_prefix fs' nm Hnn Hne), Hfirst, Hall.
Qed.

Lemma registered_name_is_matched_witness :
  flagMake flagSetNew 0 FLAG_TYPE_BOOL "verbose" "v" "Verbose output" as_none
  = Some (mkFlagSet FLAG_ERROR_CODE_NONE None "" NUL false "" [flag_verbose])
  /\ no_nul "verbose" = true
  /\ is_Some (lookupFlag
                (mkFlagSet FLAG_ERROR_CODE_NONE None "" NUL false ""
                   [flag_verbose]) "--verbose").
Proof.
  assert (Hm : flagMake flagSetNew 0 FLAG_TYPE_BOOL "verbose" "v"
                 "Verbose output" as_none
               = Some (mkFlagSet FLAG_ERROR_CODE_NONE None "" NUL false ""
                         [flag_verbose])) by reflexivity.
  split; [exact Hm|]. split; [reflexivity|].
  exact (proj1 (registered_name_is_matched _ _ _ _ _ _ _ _ Hm eq_refl)).
Defined.

Lemma declare_spec (st st' : FlagSet * World) (d : Decl) :
  declare st d = Some st' ->
  flags st'.1 = (flags st.1 ++ [decl_flag d])%list
  /\ mem st'.2 = <[decl_dst d := decl_cell d]> (mem st.2)
  /\ config_flag_name st'.1 = config_flag_name st.1.
Proof.
  destruct d; cbn [declare decl_flag decl_dst decl_cell];
    unfold flagSetBoolVar, flagSetStringVar, flagSetIntVar, flagSetFloatVar,
      flagSetDoubleVar, flagSetTimeVar;
    (destruct (flagMake _ _ _ _ _ _ _) as [fs'|] eqn:Hmake;
     [|discriminate]);
    cbn [mbind option_bind]; intros [= <-];
    apply flagMake_flags in Hmake as (Hfl & Hc & _);
    cbn [fst snd mem store]; auto.
Qed.

Section Defaults.

Context `{Libc}.

(** X20: after the registrations of a list of declarations with
    pairwise different destinations, the registry holds their flags in
    the order of declaration and every destination holds the default of
    its declaration (false for a Bool flag); parsing an argument vector
    that holds only the program name then returns true and changes
    nothing. *)
Theorem declared_defaults (fuel : nat) (ds : list Decl) :
  forall (st st' : FlagSet * World) (prog : string),
  declare_all st ds = Some st' ->
  NoDup (map decl_dst ds) ->
  flags st'.1 = (flags st.1 ++ map decl_flag ds)%list
  /\ (forall d, In d ds -> mem st'.2 !! decl_dst d = Some (decl_cell d))
  /\ flagSetParse fuel st'.1 st'.2 [prog] = (Ret true, st'.1, st'.2).
Proof.
  induction ds as [|d ds IH]; intros st st' prog Hall Hnd.
  - cbn in Hall. injection Hall as <-.
    split; [now rewrite app_nil_r|]. split; [intros d []|reflexivity].
  - cbn [declare_all] in Hall.
    destruct (declare st d) as [st1|] eqn:Hd; [|discriminate].
    cbn [mbind option_bind] in Hall.
    cbn [map] in Hnd. apply NoDup_cons in Hnd as [Hnot Hnd].
    destruct (IH st1 st' prog Hall Hnd) as (Hfl & Hdef & Hparse).
    apply declare_spec in Hd as (Hfl1 & Hm1 & _).
    split; [|split; [|exact Hparse]].
    + rewrite Hfl, Hfl1, <- app_assoc. reflexivity.
    + intros d' [<-|Hin]; [|now apply Hdef].
      assert (Hkeep : forall ds0 st0 st0',
                 declare_all st0 ds0 = Some st0' ->
                 decl_dst d ∉ map decl_dst ds0 ->
                 mem st0'.2 !! decl_dst d = mem st0.2 !! decl_dst d).
      { clear. induction ds0 as [|d0 ds0 IH0]; intros st0 st0' H0 Hn.
        - cbn in H0. now injection H0 as <-.
        - cbn [declare_all] in H0.
          destruct (declare st0 d0) as [st2|] eqn:Hd0; [|discriminate].
          cbn [mbind option_bind] in H0. cbn [map] in Hn.
          apply not_elem_of_cons in Hn as [Hne Hn].
          rewrite (IH0 st2 st0' H0 Hn).
          apply declare_spec in Hd0 as (_ & Hm & _). rewrite Hm.
          apply lookup_insert_ne. congruence. }
      rewrite (Hkeep ds st1 st' Hall Hnot), Hm1.
      apply lookup_insert_eq.
Qed.

(** X21: without a configuration flag in the registry, no file is ever
    merged: parsing an argument vector that is not empty returns true
    or false, and the result is the same for every amount of fuel. *)
Theorem parse_without_config_flag (fs : FlagSet) (w : World)
    (argv : list string) :
  config_flag_name fs = None -> argv <> [] ->
  exists b fs' w',
    forall fuel, flagSetParse fuel fs w argv = (Ret b, fs', w').
Proof.
  intros Hc Hne. destruct argv as [|prog args]; [congruence|]. clear Hne.
  cbn [flagSetParse].
  assert (Hloop : forall k args w i,
             (List.length args <= k)%nat ->
             exists b fs' w',
               forall fuel,
                 flagSetParse_loop fuel fs w args i = (Ret b, fs', w')).
  { induction k as [|k IH]; intros args0 w0 i Hk.
    - destruct args0; [|simpl in Hk; lia]. exists true, fs, w0. reflexivity.
    - destruct args0 as [|flag args1];
        [exists true, fs, w0; reflexivity|].
      cbn [List.length] in Hk. cbn [flagSetParse_loop].
      rewrite (isConfigFlag_no_config fs flag Hc).
      destruct (lookupFlag fs flag) as [conf|].
      + assert (Hbool : exists b fs' w', forall fuel,
                   flagSetParse_loop fuel fs (store w0 (ptr conf) (CBool true))
                     args1 (i + 1) = (Ret b, fs', w'))
          by (apply IH; lia).
        assert (Hval : exists b fs' w', forall fuel : nat,
                   match args1 with
                   | [] =>
                       (Ret false,
                        setError fs FLAG_ERROR_CODE_MISSING_VALUE (name conf),
                        w0)
                   | value :: args2 =>
                       match coerceArg w0 conf value (i + 1) with
                       | None =>
                           (Ret false,
                            setError fs FLAG_ERROR_CODE_INVALID_VALUE
                              (name conf), w0)
                       | Some w1 =>
                           flagSetParse_loop fuel fs w1 args2 (i + 2)
                       end
                   end = (Ret b, fs', w')).
        { destruct args1 as [|value args2]; [eauto|].
          destruct (coerceArg w0 conf value (i + 1)) as [w1|]; [|eauto].
          apply IH. cbn [List.length] in Hk. lia. }
        destruct (type conf); assumption.
      + destruct (ignore_unknown fs); [apply IH; lia|].
        destruct (isHelpFlag flag); eauto. }
  apply (Hloop (List.length args)). lia.
Qed.

End Defaults.

Lemma declared_defaults_witness :
  exists st',
    declare_all (flagSetNew, world0)
      [DeclBool 0 "verbose" "v" "Verbose output";
       DeclInt 2 "count" "c" 7 "Count"] = Some st'
    /\ NoDup (map decl_dst [DeclBool 0 "verbose" "v" "Verbose output";
                            DeclInt 2 "count" "c" 7 "Count"])
    /\ mem st'.2 !! 2%nat = Some (CInt 7)
    /\ flagSetParse 0 st'.1 st'.2 ["prog"] = (Ret true, st'.1, st'.2).
Proof.
  pose (ds := [DeclBool 0 "verbose" "v" "Verbose output";
               DeclInt 2 "count" "c" 7 "Count"]).
  pose (st' := default (flagSetNew, world0)
                 (declare_all (flagSetNew, world0) ds)).
  exists st'.
  assert (Hd : declare_all (flagSetNew, world0) ds = Some st')
    by (vm_compute; reflexivity).
  assert (Hnd : NoDup (map decl_dst ds)).
  { apply (bool_decide_unpack _). vm_compute. exact I. }
  split; [exact Hd|]. split; [exact Hnd|].
  pose proof (declared_defaults 0 ds (flagSetNew, world0) st' "prog" Hd Hnd)
    as (_ & Hdef & Hparse).
  split; [|exact Hparse].
  apply (Hdef (DeclInt 2 "count" "c" 7 "Count")). right. left. reflexivity.
Defined.

Lemma parse_without_config_flag_witness :
  config_flag_name (default (flagSetNew, world0) reg_demo).1 = None
  /\ ["prog"; "--count"; "3"] <> []
  /\ exists b fs' w',
       forall fuel,
         flagSetParse fuel (default (flagSetNew, world0) reg_demo).1
           (default (flagSetNew, world0) reg_demo).2 ["prog"; "--count"; "3"]
         = (Ret b, fs', w').
Proof.
  assert (Hc : config_flag_name (default (flagSetNew, world0) reg_demo).1
               = None) by reflexivity.
  assert (Hne : ["prog"; "--count"; "3"] <> @nil string) by discriminate.
  split; [exact Hc|]. split; [exact Hne|].
  exact (parse_without_config_flag _ _ _ Hc Hne).
Defined.

(** ** The usage and the error message (flag.h) *)

Lemma string_app_assoc (a b c : string) : (a ++ b) ++ c = a ++ (b ++ c).
Proof.
  induction a as [|x a IH]; [reflexivity|].
  rewrite !append_cons. now rewrite IH.
Qed.

Lemma str_take_app (s x : string) : str_take (String.length s) (s ++ x) = s.
Proof.
  induction s as [|c s IH]; [reflexivity|].
  rewrite append_cons. cbn [String.length str_take]. now rewrite IH.
Qed.

Lemma length_c_str (s : string) : String.length (c_str s) = strlen s.
Proof. unfold c_str. apply length_str_take, strlen_le_length. Qed.

Lemma length_replicate_char (n : nat) (c : ascii) :
  String.length (replicate_char n c) = n.
Proof. induction n as [|n IH]; [reflexivity|]. cbn. now rewrite IH. Qed.

Lemma length_pad_right (width : nat) (s : string) :
  (String.length s <= width)%nat -> String.length (pad_right width s) = width.
Proof.
  intros Hs. unfold pad_right. rewrite length_app, length_replicate_char. lia.
Qed.

Lemma length_short_part (sn : ascii) : String.length (short_part sn) = 6%nat.
Proof. unfold short_part. now destruct (negb (Ascii.eqb sn NUL)). Qed.

Lemma fold_max_ge (l : list Flag) (a : nat) :
  (a <= fold_left
          (fun m flag => if (m <? strlen (name flag))%nat
                         then strlen (name flag) else m) l a)%nat
  /\ forall f, In f l ->
       (strlen (name f)
        <= fold_left
             (fun m flag => if (m <? strlen (name flag))%nat
                            then strlen (name flag) else m) l a)%nat.
Proof.
  revert a. induction l as [|g l IH]; intros a; cbn [fold_left].
  - split; [lia|intros f []].
  - destruct (IH (if (a <? strlen (name g))%nat then strlen (name g) else a))
      as [Hge Hin].
    destruct (a <? strlen (name g))%nat eqn:E;
      [apply Nat.ltb_lt in E|apply Nat.ltb_ge in E].
    + split; [lia|]. intros f [<-|Hf]; [lia|now apply Hin].
    + split; [lia|]. intros f [<-|Hf]; [lia|now apply Hin].
Qed.

Lemma fold_max_attained (l : list Flag) (a : nat) :
  fold_left
    (fun m flag => if (m <? strlen (name flag))%nat
                   then strlen (name flag) else m) l a = a
  \/ exists f, In f l
       /\ fold_left
            (fun m flag => if (m <? strlen (name flag))%nat
                           then strlen (name flag) else m) l a
          = strlen (name f).
Proof.
  revert a. induction l as [|g l IH]; intros a; cbn [fold_left]; [now left|].
  destruct (IH (if (a <? strlen (name g))%nat then strlen (name g) else a))
    as [Heq|(f & Hf & Heq)].
  - destruct (a <? strlen (name g))%nat; [|now left].
    right. exists g. split; [now left|exact Heq].
  - right. exists f. split; [now right|exact Heq].
Qed.

Section Printing.

Context `{Libc} `{LibcPrint}.

Variable deref : CharPtr -> option string.

Lemma flagSetPrintUsage_setError (fs : FlagSet) (c : FlagErrorCode)
    (nm : string) :
  flagSetPrintUsage deref (setError fs c nm) = flagSetPrintUsage deref fs.
Proof. reflexivity. Qed.

Lemma flag_lines_defined (width : nat) (l : list Flag) :
  is_Some (flag_lines deref width l)
  <-> Forall (fun f => is_Some (default_text deref f)) l.
Proof.
  induction l as [|f l IH]; cbn [flag_lines].
  - split; [constructor|eauto].
  - unfold flag_line. split.
    + intros [out Hout].
      destruct (default_text deref f) as [d|] eqn:Hd; [|discriminate].
      cbn [mbind option_bind] in Hout.
      destruct (flag_lines deref width l) as [b|]; [|discriminate].
      constructor; [eauto|]. apply IH. eauto.
    + intros Hall. inversion Hall as [|? ? [d Hd] Hrest]; subst.
      apply IH in Hrest as [b Hb]. rewrite Hd, Hb. cbn. eauto.
Qed.

Lemma line_column (width : nat) (sn : ascii) (nm tail : string) :
  (strlen nm + 5 <= width)%nat ->
  str_take (8 + strlen nm)
    (short_part sn ++ "--" ++ pad_right width (c_str nm) ++ tail)
  = short_part sn ++ "--" ++ c_str nm
  /\ String.length
       (str_take (width + 8)
          (short_part sn ++ "--" ++ pad_right width (c_str nm) ++ tail))
     = (width + 8)%nat
  /\ str_drop (width + 8)
       (short_part sn ++ "--" ++ pad_right width (c_str nm) ++ tail)
     = tail.
Proof.
  intros Hw.
  assert (Hpad : String.length (pad_right width (c_str nm)) = width).
  { apply length_pad_right. rewrite length_c_str. lia. }
  assert (Hpre : String.length
                   (short_part sn ++ "--" ++ pad_right width (c_str nm))
                 = (width + 8)%nat).
  { rewrite !length_app, length_short_part, Hpad. cbn [String.length]. lia. }
  assert (Hall : short_part sn ++ "--" ++ pad_right width (c_str nm) ++ tail
                 = (short_part sn ++ "--" ++ pad_right width (c_str nm))
                   ++ tail).
  { now rewrite !string_app_assoc. }
  split; [|split].
  - assert (Hn : String.length (short_part sn ++ "--" ++ c_str nm)
                 = (8 + strlen nm)%nat).
    { rewrite !length_app, length_short_part, length_c_str.
      cbn [String.length]. lia. }
    unfold pad_right. rewrite <- Hn.
    replace (short_part sn ++ "--"
             ++ (c_str nm
                 ++ replicate_char (width - String.length (c_str nm)) " ")
             ++ tail)
      with ((short_part sn ++ "--" ++ c_str nm)
            ++ replicate_char (width - String.length (c_str nm)) " "
            ++ tail)
      by now rewrite !string_app_assoc.
    apply str_take_app.
  - rewrite Hall, <- Hpre, str_take_app. reflexivity.
  - rewrite Hall, <- Hpre. apply str_drop_app.
Qed.

Lemma flag_lines_columns (width : nat) (l : list Flag) :
  forall body : string,
  Forall (fun f => (strlen (name f) + 5 <= width)%nat) l ->
  flag_lines deref width l = Some body ->
  exists ls : list string,
    body = fold_right String.append "" ls
    /\ Forall2
         (fun f x =>
            str_take (8 + strlen (name f)) x
            = short_part (short_name f) ++ "--" ++ c_str (name f)
            /\ String.length (str_take (width + 8) x) = (width + 8)%nat
            /\ exists d,
                 default_text deref f = Some d
                 /\ str_drop (width + 8) x
                    = " " ++ c_str (description f) ++ d ++ nl) l ls.
Proof.
  induction l as [|f l IH]; intros body Hall; cbn [flag_lines].
  - intros [= <-]. exists []. split; [reflexivity|constructor].
  - inversion Hall as [|? ? Hf Hrest]; subst. unfold flag_line.
    destruct (default_text deref f) as [d|] eqn:Hd; [|discriminate].
    cbn [mbind option_bind].
    destruct (flag_lines deref width l) as [b|]; [|discriminate].
    cbn [mbind option_bind]. intros [= <-].
    destruct (IH b Hrest eq_refl) as (ls & -> & Hls).
    eexists (_ :: ls). split; [reflexivity|].
    constructor; [|exact Hls].
    destruct (line_column width (short_name f) (name f)
                (" " ++ c_str (description f) ++ d ++ nl) Hf)
      as (H1 & H2 & H3).
    split; [exact H1|]. split; [exact H2|]. exists d.
    split; [exact Hd|exact H3].
Qed.

(** X22: what [flagSetPrintUsage] prints is the line FLAGS, the line of
    the configuration flag if there is one, the lines of the registered
    flags in the order of declaration and the line of the help flag,
    followed by an empty line. The column of the names is as wide as the
    longest name, the one of the configuration flag included, and 5
    more: every line begins with the short name, two dashes and the
    full name, which is never cut, and the descriptions of all lines
    begin at the same column. *)
Theorem usage_description_column (fs : FlagSet) (out : string) :
  flagSetPrintUsage deref fs = Some out ->
  exists (cfg : string) (ls : list string),
    out = "FLAGS" ++ nl ++ cfg ++ fold_right String.append "" ls
          ++ "  -h, --" ++ pad_right (max_flag_len fs) "help"
          ++ " Show this help message" ++ nl ++ nl
    /\ String.length ("  -h, --" ++ pad_right (max_flag_len fs) "help")
       = (max_flag_len fs + 8)%nat
    /\ match config_flag_name fs with
       | None => cfg = ""
       | Some cname =>
           (strlen cname + 5 <= max_flag_len fs)%nat
           /\ str_take (8 + strlen cname) cfg
              = short_part (config_flag_short_name fs) ++ "--" ++ c_str cname
           /\ String.length (str_take (max_flag_len fs + 8) cfg)
              = (max_flag_len fs + 8)%nat
           /\ str_drop (max_flag_len fs + 8) cfg
              = " " ++ c_str (config_flag_desc fs) ++ nl
       end
    /\ Forall2
         (fun f x =>
            str_take (8 + strlen (name f)) x
            = short_part (short_name f) ++ "--" ++ c_str (name f)
            /\ String.length (str_take (max_flag_len fs + 8) x)
               = (max_flag_len fs + 8)%nat
            /\ exists d,
                 default_text deref f = Some d
                 /\ str_drop (max_flag_len fs + 8) x
                    = " " ++ c_str (description f) ++ d ++ nl)
         (flags fs) ls
    /\ Forall (fun f => (strlen (name f) + 5 <= max_flag_len fs)%nat)
         (flags fs)
    /\ (max_flag_len fs
        = (match config_flag_name fs with
           | Some cname => strlen cname
           | None => 0
           end + 5)%nat
        \/ exists g, In g (flags fs)
                     /\ max_flag_len fs = (strlen (name g) + 5)%nat).
Proof.
  unfold flagSetPrintUsage.
  destruct (fold_max_ge (flags fs)
              match config_flag_name fs with
              | Some cname => strlen cname
              | None => 0%nat
              end) as [Hbase Hge].
  assert (Hall : Forall (fun f => (strlen (name f) + 5 <= max_flag_len fs)%nat)
                   (flags fs)).
  { apply List.Forall_forall. intros f Hin. unfold max_flag_len.
    specialize (Hge f Hin). lia. }
  destruct (flag_lines deref (max_flag_len fs) (flags fs)) as [body|] eqn:Hb;
    [|discriminate].
  cbn [mbind option_bind]. intros [= <-].
  destruct (flag_lines_columns _ _ body Hall Hb) as (ls & -> & Hls).
  eexists _, ls. split; [reflexivity|].
  split.
  { rewrite length_app, length_pad_right; [cbn; lia|].
    cbn. unfold max_flag_len. lia. }
  split.
  { assert (Hcfg : forall cname, config_flag_name fs = Some cname ->
                     (strlen cname + 5 <= max_flag_len fs)%nat).
    { intros cname E. unfold max_flag_len. rewrite E in *. lia. }
    destruct (config_flag_name fs) as [cname|]; [|reflexivity].
    pose proof (Hcfg cname eq_refl) as Hc.
    split; [exact Hc|].
    exact (line_column (max_flag_len fs) (config_flag_short_name fs) cname
             (" " ++ c_str (config_flag_desc fs) ++ nl) Hc). }
  split; [exact Hls|]. split; [exact Hall|].
  unfold max_flag_len.
  destruct (fold_max_attained (flags fs)
              match config_flag_name fs with
              | Some cname => strlen cname
              | None => 0%nat
              end) as [Heq|(g & Hg & Heq)].
  - left. now rewrite Heq.
  - right. exists g. split; [exact Hg|]. now rewrite Heq.
Qed.

(** X23: after a parse that returned false, [flagSetPrintError] is
    silent exactly for a configuration file that could not be opened:
    it prints nothing and returns. For a help flag it prints the usage
    and exits with the status 0; for every other error it prints a line
    that begins with ERROR: and quotes the recorded name, an empty
    line and the usage, and exits with the status 1. The usage is the
    one of the flag set before the parse. *)
Theorem print_error_after_failed_parse (fuel : nat) (fs : FlagSet) (w : World)
    (argv : list string) :
  let '(o, fs', _) := flagSetParse fuel fs w argv in
  o = Ret false ->
  forall (out : string) (st : option Z),
    flagSetPrintError deref fs' = Some (out, st) ->
    (st = None <-> error_code fs' = FLAG_ERROR_CODE_OPEN_CONFIG_FILE)
    /\ (st = Some 0 <-> error_code fs' = FLAG_ERROR_CODE_HELP)
    /\ (st = None -> out = "")
    /\ (st = Some 0 -> flagSetPrintUsage deref fs = Some out)
    /\ (st <> None -> st <> Some 0 ->
        st = Some 1
        /\ exists what usage,
             flagSetPrintUsage deref fs = Some usage
             /\ out = "ERROR: " ++ what ++ " " ++ quote
                      ++ error_flag_name fs' ++ quote ++ nl ++ nl ++ usage).
Proof.
  pose proof (flagSetParse_post fuel fs w argv) as Hpost.
  destruct (flagSetParse fuel fs w argv) as [[o fs'] w'].
  destruct Hpost as (_ & _ & Ho). intros ->.
  destruct Ho as (c & nm & -> & Hc & _).
  intros out st. unfold flagSetPrintError.
  rewrite flagSetPrintUsage_setError.
  cbn [setError error_code error_flag_name].
  destruct c; try congruence;
    try (destruct (_ <? _)%nat; [|discriminate]);
    destruct (flagSetPrintUsage deref fs) as [u|]; try discriminate;
    cbn [mbind option_bind]; intros [= <- <-];
    (split; [split; congruence|]);
    (split; [split; congruence|]);
    (split; [congruence|]);
    (split; [congruence|]);
    try (intros _ _; split; [reflexivity|eauto]);
    try congruence.
Qed.

(** X24: a configuration file that is named on the command line and
    cannot be opened fails silently: the parse returns false with the
    error code for the file and the name of the configuration flag,
    not of the file, the world is as it was, and [flagSetPrintError]
    then prints nothing and returns instead of exiting. *)
Theorem open_failure_is_silent (fuel : nat) (fs : FlagSet) (w : World)
    (prog tok filename : string) (args : list string) :
  isConfigFlag fs tok = true -> files w !! filename = None ->
  exists cname,
    config_flag_name fs = Some cname
    /\ flagSetParse fuel fs w (prog :: tok :: filename :: args)
       = (Ret false, setError fs FLAG_ERROR_CODE_OPEN_CONFIG_FILE cname, w)
    /\ flagSetPrintError deref
         (setError fs FLAG_ERROR_CODE_OPEN_CONFIG_FILE cname)
       = Some ("", None).
Proof.
  intros Hc Hfile.
  destruct (config_flag_name fs) as [cname|] eqn:Hname;
    [|unfold isConfigFlag in Hc; rewrite Hname in Hc; discriminate].
  exists cname. split; [reflexivity|]. split; [|reflexivity].
  cbn [flagSetParse flagSetParse_loop]. rewrite Hc.
  unfold parseIniConfig, parseIniConfig_with, iniParserOpen, fopen.
  now rewrite Hfile, Hname.
Qed.

(** X25: the registration functions keep the type of a flag and the
    member of its default value in step, so for a registry that was
    built by them, with every default of a String flag pointing to a
    text, the usage is defined: printing it reads no member other than
    the one stored. The error message is then defined for every error
    whose name is shorter than the buffer of 64 characters. *)
Theorem declared_usage_defined (ds : list Decl) :
  forall st st' : FlagSet * World,
  declare_all st ds = Some st' ->
  Forall (fun f => is_Some (default_text deref f)) (flags st.1) ->
  Forall (fun d => match d with
                   | DeclString _ _ _ dv _ => is_Some (deref dv)
                   | _ => True
                   end) ds ->
  is_Some (flagSetPrintUsage deref st'.1)
  /\ forall (c : FlagErrorCode) (nm : string),
       (strlen nm < FLAGS_FLAG_MAX_LEN)%nat ->
       is_Some (flagSetPrintError deref (setError st'.1 c nm)).
Proof.
  assert (Herr : forall fs : FlagSet,
             is_Some (flagSetPrintUsage deref fs) ->
             forall (c : FlagErrorCode) (nm : string),
               (strlen nm < FLAGS_FLAG_MAX_LEN)%nat ->
               is_Some (flagSetPrintError deref (setError fs c nm))).
  { intros fs [u Hu] c nm Hnm. unfold flagSetPrintError.
    rewrite flagSetPrintUsage_setError, Hu.
    cbn [setError error_code error_flag_name mbind option_bind].
    assert (Hlen : (String.length (strncpy nm FLAGS_FLAG_MAX_LEN)
                    <? FLAGS_FLAG_MAX_LEN)%nat = true).
    { apply Nat.ltb_lt. unfold strncpy.
      pose proof (length_str_take_le FLAGS_FLAG_MAX_LEN (c_str nm)) as H1.
      destruct (Nat.le_gt_cases FLAGS_FLAG_MAX_LEN
                  (String.length (c_str nm))) as [Hge|Hlt].
      - rewrite length_c_str in Hge. lia.
      - revert Hlt. generalize FLAGS_FLAG_MAX_LEN as n.
        generalize (c_str nm) as t. intros t.
        induction t as [|x t IHt]; intros [|n] Hlt; cbn in *; try lia.
        specialize (IHt n). lia. }
    rewrite Hlen. destruct c; eauto. }
  induction ds as [|d ds IH]; intros st st' Hall Hst Hds.
  - cbn in Hall. injection Hall as <-.
    assert (Hu : is_Some (flagSetPrintUsage deref st.1)).
    { unfold flagSetPrintUsage.
      apply (flag_lines_defined (max_flag_len st.1)) in Hst as [b Hb].
      rewrite Hb. cbn. eauto. }
    split; [exact Hu|now apply Herr].
  - cbn [declare_all] in Hall.
    destruct (declare st d) as [st1|] eqn:Hd; [|discriminate].
    cbn [mbind option_bind] in Hall.
    inversion Hds as [|? ? Hd0 Hrest]; subst.
    apply declare_spec in Hd as (Hfl & _ & _).
    assert (Hst1 : Forall (fun f => is_Some (default_text deref f))
                     (flags st1.1)).
    { rewrite Hfl. apply Forall_app. split; [exact Hst|].
      constructor; [|constructor].
      destruct d; cbn [decl_flag]; unfold default_text; cbn [type default_value];
        eauto.
      destruct Hd0 as [s Hs]. rewrite Hs. cbn. eauto. }
    exact (IH st1 st' Hall Hst1 Hrest).
Qed.

(** X26: the name of an error is copied into a buffer of 64 characters
    without a terminator when it does not fit: for an unknown token of
    64 characters or more the parse returns false with the first 64
    characters of the token, which fill the buffer, and the text that
    [flagSetPrintError] would print for it is not defined. *)
Theorem overlong_unknown_flag_unterminated (fuel : nat) (fs : FlagSet)
    (w : World) (prog tok : string) (args : list string) :
  isConfigFlag fs tok = false -> lookupFlag fs tok = None ->
  isHelpFlag tok = false -> ignore_unknown fs = false ->
  (FLAGS_FLAG_MAX_LEN <= strlen tok)%nat ->
  let '(o, fs', w') := flagSetParse fuel fs w (prog :: tok :: args) in
  o = Ret false /\ w' = w
  /\ error_code fs' = FLAG_ERROR_CODE_UNKNOWN
  /\ error_flag_name fs' = str_take FLAGS_FLAG_MAX_LEN tok
  /\ String.length (error_flag_name fs') = FLAGS_FLAG_MAX_LEN
  /\ flagSetPrintError deref fs' = None.
Proof.
  intros Hc Hl Hh Hi Hlen.
  cbn [flagSetParse flagSetParse_loop]. rewrite Hc, Hl, Hi, Hh.
  assert (Hname : strncpy tok FLAGS_FLAG_MAX_LEN
                  = str_take FLAGS_FLAG_MAX_LEN tok).
  { unfold strncpy, c_str. clear Hc Hl Hh. revert Hlen.
    generalize FLAGS_FLAG_MAX_LEN as n. intros n. revert tok.
    induction n as [|n IHn]; intros tok Hlen; [reflexivity|].
    destruct tok as [|x t]; [reflexivity|]. cbn [strlen] in *.
    destruct (Ascii.eqb x NUL); [lia|]. cbn [str_take].
    rewrite IHn by lia. reflexivity. }
  assert (Hfull : String.length (str_take FLAGS_FLAG_MAX_LEN tok)
                  = FLAGS_FLAG_MAX_LEN).
  { apply length_str_take. pose proof (strlen_le_length tok). lia. }
  split; [reflexivity|]. split; [reflexivity|]. split; [reflexivity|].
  cbn [setError error_flag_name]. rewrite Hname.
  split; [reflexivity|]. split; [exact Hfull|].
  unfold flagSetPrintError. cbn [setError error_code error_flag_name].
  rewrite Hname, Hfull, Nat.ltb_irrefl. reflexivity.
Qed.

End Printing.

Lemma usage_description_column_witness :
  exists out cfg ls,
    flagSetPrintUsage (deref [] w_demo) fs_demo = Some out
    /\ out = "FLAGS" ++ nl ++ cfg ++ fold_right String.append "" ls
             ++ "  -h, --" ++ pad_right (max_flag_len fs_demo) "help"
             ++ " Show this help message" ++ nl ++ nl
    /\ List.length ls = 4%nat /\ max_flag_len fs_demo = 12%nat.
Proof.
  pose (out := default "" (flagSetPrintUsage (deref [] w_demo) fs_demo)).
  assert (Ho : flagSetPrintUsage (deref [] w_demo) fs_demo = Some out)
    by (vm_compute; reflexivity).
  destruct (usage_description_column (deref [] w_demo) fs_demo out Ho)
    as (cfg & ls & Hout & _ & _ & Hls & _).
  exists out, cfg, ls. split; [exact Ho|]. split; [exact Hout|].
  split; [|reflexivity].
  apply Forall2_length in Hls. rewrite <- Hls. reflexivity.
Defined.

Lemma open_failure_is_silent_witness :
  isConfigFlag fs_demo "--config" = true
  /\ files w_demo !! "missing.ini" = None
  /\ flagSetParse 8 fs_demo w_demo ["prog"; "--config"; "missing.ini"]
     = (Ret false,
        setError fs_demo FLAG_ERROR_CODE_OPEN_CONFIG_FILE "config", w_demo).
Proof.
  assert (Hc : isConfigFlag fs_demo "--config" = true) by reflexivity.
  assert (Hf : files w_demo !! "missing.ini" = None)
    by (vm_compute; reflexivity).
  split; [exact Hc|]. split; [exact Hf|].
  destruct (open_failure_is_silent (deref [] w_demo) 8 fs_demo w_demo "prog"
              "--config" "missing.ini" [] Hc Hf) as (cname & Hn & Hp & _).
  assert (Hname : cname = "config").
  { vm_compute in Hn. now injection Hn as <-. }
  rewrite Hp, Hname. reflexivity.
Defined.

Lemma declared_usage_defined_witness :
  exists st',
    declare_all (flagSetNew, world0)
      [DeclString 1 "name" "n" (CallerPtr "nobody") "Name";
       DeclInt 2 "count" "c" 7 "Count"] = Some st'
    /\ Forall (fun f => is_Some (default_text (deref [] world0) f))
         (flags (flagSetNew, world0).1)
    /\ Forall (fun d => match d with
                        | DeclString _ _ _ dv _ =>
                            is_Some (deref [] world0 dv)
                        | _ => True
                        end)
         [DeclString 1 "name" "n" (CallerPtr "nobody") "Name";
          DeclInt 2 "count" "c" 7 "Count"]
    /\ is_Some (flagSetPrintUsage (deref [] world0) st'.1).
Proof.
  pose (ds := [DeclString 1 "name" "n" (CallerPtr "nobody") "Name";
               DeclInt 2 "count" "c" 7 "Count"]).
  pose (st' := default (flagSetNew, world0)
                 (declare_all (flagSetNew, world0) ds)).
  exists st'.
  assert (Hd : declare_all (flagSetNew, world0) ds = Some st')
    by (vm_compute; reflexivity).
  assert (H0 : Forall (fun f => is_Some (default_text (deref [] world0) f))
                 (flags (flagSetNew, world0).1)) by constructor.
  assert (Hds : Forall (fun d => match d with
                                 | DeclString _ _ _ dv _ =>
                                     is_Some (deref [] world0 dv)
                                 | _ => True
                                 end) ds).
  { constructor; [cbn; eauto|]. constructor; [exact I|constructor]. }
  split; [exact Hd|]. split; [exact H0|]. split; [exact Hds|].
  exact (proj1 (declared_usage_defined (deref [] world0) ds _ st' Hd H0 Hds)).
Defined.

Lemma overlong_unknown_flag_unterminated_witness :
  isConfigFlag fs_demo ("--" ++ replicate_char 70 "x") = false
  /\ lookupFlag fs_demo ("--" ++ replicate_char 70 "x") = None
  /\ isHelpFlag ("--" ++ replicate_char 70 "x") = false
  /\ ignore_unknown fs_demo = false
  /\ (FLAGS_FLAG_MAX_LEN <= strlen ("--" ++ replicate_char 70 "x"))%nat
  /\ let '(o, fs', w') :=
       flagSetParse 0 fs_demo w_demo ["prog"; "--" ++ replicate_char 70 "x"] in
     o = Ret false /\ w' = w_demo
     /\ error_code fs' = FLAG_ERROR_CODE_UNKNOWN
     /\ error_flag_name fs'
        = str_take FLAGS_FLAG_MAX_LEN ("--" ++ replicate_char 70 "x")
     /\ String.length (error_flag_name fs') = FLAGS_FLAG_MAX_LEN
     /\ flagSetPrintError (deref [] w_demo) fs' = None.
Proof.
  assert (Hc : isConfigFlag fs_demo ("--" ++ replicate_char 70 "x") = false)
    by (vm_compute; reflexivity).
  assert (Hl : lookupFlag fs_demo ("--" ++ replicate_char 70 "x") = None)
    by (vm_compute; reflexivity).
  assert (Hh : isHelpFlag ("--" ++ replicate_char 70 "x") = false)
    by (vm_compute; reflexivity).
  assert (Hi : ignore_unknown fs_demo = false) by reflexivity.
  assert (Hlen : (FLAGS_FLAG_MAX_LEN
                  <= strlen ("--" ++ replicate_char 70 "x"))%nat)
    by (vm_compute; lia).
  split; [exact Hc|]. split; [exact Hl|]. split; [exact Hh|].
  split; [exact Hi|]. split; [exact Hlen|].
  exact (overlong_unknown_flag_unterminated (deref [] w_demo) 0 fs_demo w_demo
           "prog" ("--" ++ replicate_char 70 "x") [] Hc Hl Hh Hi Hlen).
Defined.

(** ** Parsers and streams are released in order (flag.h, ini.h) *)

Lemma frees_app (p : nat) (a b : list Event) :
  frees p (a ++ b) = (frees p a + frees p b)%nat.
Proof. unfold frees. now rewrite List.filter_app, List.length_app. Qed.

Lemma closes_app (h : nat) (a b : list Event) :
  closes h (a ++ b) = (closes h a + closes h b)%nat.
Proof. unfold closes. now rewrite List.filter_app, List.length_app. Qed.

Lemma was_allocated_app (p : nat) (a b : list Event) :
  was_allocated p (a ++ b) = was_allocated p a || was_allocated p b.
Proof. apply existsb_app. Qed.

Lemma was_opened_app (h : nat) (a b : list Event) :
  was_opened h (a ++ b) = was_opened h a || was_opened h b.
Proof. apply existsb_app. Qed.

Lemma trace_ok_from_app (x : list Event) :
  forall (before y : list Event),
  trace_ok_from before (x ++ y)
  = trace_ok_from before x && trace_ok_from (before ++ x) y.
Proof.
  induction x as [|e x IH]; intros before y.
  - now rewrite app_nil_r.
  - cbn [app trace_ok_from]. rewrite IH, <- app_assoc, andb_assoc.
    reflexivity.
Qed.

Lemma trace_ok_app (x y : list Event) :
  trace_ok (x ++ y) = trace_ok x && trace_ok_from x y.
Proof. apply trace_ok_from_app. Qed.

Lemma trace_ok_snoc (evs : list Event) (e : Event) :
  trace_ok (evs ++ [e]) = trace_ok evs && event_ok evs e.
Proof. rewrite trace_ok_app. cbn [trace_ok_from]. now rewrite andb_true_r. Qed.

Lemma was_allocated_lt (evs : list Event) (p : nat) :
  trace_ok evs = true -> was_allocated p evs = true ->
  (p < List.length evs)%nat.
Proof.
  induction evs as [|e evs IH] using rev_ind; [discriminate 2|].
  rewrite trace_ok_snoc, was_allocated_app, List.length_app.
  intros [Hok He]%andb_true_iff [Ha|Ha]%orb_true_iff.
  - specialize (IH Hok Ha). lia.
  - cbn in Ha. rewrite orb_false_r in Ha.
    destruct e; try discriminate. cbn in He.
    apply Nat.eqb_eq in Ha, He. cbn. lia.
Qed.

Lemma was_opened_lt (evs : list Event) (h : nat) :
  trace_ok evs = true -> was_opened h evs = true ->
  (h < List.length evs)%nat.
Proof.
  induction evs as [|e evs IH] using rev_ind; [discriminate 2|].
  rewrite trace_ok_snoc, was_opened_app, List.length_app.
  intros [Hok He]%andb_true_iff [Ha|Ha]%orb_true_iff.
  - specialize (IH Hok Ha). lia.
  - cbn in Ha. rewrite orb_false_r in Ha.
    destruct e; try discriminate. cbn in He.
    apply Nat.eqb_eq in Ha, He. cbn. lia.
Qed.

Lemma frees_lt (evs : list Event) (p : nat) :
  trace_ok evs = true -> (List.length evs <= p)%nat -> frees p evs = 0%nat.
Proof.
  induction evs as [|e evs IH] using rev_ind; [reflexivity|].
  rewrite trace_ok_snoc, frees_app, List.length_app.
  intros [Hok He]%andb_true_iff Hp. cbn [List.length] in Hp.
  rewrite IH by (assumption || lia).
  destruct e; try reflexivity. cbn in He |- *.
  apply andb_true_iff in He as [Ha _].
  apply (was_allocated_lt evs _ Hok) in Ha.
  unfold frees. cbn. destruct (p =? p0)%nat eqn:E; [|reflexivity].
  apply Nat.eqb_eq in E. lia.
Qed.

Lemma closes_lt (evs : list Event) (h : nat) :
  trace_ok evs = true -> (List.length evs <= h)%nat -> closes h evs = 0%nat.
Proof.
  induction evs as [|e evs IH] using rev_ind; [reflexivity|].
  rewrite trace_ok_snoc, closes_app, List.length_app.
  intros [Hok He]%andb_true_iff Hp. cbn [List.length] in Hp.
  rewrite IH by (assumption || lia).
  destruct e; try reflexivity. cbn in He |- *.
  apply andb_true_iff in He as [Ha _].
  apply (was_opened_lt evs _ Hok) in Ha.
  unfold closes. cbn. destruct (h =? h0)%nat eqn:E; [|reflexivity].
  apply Nat.eqb_eq in E. lia.
Qed.

Lemma trace_ok_once (evs : list Event) (id : nat) :
  trace_ok evs = true -> (frees id evs <= 1)%nat /\ (closes id evs <= 1)%nat.
Proof.
  induction evs as [|e evs IH] using rev_ind; [cbn; lia|].
  rewrite trace_ok_snoc, frees_app, closes_app.
  intros [Hok He]%andb_true_iff. destruct (IH Hok) as [Hf Hc].
  destruct e; cbn in He; unfold frees at 2, closes at 2; cbn;
    try lia.
  - apply andb_true_iff in He as [_ He]. apply Nat.eqb_eq in He.
    destruct (id =? h)%nat eqn:E; cbn; [|lia].
    apply Nat.eqb_eq in E. subst. lia.
  - apply andb_true_iff in He as [_ He]. apply Nat.eqb_eq in He.
    destruct (id =? p)%nat eqn:E; cbn; [|lia].
    apply Nat.eqb_eq in E. subst. lia.
Qed.

Lemma grows_refl (xp xh : option nat) (w w' : World) :
  trace_ok (events w) = true -> events w' = events w -> grows xp xh w w'.
Proof.
  intros Hok He. exists []. rewrite app_nil_r, He.
  split; [reflexivity|]. split; [exact Hok|]. split; reflexivity.
Qed.

Lemma grows_trans (xp xh : option nat) (w w1 w2 : World) :
  grows xp xh w w1 -> grows xp xh w1 w2 -> grows xp xh w w2.
Proof.
  intros (e1 & He1 & _ & Hf1 & Hc1) (e2 & He2 & Hok & Hf2 & Hc2).
  exists (e1 ++ e2)%list.
  assert (Hfresh : (fresh w <= fresh w1)%nat).
  { unfold fresh. rewrite He1, List.length_app. lia. }
  split; [now rewrite He2, He1, app_assoc|]. split; [exact Hok|].
  split.
  - intros p Hp Hx. rewrite frees_app, Hf1, Hf2 by (assumption || lia).
    reflexivity.
  - intros h Hh Hx. rewrite closes_app, Hc1, Hc2 by (assumption || lia).
    reflexivity.
Qed.

Lemma grows_weaken (xp xh : option nat) (w w' : World) :
  grows None None w w' -> grows xp xh w w'.
Proof.
  intros (evs & He & Hok & Hf & Hc). exists evs.
  split; [exact He|]. split; [exact Hok|].
  split; [intros p Hp _; now apply Hf|intros h Hh _; now apply Hc].
Qed.

Lemma grows_from (xp xh : option nat) (w w1 w' : World) :
  events w1 = events w -> grows xp xh w1 w' -> grows xp xh w w'.
Proof.
  unfold grows, fresh. intros He. now rewrite He.
Qed.

Lemma grows_ok (xp xh : option nat) (w w' : World) :
  grows xp xh w w' -> trace_ok (events w) = true.
Proof.
  intros (evs & He & Hok & _). rewrite He, trace_ok_app in Hok.
  now apply andb_true_iff in Hok as [Hok _].
Qed.

Lemma grows_live_parser (xp xh : option nat) (w w' : World) (p : nat) :
  grows xp xh w w' -> live_parser (events w) p -> xp <> Some p ->
  live_parser (events w') p.
Proof.
  intros Hg [Ha Hf] Hx. pose proof (grows_ok _ _ _ _ Hg) as Hok.
  destruct Hg as (evs & He & _ & Hfr & _). rewrite He.
  split; [rewrite was_allocated_app, Ha; reflexivity|].
  rewrite frees_app, Hf, Hfr; [reflexivity| |exact Hx].
  now apply was_allocated_lt.
Qed.

Lemma grows_live_stream (xp xh : option nat) (w w' : World) (h : nat) :
  grows xp xh w w' -> live_stream (events w) h -> xh <> Some h ->
  live_stream (events w') h.
Proof.
  intros Hg [Ha Hf] Hx. pose proof (grows_ok _ _ _ _ Hg) as Hok.
  destruct Hg as (evs & He & _ & _ & Hcl). rewrite He.
  split; [rewrite was_opened_app, Ha; reflexivity|].
  rewrite closes_app, Hf, Hcl; [reflexivity| |exact Hx].
  now apply was_opened_lt.
Qed.

Lemma grows_iniParserFree (w : World) (parser : IniParser) :
  trace_ok (events w) = true ->
  live_parser (events w) (self parser) ->
  (file_owned parser = true -> live_stream (events w) (file parser)) ->
  grows (Some (self parser))
    (if file_owned parser then Some (file parser) else None)
    w (iniParserFree w (Some parser)).
Proof.
  intros Hok [Ha Hf] Hs.
  destruct (iniParserFree_closes_owned_only w parser) as [He _].
  exists ((if file_owned parser then [EvClose (file parser)] else [])
          ++ [EvFree (self parser)])%list.
  split; [exact He|]. rewrite He.
  destruct (file_owned parser) eqn:Ho.
  - destruct (Hs eq_refl) as [Hop Hcl].
    split.
    + cbn [app]. change [EvClose (file parser); EvFree (self parser)]
        with ([EvClose (file parser)] ++ [EvFree (self parser)])%list.
      rewrite app_assoc, !trace_ok_snoc, Hok. cbn [event_ok andb].
      rewrite Hop, Hcl, was_allocated_app, Ha, frees_app, Hf. reflexivity.
    + split.
      * intros p _ Hx. unfold frees. cbn.
        destruct (p =? self parser)%nat eqn:E; [|reflexivity].
        apply Nat.eqb_eq in E. congruence.
      * intros h _ Hx. unfold closes. cbn.
        destruct (h =? file parser)%nat eqn:E; [|reflexivity].
        apply Nat.eqb_eq in E. congruence.
  - split.
    + cbn [app]. rewrite trace_ok_snoc, Hok. cbn [event_ok andb].
      now rewrite Ha, Hf.
    + split.
      * intros p _ Hx. unfold frees. cbn.
        destruct (p =? self parser)%nat eqn:E; [|reflexivity].
        apply Nat.eqb_eq in E. congruence.
      * intros h _ _. reflexivity.
Qed.

Lemma grows_iniParserOpen (w : World) (filename : string)
    (parser : IniParser) (w1 : World) :
  trace_ok (events w) = true ->
  iniParserOpen w filename = (Some parser, w1) ->
  grows None None w w1
  /\ file_owned parser = true
  /\ self parser = S (fresh w) /\ file parser = fresh w
  /\ live_parser (events w1) (self parser)
  /\ live_stream (events w1) (file parser).
Proof.
  intros Hok. unfold iniParserOpen, fopen.
  destruct (files w !! filename) as [content|]; [|discriminate].
  intros [= <- <-]. cbn [file_owned self file].
  set (w0 := emit (with_streams w _) (EvOpen filename (fresh w))).
  assert (He0 : events w0 = (events w ++ [EvOpen filename (fresh w)])%list)
    by reflexivity.
  assert (Hf0 : fresh w0 = S (fresh w)).
  { unfold fresh. rewrite He0, List.length_app. cbn. lia. }
  rewrite Hf0.
  assert (Hok0 : trace_ok (events w0) = true).
  { rewrite He0, trace_ok_snoc, Hok. cbn. unfold fresh. apply Nat.eqb_refl. }
  assert (He1 : events (emit w0 (EvAlloc (S (fresh w))))
                = (events w0 ++ [EvAlloc (S (fresh w))])%list) by reflexivity.
  assert (Hok1 : trace_ok (events (emit w0 (EvAlloc (S (fresh w))))) = true).
  { rewrite He1, trace_ok_snoc, Hok0. cbn [event_ok andb].
    fold (fresh w0). rewrite Hf0. apply Nat.eqb_refl. }
  split; [|split; [reflexivity|split; [reflexivity|split; [reflexivity|]]]].
  - exists [EvOpen filename (fresh w); EvAlloc (S (fresh w))].
    split; [now rewrite He1, He0, <- app_assoc|]. split; [exact Hok1|].
    split; reflexivity.
  - rewrite He1. split; split.
    + rewrite was_allocated_app. cbn. now rewrite Nat.eqb_refl, orb_true_r.
    + rewrite frees_app, (frees_lt _ _ Hok0); [reflexivity|].
      fold (fresh w0). lia.
    + rewrite He0, !was_opened_app. cbn. now rewrite Nat.eqb_refl, orb_true_r.
    + rewrite He0, !closes_app, (closes_lt _ _ Hok); [reflexivity|].
      unfold fresh. lia.
Qed.

Lemma grows_trans_gen (xp xh yp yh : option nat) (w w1 w2 : World) :
  grows xp xh w w1 -> grows yp yh w1 w2 ->
  (forall p, yp = Some p -> xp = Some p \/ (fresh w <= p)%nat) ->
  (forall h, yh = Some h -> xh = Some h \/ (fresh w <= h)%nat) ->
  grows xp xh w w2.
Proof.
  intros (e1 & He1 & _ & Hf1 & Hc1) (e2 & He2 & Hok & Hf2 & Hc2) Hp Hh.
  exists (e1 ++ e2)%list.
  assert (Hfresh : (fresh w <= fresh w1)%nat).
  { unfold fresh. rewrite He1, List.length_app. lia. }
  split; [now rewrite He2, He1, app_assoc|]. split; [exact Hok|].
  split.
  - intros p Hlt Hx. rewrite frees_app, Hf1, Hf2; [reflexivity|lia| |lia|exact Hx].
    intros Hy. destruct (Hp p Hy); [congruence|lia].
  - intros h Hlt Hx.
    rewrite closes_app, Hc1, Hc2; [reflexivity|lia| |lia|exact Hx].
    intros Hy. destruct (Hh h Hy); [congruence|lia].
Qed.

Section Trace.

Context `{Libc}.

Lemma grows_parseIniConfig_with
    (loop : FlagSet -> World -> IniParser -> string -> Res) :
  (forall fs w parser buf,
     trace_ok (events w) = true ->
     live_parser (events w) (self parser) ->
     (file_owned parser = true -> live_stream (events w) (file parser)) ->
     grows (Some (self parser))
       (if file_owned parser then Some (file parser) else None)
       w (loop fs w parser buf).2) ->
  forall fs w filename,
    trace_ok (events w) = true ->
    grows None None w (parseIniConfig_with loop fs w filename).2.
Proof.
  intros Hloop fs w filename Hok. unfold parseIniConfig_with.
  destruct (iniParserOpen w filename) as [[p|] w1] eqn:Hopen.
  - destruct (grows_iniParserOpen _ _ _ _ Hok Hopen)
      as (Hg & Ho & Hs & Hf & Hlp & Hls).
    assert (Hok1 : trace_ok (events w1) = true)
      by (destruct Hg as (? & _ & ? & _); assumption).
    pose proof (Hloop fs w1 p "" Hok1 Hlp (fun _ => Hls)) as Hl.
    apply (grows_trans_gen None None _ _ w w1 _ Hg Hl).
    + intros q [= <-]. right. lia.
    + rewrite Ho. intros h [= <-]. right. lia.
  - assert (He : events w1 = events w).
    { unfold iniParserOpen, fopen in Hopen.
      destruct (files w !! filename); [discriminate|].
      now injection Hopen as <-. }
    destruct (config_flag_name fs); now apply grows_refl.
Qed.

Lemma grows_parseIniConfig_loop (fuel : nat) :
  forall (fs : FlagSet) (w : World) (parser : IniParser) (buf : string),
  trace_ok (events w) = true ->
  live_parser (events w) (self parser) ->
  (file_owned parser = true -> live_stream (events w) (file parser)) ->
  grows (Some (self parser))
    (if file_owned parser then Some (file parser) else None)
    w (parseIniConfig_loop fuel fs w parser buf).2.
Proof.
  assert (Hbuf : 1 <= CONFIG_BUFFER_SIZE) by (unfold CONFIG_BUFFER_SIZE; lia).
  induction fuel as [|fuel IH]; intros fs w parser buf Hok Hlp Hls.
  - now apply grows_refl.
  - cbn [parseIniConfig_loop].
    destruct (iniParseKey w parser buf (Z.of_nat FLAGS_FLAG_MAX_LEN))
      as [[[n key] p1] w1] eqn:Hkey.
    pose proof (iniParseKey_ok _ _ _ _ _ _ _ _ Hkey)
      as (Hok1 & Hs1 & Hf1 & Ho1 & _ & _ & _ & He1 & _).
    rewrite <- Hs1, <- Hf1, <- Ho1 in *. rewrite <- He1 in Hok, Hlp, Hls.
    apply (grows_from _ _ w w1 _ He1). clear Hkey He1.
    destruct (n >? 0); [|now apply grows_refl].
    destruct (match config_flag_name fs with
              | Some cname => strcmp cname key =? 0
              | None => false
              end).
    + destruct (iniParseValue w1 p1 key CONFIG_BUFFER_SIZE)
        as [[[vlen v] p2] w2] eqn:Hval.
      pose proof (iniParseValue_ok _ _ _ _ _ _ _ _ Hok1 Hbuf Hval)
        as (_ & _ & Hs2 & Hf2 & Ho2 & _ & _ & He2 & _).
      rewrite <- Hs2, <- Hf2, <- Ho2 in *. rewrite <- He2 in Hok, Hlp, Hls.
      apply (grows_from _ _ w1 w2 _ He2). clear Hval He2.
      destruct (vlen =? 0); [now apply grows_iniParserFree|].
      pose proof (grows_parseIniConfig_with (parseIniConfig_loop fuel) IH
                    fs w2 v Hok) as Hn.
      destruct (parseIniConfig_with (parseIniConfig_loop fuel) fs w2 v)
        as [[o fs3] w3].
      cbn [snd] in Hn.
      destruct o as [[|]| | |]; try (apply grows_weaken; exact Hn).
      assert (Hok3 : trace_ok (events w3) = true)
        by (destruct Hn as (? & _ & ? & _); assumption).
      apply (grows_trans _ _ w2 w3); [apply grows_weaken; exact Hn|].
      apply IH; [exact Hok3| |].
      * apply (grows_live_parser _ _ _ _ _ Hn Hlp). discriminate.
      * intros Ho. apply (grows_live_stream _ _ _ _ _ Hn (Hls Ho)).
        discriminate.
    + destruct (lookupConfigFlag fs key) as [conf|].
      * destruct (iniParseValue w1 p1 "" CONFIG_BUFFER_SIZE)
          as [[[vlen v] p2] w2] eqn:Hval.
        pose proof (iniParseValue_ok _ _ _ _ _ _ _ _ Hok1 Hbuf Hval)
          as (_ & _ & Hs2 & Hf2 & Ho2 & _ & _ & He2 & _).
        rewrite <- Hs2, <- Hf2, <- Ho2 in *. rewrite <- He2 in Hok, Hlp, Hls.
        apply (grows_from _ _ w1 w2 _ He2). clear Hval He2.
        destruct (vlen =? 0); [now apply grows_iniParserFree|].
        destruct (coerceConfig w2 conf v vlen) as [w3|] eqn:Hco;
          [|now apply grows_iniParserFree].
        apply coerceConfig_store in Hco as (_ & _ & _ & He3).
        rewrite <- He3 in Hok, Hlp, Hls.
        apply (grows_from _ _ w2 w3 _ He3). now apply IH.
      * destruct (ignore_unknown fs); [now apply IH|].
        now apply grows_iniParserFree.
Qed.

Lemma grows_parseIniConfig (fuel : nat) (fs : FlagSet) (w : World)
    (filename : string) :
  trace_ok (events w) = true ->
  grows None None w (parseIniConfig fuel fs w filename).2.
Proof.
  apply (grows_parseIniConfig_with (parseIniConfig_loop fuel)).
  apply grows_parseIniConfig_loop.
Qed.

Lemma grows_flagSetParse_loop (fuel : nat) (k : nat) :
  forall (args : list string) (fs : FlagSet) (w : World) (i : nat),
  (List.length args <= k)%nat ->
  trace_ok (events w) = true ->
  grows None None w (flagSetParse_loop fuel fs w args i).2.
Proof.
  induction k as [|k IH]; intros args fs w i Hk Hok.
  - destruct args; [|simpl in Hk; lia]. now apply grows_refl.
  - destruct args as [|flag args1]; [now apply grows_refl|].
    cbn [flagSetParse_loop]. cbn [List.length] in Hk.
    destruct (isConfigFlag fs flag).
    + destruct args1 as [|filename args2]; [now apply grows_refl|].
      pose proof (grows_parseIniConfig fuel fs w filename Hok) as Hn.
      destruct (parseIniConfig fuel fs w filename) as [[o fs1] w1].
      cbn [snd] in Hn.
      destruct o as [[|]| | |]; try exact Hn.
      apply (grows_trans _ _ w w1); [exact Hn|].
      apply IH; [cbn [List.length] in Hk; lia|].
      destruct Hn as (? & _ & ? & _); assumption.
    + destruct (lookupFlag fs flag) as [conf|].
      * assert (Hbool : grows None None w
                  (flagSetParse_loop fuel fs (store w (ptr conf) (CBool true))
                     args1 (i + 1)).2).
        { apply (grows_from _ _ w (store w (ptr conf) (CBool true)));
            [reflexivity|]. apply IH; [lia|exact Hok]. }
        assert (Hval : grows None None w
                  match args1 with
                  | [] =>
                      (Ret false,
                       setError fs FLAG_ERROR_CODE_MISSING_VALUE (name conf),
                       w)
                  | value :: args2 =>
                      match coerceArg w conf value (i + 1) with
                      | None =>
                          (Ret false,
                           setError fs FLAG_ERROR_CODE_INVALID_VALUE
                             (name conf), w)
                      | Some w0 => flagSetParse_loop fuel fs w0 args2 (i + 2)
                      end
                  end.2).
        { destruct args1 as [|value args2]; [now apply grows_refl|].
          destruct (coerceArg w conf value (i + 1)) as [w0|] eqn:Hco;
            [|now apply grows_refl].
          apply coerceArg_store in Hco as [c ->].
          apply (grows_from _ _ w (store w (ptr conf) c)); [reflexivity|].
          apply IH; [cbn [List.length] in Hk; lia|exact Hok]. }
        destruct (type conf); assumption.
      * destruct (ignore_unknown fs); [apply IH; [lia|exact Hok]|].
        destruct (isHelpFlag flag); now apply grows_refl.
Qed.

(** X27: a parse never releases a parser or closes a stream twice, and
    never one that it did not allocate or open itself: from a well-formed
    trace, merging a file and parsing an argument vector both extend the
    trace to a well-formed one, in which every parser is released at
    most once and every stream closed at most once, and the events that
    they add release and close nothing that was there before the
    call. *)
Theorem parse_releases_in_order (fuel : nat) (fs : FlagSet) (w : World)
    (filename : string) (argv : list string) :
  trace_ok (events w) = true ->
  forall w' : World,
    w' = (parseIniConfig fuel fs w filename).2
    \/ w' = (flagSetParse fuel fs w argv).2 ->
    trace_ok (events w') = true
    /\ (forall id, (frees id (events w') <= 1)%nat
                   /\ (closes id (events w') <= 1)%nat)
    /\ exists evs,
         events w' = (events w ++ evs)%list
         /\ forall id, (id < fresh w)%nat ->
              frees id evs = 0%nat /\ closes id evs = 0%nat.
Proof.
  intros Hok w' Hw'.
  assert (Hg : grows None None w w').
  { destruct Hw' as [->| ->]; [now apply grows_parseIniConfig|].
    destruct argv as [|prog args]; [now apply grows_refl|].
    cbn [flagSetParse].
    now apply (grows_flagSetParse_loop fuel (List.length args)). }
  destruct Hg as (evs & He & Hok' & Hf & Hc).
  split; [exact Hok'|]. split; [intros id; now apply trace_ok_once|].
  exists evs. split; [exact He|]. intros id Hid.
  split; [now apply Hf|now apply Hc].
Qed.

End Trace.

Lemma parse_releases_in_order_witness :
  trace_ok (events (with_file w_demo "a.ini" ("bogus = 1" ++ nl))) = true
  /\ events (flagSetParse 8 fs_demo
               (with_file w_demo "a.ini" ("bogus = 1" ++ nl))
               ["prog"; "--config"; "a.ini"]).2
     = [EvOpen "a.ini" 0; EvAlloc 1; EvClose 0; EvFree 1]
  /\ trace_ok (events (flagSetParse 8 fs_demo
                         (with_file w_demo "a.ini" ("bogus = 1" ++ nl))
                         ["prog"; "--config"; "a.ini"]).2) = true.
Proof.
  assert (Hok : trace_ok (events (with_file w_demo "a.ini"
                                    ("bogus = 1" ++ nl))) = true)
    by (vm_compute; reflexivity).
  split; [exact Hok|]. split; [vm_compute; reflexivity|].
  exact (proj1 (parse_releases_in_order 8 fs_demo _ "a.ini"
                  ["prog"; "--config"; "a.ini"] Hok _ (or_intror eq_refl))).
Defined.

(** ** Parser objects and the configuration flag (ini.h, flag.h) *)

(** X29: opening a file and releasing the parser is a round trip: the
    parser starts at the first chunk of the file, and after
    [iniParserFree] the trace shows the open, the allocation, the close
    and the release of the same ids, the stream is gone, and the
    destinations, the blocks and the files are as they were. A parser
    made by [iniParserNew] on a stream of the caller is released without
    closing that stream. A file that does not exist gives NULL and
    changes nothing, and releasing NULL does nothing. *)
Theorem parser_round_trip (w : World) (filename : string) (h : nat) :
  (files w !! filename = None ->
   iniParserOpen w filename = (None, w) /\ iniParserFree w None = w)
  /\ (forall content,
        files w !! filename = Some content ->
        exists parser w1,
          iniParserOpen w filename = (Some parser, w1)
          /\ unread w1 parser = stream_of content
          /\ events (iniParserFree w1 (Some parser))
             = (events w ++ [EvOpen filename (fresh w); EvAlloc (S (fresh w));
                             EvClose (fresh w); EvFree (S (fresh w))])%list
          /\ streams (iniParserFree w1 (Some parser))
             = delete (fresh w) (streams w)
          /\ mem (iniParserFree w1 (Some parser)) = mem w
          /\ blocks (iniParserFree w1 (Some parser)) = blocks w
          /\ files (iniParserFree w1 (Some parser)) = files w)
  /\ (let '(parser, w1) := iniParserNew w h in
      file parser = h /\ unread w1 parser = default [] (streams w !! h)
      /\ events (iniParserFree w1 (Some parser))
         = (events w ++ [EvAlloc (fresh w); EvFree (fresh w)])%list
      /\ streams (iniParserFree w1 (Some parser)) = streams w).
Proof.
  split; [|split].
  - intros Hfile. unfold iniParserOpen, fopen. now rewrite Hfile.
  - intros content Hfile. unfold iniParserOpen, fopen. rewrite Hfile.
    eexists _, _. split; [reflexivity|].
    assert (Hf : fresh (emit (with_streams w
                                (<[fresh w := stream_of content]> (streams w)))
                          (EvOpen filename (fresh w))) = S (fresh w)).
    { unfold fresh. cbn [events emit with_streams].
      rewrite List.length_app. cbn. lia. }
    rewrite Hf.
    unfold iniParserFree, fclose, unread.
    cbn [file_owned file self events streams mem blocks files emit
         with_streams].
    split; [now rewrite lookup_insert_eq|].
    split; [now rewrite <- !app_assoc|].
    split; [apply delete_insert_eq|].
    split; [reflexivity|]. split; reflexivity.
  - unfold iniParserNew, iniParserFree, unread.
    cbn [file_owned file self events streams emit with_streams].
    split; [reflexivity|]. split; [reflexivity|].
    split; [now rewrite <- app_assoc|reflexivity].
Qed.

(** X30: after [flagSetConfig] the two-dash token of the name and, for a
    short name other than NUL, the one-dash token of the short name are
    taken for the configuration flag; the registered flags and what
    tokens and keys are matched to are as before; and a second call
    replaces the first. *)
Theorem flagSetConfig_round_trip (fs : FlagSet) (cname : string) (sn : ascii)
    (desc : string) :
  no_nul cname = true ->
  isConfigFlag (flagSetConfig fs cname sn desc) ("--" ++ cname) = true
  /\ (sn <> NUL ->
      isConfigFlag (flagSetConfig fs cname sn desc) (String "-" (String sn ""))
      = true)
  /\ flags (flagSetConfig fs cname sn desc) = flags fs
  /\ (forall tok,
        lookupFlag (flagSetConfig fs cname sn desc) tok = lookupFlag fs tok)
  /\ (forall key,
        lookupConfigFlag (flagSetConfig fs cname sn desc) key
        = lookupConfigFlag fs key)
  /\ forall cname' sn' desc',
       flagSetConfig (flagSetConfig fs cname sn desc) cname' sn' desc'
       = flagSetConfig fs cname' sn' desc'.
Proof.
  intros Hnn.
  assert (Hself : String.prefix cname cname = true).
  { clear. induction cname as [|c s IH]; [reflexivity|]. cbn.
    destruct (ascii_dec c c); [exact IH|congruence]. }
  split.
  { rewrite (isConfigFlag_long (flagSetConfig fs cname sn desc) cname cname
               eq_refl Hnn). exact Hself. }
  split.
  { intros Hn. destruct (ascii_dec sn "-") as [->|Hd].
    - pose proof (isConfigFlag_long (flagSetConfig fs cname "-" desc) cname ""
                    eq_refl eq_refl) as Hl.
      rewrite append_cons, append_cons, append_nil_l in Hl. rewrite Hl.
      now destruct cname.
    - rewrite (isConfigFlag_short (flagSetConfig fs cname sn desc) cname sn
                 eq_refl Hd Hn).
      apply Ascii.eqb_refl. }
  split; [reflexivity|]. split; [reflexivity|]. split; reflexivity.
Qed.

Lemma flagSetConfig_round_trip_witness :
  no_nul "config" = true
  /\ isConfigFlag (flagSetConfig flagSetNew "config" "f" "Configuration file")
       ("--" ++ "config") = true.
Proof.
  split; [reflexivity|].
  exact (proj1 (flagSetConfig_round_trip flagSetNew "config" "f"
                  "Configuration file" eq_refl)).
Defined.
